(** * DevForge: the incremental indexing and retrieval engine

    A shallow embedding of the chunker, the vector index, the indexing loop,
    the retrieval ranking and the language tally of DevForge
    (src/embeddings.js, src/read.js, src/chat.js, src/scan.js), and the
    properties of the specification that they decide.

    Conventions of the embedding.
    - A JavaScript string is a [string]: a sequence of 8-bit code units, read
      as the Latin-1 range of UTF-16.  [String.length] is [.length].
    - A JavaScript integer (line numbers, budgets, counters) is a [Z];
      [Math.floor (x / 80)] is [x / 80] on [Z], which rounds down.
    - An array is a [list]; [Array.prototype.slice] takes the two indices
      the way ECMAScript does, negative ones counting from the end.
    - A finite score or vector component (an IEEE double) is a rational [Q]:
      comparing two finite doubles is comparing the rationals they denote.
    - The mutable index object is threaded as an explicit state. *)

From Stdlib Require Import ZArith QArith Qminmax Lia Ascii String List.
From stdpp Require Import base option list sorting gmap strings.

Local Open Scope string_scope.
Local Open Scope Z_scope.

(** * The embedding *)

(** ** Strings and arrays *)

Module Js.

Definition LF : ascii := Ascii.ascii_of_nat 10.
Definition CR : ascii := Ascii.ascii_of_nat 13.

(** [.length] of a string and of an array, as integers. *)
Definition strlen (s : string) : Z := Z.of_nat (String.length s).
Definition len {A} (l : list A) : Z := Z.of_nat (length l).

Definition starts_with_LF (s : string) : bool :=
  match s with
  | String c _ => Ascii.eqb c LF
  | EmptyString => false
  end.

(** [text.split(/\r?\n/)]: a line feed ends the current line, and a
    carriage return right before it belongs to the separator.  The result
    always has at least one line: the empty text splits into [[""]]. *)
Fixpoint split_lines (text : string) : list string :=
  match text with
  | EmptyString => [ "" ]
  | String c rest =>
      if Ascii.eqb c LF then "" :: split_lines rest
      else if Ascii.eqb c CR && starts_with_LF rest then split_lines rest
      else match split_lines rest with
           | l :: ls => String c l :: ls
           | [] => [ String c "" ]
           end
  end.

(** [arr.join("\n")] on an array of strings. *)
Definition join_lines (ls : list string) : string :=
  String.concat (String LF "") ls.

(** The index normalisation of [Array.prototype.slice]. *)
Definition rel_index (n i : Z) : Z :=
  if i <? 0 then Z.max (n + i) 0 else Z.min i n.

(** [arr.slice(s, e)]. *)
Definition slice {A} (l : list A) (s e : Z) : list A :=
  let k := rel_index (len l) s in
  let final := rel_index (len l) e in
  take (Z.to_nat (final - k)) (drop (Z.to_nat k) l).

(** [x | 0]: the 32-bit two's complement reading of an integer. *)
Definition to_int32 (x : Z) : Z :=
  (x + 2 ^ 31) mod 2 ^ 32 - 2 ^ 31.

End Js.

(** ** The chunker (src/embeddings.js, [chunkFileContent]) *)

Module Chunk.
Record t := mk { text : string; start : Z; end_ : Z }.
End Chunk.

Record options := { maxChars : option Z; overlap : option Z }.

(** [{ maxChars = 2000, overlap = 200 } = {}]. *)
Definition no_options : options := {| maxChars := None; overlap := None |}.
Definition maxChars_of (o : options) : Z := default 2000 (maxChars o).
Definition overlap_of (o : options) : Z := default 200 (overlap o).

(** The inner [while]: [rest] is [lines] from index [end_] on, so that the
    test [end < lines.length] is [rest] being non-empty and [lines[end]] is
    its head.  Returns the final [end]. *)
Fixpoint pack (maxC : Z) (rest : list string) (end_ size : Z) : Z :=
  match rest with
  | [] => end_
  | l :: rest' =>
      if size + Js.strlen l + 1 <=? maxC
      then pack maxC rest' (end_ + 1) (size + Js.strlen l + 1)
      else end_
  end.

(** What one pass through the body of the outer [while] does. *)
Inductive control :=
| Break (chunks : list Chunk.t)
| Next (start : Z) (chunks : list Chunk.t).

Definition iteration (lines : list string) (maxC ovl : Z)
    (start : Z) (chunks : list Chunk.t) : control :=
  let end_ := pack maxC (drop (Z.to_nat start) lines) start 0 in
  let slice := Js.slice lines start end_ in
  let chunks :=
    if Js.len slice =? 0 then chunks
    else (chunks ++ [ Chunk.mk (Js.join_lines slice) start (Z.max 0 (end_ - 1)) ])%list in
  if end_ >=? Js.len lines then Break chunks
  else
    let nextStart := Z.max (end_ - ovl / 80) (end_ - 3) in
    Next (Z.max (start + 1) nextStart) chunks.

(** The outer [while], with a bound on the number of times its test is
    evaluated; [None] is running out of that bound. *)
Fixpoint chunk_loop (fuel : nat) (lines : list string) (maxC ovl : Z)
    (start : Z) (chunks : list Chunk.t) : option (list Chunk.t) :=
  match fuel with
  | O => None
  | S fuel' =>
      if start <? Js.len lines then
        match iteration lines maxC ovl start chunks with
        | Break chunks' => Some chunks'
        | Next start' chunks' => chunk_loop fuel' lines maxC ovl start' chunks'
        end
      else Some chunks
  end.

Definition chunkFileContent_fuel (fuel : nat) (text : string) (o : options)
    : option (list Chunk.t) :=
  chunk_loop fuel (Js.split_lines text) (maxChars_of o) (overlap_of o) 0 [].

(** The loop needs at most one test per line and one more
    ([chunkFileContent_run] below), so this bound is never reached. *)
Definition chunkFileContent (text : string) (o : options) : list Chunk.t :=
  default [] (chunkFileContent_fuel (S (length (Js.split_lines text))) text o).

Definition nl : string := String Js.LF "".
Definition crlf : string := String Js.CR (String Js.LF "").

(** ** The vector index (src/embeddings.js) *)

(** An embedding: an array of finite doubles. *)
Definition vector : Type := list Q.

Module File.
(** [{ path, sizeKB, hash }], one scanned file. *)
Record t := mk { path : string; sizeKB : Z; hash : string }.
End File.

Module Entry.
(** [{ path, hash, chunkId, start, end, vector, updated_at }].  An index
    read back from disk may lack a usable [vector] ([None] is anything
    that is not an array) or an [updated_at]. *)
Record t := mk {
  path : string;
  hash : string;
  chunkId : Z;
  start : Z;
  end_ : Z;
  vector : option vector;
  updated_at : option string
}.
End Entry.

Module Index.
(** [{ version, chunks }]. *)
Record t := mk { version : Z; chunks : list Entry.t }.
End Index.

(** [readIndex] when there is no index file, or one that does not parse. *)
Definition fresh_index : Index.t := Index.mk 1 [].

(** [dropFilesFromIndex(index, removedPaths)]. *)
Definition dropFilesFromIndex (index : Index.t) (removedPaths : list string)
    : Index.t :=
  if Js.len removedPaths =? 0 then index
  else
    let rm : gset string := list_to_set removedPaths in
    Index.mk (Index.version index)
      (filter (fun c => Entry.path c ∉ rm) (Index.chunks index)).

(** [dropFileFromIndexByPath(index, pathStr)]. *)
Definition dropFileFromIndexByPath (index : Index.t) (pathStr : string)
    : Index.t :=
  Index.mk (Index.version index)
    (filter (fun c => Entry.path c ≠ pathStr) (Index.chunks index)).

(** The count [readCommand] reports after pruning (src/read.js):
    [before - dropFilesFromIndex(index, removedFiles).chunks.length]. *)
Definition pruned (index : Index.t) (removedFiles : list string) : Z :=
  let before := Js.len (Index.chunks index) in
  before - Js.len (Index.chunks (dropFilesFromIndex index removedFiles)).

(** ** The environment of a run *)

(** What the embeddings endpoint answers to one request. *)
Inductive response :=
| Unreachable (message : string)           (* [fetch] rejects *)
| NotOk (status : Z) (body : string)       (* [!res.ok] *)
| Json (embedding : option vector).        (* [data.embedding], if an array *)

(** What [embedTexts] throws. *)
Inductive exn :=
| FetchError (message : string)
| ApiFailed (status : Z) (body : string)
| InvalidResponse.

(** The file system, the embedding service and the clock, as the code sees
    them during one command.  [sanitizeText] rewrites sequences of code
    units outside the 8-bit alphabet of this embedding (the euro sign, the
    replacement character), so it is kept abstract: every result below
    holds whatever it does to the text. *)
Record Env := {
  path_join : string -> string -> string;
  readFileSync : string -> option string;       (* [None]: it throws *)
  sanitizeText : string -> string;
  embeddings_api : string -> string -> response; (* model, prompt *)
  now : Z -> string                              (* clock at the i-th push *)
}.

(** [String.prototype.trim] on 8-bit code units: tab, line feed, vertical
    tab, form feed, carriage return, space and no-break space. *)
Definition is_space (c : ascii) : bool :=
  let n := N_of_ascii c in
  ((9 <=? n) && (n <=? 13) || (n =? 32) || (n =? 160))%N.

Fixpoint trimStart (s : string) : string :=
  match s with
  | String c rest => if is_space c then trimStart rest else s
  | EmptyString => EmptyString
  end.

Fixpoint trimEnd (s : string) : string :=
  match s with
  | String c rest =>
      match trimEnd rest with
      | EmptyString => if is_space c then EmptyString else String c EmptyString
      | rest' => String c rest'
      end
  | EmptyString => EmptyString
  end.

Definition trim (s : string) : string := trimEnd (trimStart s).

(** A string is falsy exactly when it is empty. *)
Definition falsy (s : string) : bool :=
  match s with EmptyString => true | _ => false end.

(** ** Computations on the index that may throw *)

(** The index is one mutable object: what a computation did to it before
    throwing stays done. *)
Definition M (A : Type) : Type := Index.t -> Index.t * (exn + A).

Definition ret {A} (a : A) : M A := fun index => (index, inr a).
Definition bind {A B} (m : M A) (k : A -> M B) : M B :=
  fun index =>
    match m index with
    | (index', inr a) => k a index'
    | (index', inl e) => (index', inl e)
    end.
Definition try_catch {A} (m : M A) (handler : exn -> M A) : M A :=
  fun index =>
    match m index with
    | (index', inl e) => handler e index'
    | done => done
    end.
Definition modify (f : Index.t -> Index.t) : M unit :=
  fun index => (f index, inr tt).
Definition lift {A} (r : exn + A) : M A :=
  fun index => (index, r).

Notation "'let*' x ':=' m 'in' k" := (bind m (fun x => k))
  (at level 10, x name, m at level 100, k at level 200).
Notation "m ';;' k" := (bind m (fun _ => k))
  (at level 100, k at level 200, right associativity).

Section Indexing.

Variable env : Env.

(** One request of [embedTexts]. *)
Definition embedText (model text : string) : exn + vector :=
  match embeddings_api env model text with
  | Unreachable message => inl (FetchError message)
  | NotOk status body => inl (ApiFailed status body)
  | Json None => inl InvalidResponse
  | Json (Some embedding) => inr embedding
  end.

(** [embedTexts(model, texts)]: the texts are embedded one after the
    other, and the first failure is thrown.  The batches of the source
    only pace the requests. *)
Fixpoint embedTexts (model : string) (texts : list string)
    : exn + list vector :=
  match texts with
  | [] => inr []
  | text :: rest =>
      match embedText model text with
      | inl e => inl e
      | inr v =>
          match embedTexts model rest with
          | inl e => inl e
          | inr vs => inr (v :: vs)
          end
      end
  end.

(** [index.chunks.push(entry)]. *)
Definition push (entry : Entry.t) (index : Index.t) : Index.t :=
  Index.mk (Index.version index) (Index.chunks index ++ [ entry ])%list.

(** The insertion loop of [embedFile], from position [i] on; [rest] is
    [chunks] from index [i]. *)
Fixpoint insert_chunks (file : File.t) (vectors : list vector) (i : Z)
    (rest : list Chunk.t) : M unit :=
  match rest with
  | [] => ret tt
  | c :: rest' =>
      modify (push {|
        Entry.path := File.path file;
        Entry.hash := File.hash file;
        Entry.chunkId := i;
        Entry.start := Chunk.start c;
        Entry.end_ := Chunk.end_ c;
        Entry.vector := vectors !! Z.to_nat i;
        Entry.updated_at := Some (now env i)
      |});;
      insert_chunks file vectors (i + 1) rest'
  end.

(** [embedFile({ root, file, model, index })], returning [added]. *)
Definition embedFile (root : string) (file : File.t) (model : string) : M Z :=
  let full := path_join env root (File.path file) in
  match readFileSync env full with
  | None => ret 0
  | Some rawText =>
      let text := sanitizeText env rawText in
      if falsy (trim text) then ret 0
      else
        let chunks := chunkFileContent text no_options in
        if Js.len chunks =? 0 then ret 0
        else
          let* vectors := lift (embedTexts model (map Chunk.text chunks)) in
          modify (fun index => dropFileFromIndexByPath index (File.path file));;
          insert_chunks file vectors 0 chunks;;
          ret (Js.len chunks)
  end.

(** The loop of [readCommand] over [toProcess]: a file whose [embedFile]
    throws is reported and the loop goes on. *)
Fixpoint process_files (root model : string) (toProcess : list File.t)
    (totalNewChunks : Z) : M Z :=
  match toProcess with
  | [] => ret totalNewChunks
  | f :: rest =>
      let* totalNewChunks :=
        try_catch
          (let* added := embedFile root f model in
           ret (totalNewChunks + added))
          (fun _ => ret totalNewChunks) in
      process_files root model rest totalNewChunks
  end.

(** Step 4 of [readCommand]: prune the removed files, then embed the
    added and the changed ones. *)
Definition update_index (root model : string) (removedFiles : list string)
    (addedFiles changedFiles : list File.t) : M Z :=
  (if negb (Js.len removedFiles =? 0)
   then modify (fun index => dropFilesFromIndex index removedFiles)
   else ret tt);;
  process_files root model (addedFiles ++ changedFiles)%list 0.

End Indexing.

(** ** Retrieval (src/chat.js) *)

Module Scored.
(** [{ score, ...c }]. *)
Record t := mk { score : Q; entry : Entry.t }.
Definition path (s : t) : string := Entry.path (entry s).
End Scored.

Module Block.
(** A context block [{ path, start, end, text }]. *)
Record t := mk { path : string; start : Z; end_ : Z; text : string }.
End Block.

(** [arr.sort((a, b) => b.score - a.score)]: the sort is stable, so an
    element goes before the first one whose score does not exceed its own. *)
Fixpoint insert_desc (x : Scored.t) (sorted : list Scored.t) : list Scored.t :=
  match sorted with
  | [] => [ x ]
  | y :: rest =>
      if Qle_bool (Scored.score y) (Scored.score x) then x :: y :: rest
      else y :: insert_desc x rest
  end.

Definition sort_desc (arr : list Scored.t) : list Scored.t :=
  foldr insert_desc [] arr.

(** The [Map] from path to chunks, in insertion order:
    [if (!byFile.has(s.path)) byFile.set(s.path, []); byFile.get(s.path).push(s)]. *)
Fixpoint byFile_push (byFile : list (string * list Scored.t)) (s : Scored.t)
    : list (string * list Scored.t) :=
  match byFile with
  | [] => [ (Scored.path s, [ s ]) ]
  | (p, arr) :: rest =>
      if String.eqb p (Scored.path s) then (p, (arr ++ [ s ])%list) :: rest
      else (p, arr) :: byFile_push rest s
  end.

Definition group_by_file (scored : list Scored.t) : list (string * list Scored.t) :=
  fold_left byFile_push scored [].

(** [for (const [p, arr] of byFile) { arr.sort(..); pick.push(arr[0]);
    if (pick.length >= k) break; }].  The arrays of [byFile] are never
    empty, so [arr[0]] is the head. *)
Fixpoint pick_best (k : Z) (byFile : list (string * list Scored.t))
    (pick : list Scored.t) : list Scored.t :=
  match byFile with
  | [] => pick
  | (p, arr) :: rest =>
      let pick := (pick ++ take 1 (sort_desc arr))%list in
      if Js.len pick >=? k then pick else pick_best k rest pick
  end.

(** [while (pick.length < k && pick.length < scored.length)
    pick.push(scored[pick.length])], which runs at most [scored.length]
    times. *)
Fixpoint fill_up (times : nat) (k : Z) (scored pick : list Scored.t)
    : list Scored.t :=
  match times with
  | O => pick
  | S times' =>
      if (Js.len pick <? k) && (Js.len pick <? Js.len scored) then
        match scored !! length pick with
        | Some s => fill_up times' k scored (pick ++ [ s ])%list
        | None => pick
        end
      else pick
  end.

(** [Math.max(1, Number(topk) || 12)]; [None] is a [topk] that is not a
    number. *)
Definition k_of (topk : option Z) : Z :=
  Z.max 1 (match topk with
           | Some n => if n =? 0 then 12 else n
           | None => 12
           end).

(** From the scored chunks to the chunks that become context:
    [pick.slice(0, k)]. *)
Definition select (scored : list Scored.t) (k : Z) : list Scored.t :=
  let scored := sort_desc scored in
  let byFile := group_by_file scored in
  let pick := pick_best k byFile [] in
  let pick := fill_up (length scored) k scored pick in
  Js.slice pick 0 k.

Section Retrieval.

Variable env : Env.

(** The arithmetic of doubles that scoring uses. *)
Variable cosine : vector -> vector -> Q.
Variable float_add : Q -> Q -> Q.

Definition freshnessBoost (c : Entry.t) : Q :=
  match Entry.updated_at c with
  | Some stamp => if falsy stamp then 0 else 1 # 1000000
  | None => 0
  end.

(** The scoring loop: chunks without an array [vector] are skipped. *)
Definition score_chunks (qVec : vector) (chunks : list Entry.t)
    : list Scored.t :=
  omap (fun c =>
          match Entry.vector c with
          | None => None
          | Some v =>
              Some (Scored.mk (float_add (cosine qVec v) (freshnessBoost c)) c)
          end) chunks.

(** [readSlice(absPath, start, end)]; [None] when reading throws. *)
Definition readSlice (absPath : string) (start end_ : Z) : option string :=
  match readFileSync env absPath with
  | None => None
  | Some txt =>
      let lines := Js.split_lines txt in
      let s := Z.max 0 (Js.to_int32 start) in
      let e := Z.min (Js.len lines) (Js.to_int32 end_) in
      Some (Js.join_lines (Js.slice lines s e))
  end.

(** One context block: [let text = ""; try { text = readSlice(..) } catch {}]. *)
Definition context_block (root : string) (c : Entry.t) : Block.t :=
  let abs := path_join env root (Entry.path c) in
  let text := default "" (readSlice abs (Entry.start c) (Entry.end_ c)) in
  Block.mk (Entry.path c) (Entry.start c) (Entry.end_ c) text.

(** Retrieval: score, select, read the blocks. *)
Definition retrieve (root : string) (chunks : list Entry.t) (qVec : vector)
    (k : Z) : list Block.t :=
  map (fun s => context_block root (Scored.entry s))
    (select (score_chunks qVec chunks) k).

End Retrieval.

(** ** The scan (src/scan.js) *)

(** [String.prototype.toLowerCase] on 8-bit code units: the letters A-Z and
    the capital letters of Latin-1. *)
Definition lower (c : ascii) : ascii :=
  let n := N_of_ascii c in
  if ((65 <=? n) && (n <=? 90)
      || (192 <=? n) && (n <=? 222) && negb (n =? 215))%N
  then ascii_of_N (n + 32) else c.

Fixpoint toLowerCase (s : string) : string :=
  match s with
  | String c rest => String (lower c) (toLowerCase rest)
  | EmptyString => EmptyString
  end.

(** [s.split(".")]. *)
Fixpoint split_dot (s : string) : list string :=
  match s with
  | EmptyString => [ "" ]
  | String c rest =>
      if Ascii.eqb c "." then "" :: split_dot rest
      else match split_dot rest with
           | l :: ls => String c l :: ls
           | [] => [ String c "" ]
           end
  end.

(** [(rel.split(".").pop() || "").toLowerCase()]. *)
Definition extension (rel : string) : string :=
  toLowerCase (default "" (last (split_dot rel))).

(** What a key of [languages] holds: a number, or a string once [+ 1] has
    been applied to a value that is not a number. *)
Inductive tally :=
| Count (n : Z)
| Text (s : string).

Section Scan.

(** The file system of the scan: [fs.statSync(full).size], [None] when it
    throws; the digest of the file, [None] when [fs.readFileSync] throws in
    [hashFileFull]; and the text that [Object + 1] starts with, the source
    text of the function [Object]. *)
Variable path_join : string -> string -> string.
Variable statSync : string -> option Z.
Variable hashFileFull : string -> option string.
Variable Object_source : string.

(** [if (ext) languages[ext] = (languages[ext] || 0) + 1], on the own
    properties of the object literal [languages].  Of the names an object
    literal inherits, [constructor] and [__proto__] are the only ones
    without a capital letter, so the only ones [ext] can be.  The first
    read of [languages.constructor] is the function [Object], and adding 1
    to it gives a string, which becomes an own property.  Reading
    [languages.__proto__] gives [Object.prototype]; the assignment of the
    resulting string goes to the inherited setter, which ignores a value
    that is neither an object nor [null], so no property is created. *)
Definition count_language (languages : gmap string tally) (rel : string)
    : gmap string tally :=
  let ext := extension rel in
  if falsy ext then languages
  else if String.eqb ext "__proto__" then languages
  else
    let next :=
      match languages !! ext with
      | Some (Count n) => Count (n + 1)
      | Some (Text s) => if falsy s then Count 1 else Text (s ++ "1")
      | None =>
          if String.eqb ext "constructor" then Text (Object_source ++ "1")
          else Count 1
      end in
    <[ ext := next ]> languages.

(** The loop of [scanRepo] over the paths the glob returns; [None] when
    [hashFileFull] throws, which nothing in [scanRepo] catches. *)
Fixpoint scan_loop (root : string) (maxFileKB : Z) (relPaths : list string)
    (files : list File.t) (languages : gmap string tally)
    : option (list File.t * gmap string tally) :=
  match relPaths with
  | [] => Some (files, languages)
  | rel :: rest =>
      let full := path_join root rel in
      match statSync full with
      | None => scan_loop root maxFileKB rest files languages
      | Some size =>
          let sizeKB := - (- size / 1024) in
          if sizeKB >? maxFileKB
          then scan_loop root maxFileKB rest files languages
          else
            match hashFileFull full with
            | None => None
            | Some hash =>
                scan_loop root maxFileKB rest
                  (files ++ [ File.mk rel sizeKB hash ])%list
                  (count_language languages rel)
            end
      end
  end.

(** [scanRepo], given what the glob returns for its patterns. *)
Definition scanRepo (root : string) (relPaths : list string) (maxFileKB : Z)
    : option (list File.t * gmap string tally) :=
  scan_loop root maxFileKB relPaths [] ∅.

End Scan.

(** ** The delta of a scan (src/read.js, step 3 of [readCommand]) *)

(** [new Map(files.map(f => [f.path, f.hash]))]: of two files with the same
    path, the later one wins. *)
Definition hash_map (files : list File.t) : gmap string string :=
  foldl (fun m f => <[ File.path f := File.hash f ]> m) ∅ files.

(** [{ addedFiles, changedFiles, removedFiles }]. *)
Record Delta := {
  addedFiles : list File.t;
  changedFiles : list File.t;
  removedFiles : list string
}.

(** [for (const f of files) { if (!prevMap.has(f.path)) addedFiles.push(f);
    else if (prevMap.get(f.path) !== f.hash) changedFiles.push(f); }]. *)
Fixpoint diff_files (prevMap : gmap string string) (files : list File.t)
    (added changed : list File.t) : list File.t * list File.t :=
  match files with
  | [] => (added, changed)
  | f :: rest =>
      match prevMap !! File.path f with
      | None => diff_files prevMap rest (added ++ [ f ])%list changed
      | Some h =>
          if negb (String.eqb h (File.hash f))
          then diff_files prevMap rest added (changed ++ [ f ])%list
          else diff_files prevMap rest added changed
      end
  end.

(** [for (const pf of prevManifest.files_with_hashes)
    if (!currentMap.has(pf.path)) removedFiles.push(pf.path)]. *)
Fixpoint diff_removed (currentMap : gmap string string) (prev : list File.t)
    (removed : list string) : list string :=
  match prev with
  | [] => removed
  | pf :: rest =>
      match currentMap !! File.path pf with
      | None => diff_removed currentMap rest (removed ++ [ File.path pf ])%list
      | Some _ => diff_removed currentMap rest removed
      end
  end.

(** The deltas of a scan against [prevManifest?.files_with_hashes]; [None]
    is a manifest that is missing, does not parse or has no such field. *)
Definition diff (prev : option (list File.t)) (files : list File.t) : Delta :=
  let prevMap := hash_map (default [] prev) in
  let currentMap := hash_map files in
  let '(added, changed) := diff_files prevMap files [] [] in
  let removed :=
    match prev with
    | Some old => diff_removed currentMap old []
    | None => []
    end in
  {| addedFiles := added; changedFiles := changed; removedFiles := removed |}.

(** Steps 3 and 4 of [readCommand] on the index, given the files of the
    scan: the deltas, then pruning and embedding. *)
Definition refresh (env : Env) (root model : string)
    (prev : option (list File.t)) (files : list File.t) : M Z :=
  let d := diff prev files in
  update_index env root model (removedFiles d) (addedFiles d) (changedFiles d).

(** ** The repository root (src/read.js and src/chat.js, [findRepoRoot]) *)

Section RepoRoot.

(** [path.join], [path.dirname] and [fs.existsSync]. *)
Variable path_join : string -> string -> string.
Variable dirname : string -> string.
Variable existsSync : string -> bool.

(** The [while (true)] of [findRepoRoot], from the directory [dir], with a
    bound on the number of passes; [None] is running out of that bound. *)
Fixpoint findRepoRoot_from (fuel : nat) (cwd dir : string) : option string :=
  match fuel with
  | O => None
  | S fuel' =>
      if existsSync (path_join dir ".git") then Some dir
      else
        let parent := dirname dir in
        if String.eqb parent dir then Some cwd
        else findRepoRoot_from fuel' cwd parent
  end.

Definition findRepoRoot (fuel : nat) (cwd : string) : option string :=
  findRepoRoot_from fuel cwd cwd.

End RepoRoot.

(** ** The ignore list (src/scan.js, [buildIgnoreList]) *)

(** [cfgExclude] is [cfg?.paths?.exclude], [None] when there is none;
    [ignoreFile] is the content of the ignore file, [None] when it does not
    exist.  [filter(Boolean)] keeps the strings that are not empty. *)
Definition buildIgnoreList (cfgExclude : option (list string))
    (ignoreFile : option string) : list string :=
  let extraIgnores :=
    match ignoreFile with
    | Some content =>
        filter (fun s => falsy s = false) (map trim (Js.split_lines content))
    | None => []
    end in
  (default [] cfgExclude ++ extraIgnores)%list.

(** ** The preflight (src/ollama.js, [checkOllama]) *)

(** A value that [JSON.parse] returns. *)
#[warnings="-register-all"] Inductive json :=
| JNull
| JBool (b : bool)
| JNumber (n : Q)
| JString (s : string)
| JArray (items : list json)
| JObject (fields : list (string * json)).

(** What [GET /api/tags] gives: [Tags data] is an answer that is [ok] and
    whose body parses, to [data]. *)
Inductive tags_response :=
| TagsUnreachable
| TagsNotOk
| TagsBadJson
| Tags (data : json).

(** What [checkOllama] throws: its own two errors, and the [TypeError] of
    reading a property of [null], which it does outside its [try]. *)
Inductive preflight_error :=
| NotRunning
| TypeError
| MissingModels (message : string).

(** [v[key]] for a key that no prototype defines, as [models] and [name]:
    the own property of an object, which is the last field of that name in
    the text; [None] is [undefined], also for a number, a string, a boolean
    or an array; reading a property of [null] throws. *)
Definition property (key : string) (v : json) : preflight_error + option json :=
  match v with
  | JNull => inl TypeError
  | JObject fields =>
      inr (snd <$> last (filter (fun kv => fst kv = key) fields))
  | _ => inr None
  end.

(** [models.map(m => m.name)]. *)
Fixpoint names (models : list json) : preflight_error + list (option json) :=
  match models with
  | [] => inr []
  | m :: rest =>
      match property "name" m with
      | inl e => inl e
      | inr name =>
          match names rest with
          | inl e => inl e
          | inr installed => inr (name :: installed)
          end
      end
  end.

(** [installed.includes(m)] for a string [m]: some element is a string with
    the same characters. *)
Definition includes (installed : list (option json)) (m : string) : bool :=
  existsb (fun v => match v with
                    | Some (JString s) => String.eqb s m
                    | _ => false
                    end) installed.

Definition join_with (sep : string) (parts : list string) : string :=
  String.concat sep parts.

Definition missing_message (missing : list string) : string :=
  "Missing model(s): " ++ join_with ", " missing ++ nl
  ++ "Run:" ++ nl ++ "  "
  ++ join_with (nl ++ "  ") (map (fun m => "ollama pull " ++ m) missing).

Definition checkOllama (res : tags_response) (requiredModels : list string)
    : preflight_error + bool :=
  match res with
  | Tags data =>
      match property "models" data with
      | inl e => inl e
      | inr models =>
          match match models with
                | Some (JArray ms) => names ms
                | _ => inr []
                end with
          | inl e => inl e
          | inr installed =>
              let missing :=
                filter (fun m => includes installed m = false) requiredModels in
              if Js.len missing =? 0 then inr true
              else inl (MissingModels (missing_message missing))
          end
      end
  | _ => inl NotRunning
  end.

(** * What the properties are about *)

(** ** Ranges of lines *)

(** The lines of an array from index [s] to index [e], both included. *)
Definition lines_between (lines : list string) (s e : Z) : list string :=
  take (Z.to_nat (e - s + 1)) (drop (Z.to_nat s) lines).

(** Line [i] lies in the range of one of the chunks. *)
Definition covered (chunks : list Chunk.t) (i : Z) : Prop :=
  exists c, c ∈ chunks /\ Chunk.start c <= i <= Chunk.end_ c.

(** A line fits the budget on its own, with its separator. *)
Definition fits (maxC : Z) (l : string) : Prop := Js.strlen l + 1 <= maxC.

(** The chunk one pass pushes for the window [[start, e)]. *)
Definition window (lines : list string) (start e : Z) : Chunk.t :=
  Chunk.mk (Js.join_lines (lines_between lines start (e - 1))) start (e - 1).

(** What holds of every chunk the loop pushes: its range is a non-empty
    range of lines of the file, its text is those lines joined by line
    feeds, and each of its lines fits the budget on its own. *)
Record good_chunk (lines : list string) (maxC : Z) (c : Chunk.t) : Prop := {
  good_range : 0 <= Chunk.start c <= Chunk.end_ c /\ Chunk.end_ c < Js.len lines;
  good_text :
    Chunk.text c = Js.join_lines (lines_between lines (Chunk.start c) (Chunk.end_ c));
  good_fit : forall (i : nat) l,
    lines !! i = Some l ->
    Chunk.start c <= Z.of_nat i <= Chunk.end_ c -> fits maxC l
}.

(** The lines before the window start that fit the budget are covered. *)
Definition covered_below (lines : list string) (maxC : Z) (start : Z)
    (chunks : list Chunk.t) : Prop :=
  0 <= start
  /\ forall (i : nat) l, lines !! i = Some l -> fits maxC l ->
       Z.of_nat i < start -> covered chunks (Z.of_nat i).

(** The strict increase of the window start, as a property of one pass
    through the loop body. *)
Definition moves_forward (lines : list string) (maxC ovl : Z)
    (start : Z) (chunks : list Chunk.t) : Prop :=
  match iteration lines maxC ovl start chunks with
  | Next start' _ => start < start'
  | Break _ => True
  end.

(** The characters of some lines, one separator counted for each: what
    [size] adds up in the inner loop. *)
Fixpoint total_size (ls : list string) : Z :=
  match ls with
  | [] => 0
  | l :: ls' => Js.strlen l + 1 + total_size ls'
  end.

(** A text with every carriage return that stands right before a line feed
    left out. *)
Fixpoint normalize_newlines (text : string) : string :=
  match text with
  | EmptyString => EmptyString
  | String c rest =>
      if Ascii.eqb c Js.CR && Js.starts_with_LF rest then normalize_newlines rest
      else String c (normalize_newlines rest)
  end.

(** The characters of a string. *)
Fixpoint chars (s : string) : list ascii :=
  match s with
  | EmptyString => []
  | String c rest => c :: chars rest
  end.

(** How a chunk [c'] stands to the chunk [c] pushed before it: it starts on
    a later line, and at most two lines before the last line of [c]. *)
Definition follows (c c' : Chunk.t) : Prop :=
  Chunk.start c < Chunk.start c' /\ Chunk.end_ c - 2 <= Chunk.start c'.

(** Each chunk of the list stands to the next one as [follows] says. *)
Definition in_file_order (chunks : list Chunk.t) : Prop :=
  forall (i : nat) c c',
    chunks !! i = Some c -> chunks !! S i = Some c' -> follows c c'.

(** The directory holds a [.git]. *)
Definition has_git (path_join : string -> string -> string)
    (existsSync : string -> bool) (dir : string) : Prop :=
  existsSync (path_join dir ".git") = true.

(** The chunks so far are in file order, and the next window starts after
    the start of the last of them, at most two lines before its end. *)
Definition ordered_upto (start : Z) (chunks : list Chunk.t) : Prop :=
  0 <= start
  /\ in_file_order chunks
  /\ forall c, last chunks = Some c ->
       Chunk.start c < start /\ Chunk.end_ c - 2 <= start.

(** The size in kilobytes of a path of the glob that the scan keeps: one
    that can be stat'ed and is within the cap. *)
Definition kept (path_join : string -> string -> string)
    (statSync : string -> option Z) (root : string) (maxFileKB : Z)
    (rel : string) : option Z :=
  match statSync (path_join root rel) with
  | None => None
  | Some size =>
      if - (- size / 1024) >? maxFileKB then None else Some (- (- size / 1024))
  end.

(** The record of one path of the glob, when the scan keeps it and its
    content can be read. *)
Definition scanned (path_join : string -> string -> string)
    (statSync : string -> option Z) (hashFileFull : string -> option string)
    (root : string) (maxFileKB : Z) (rel : string) : option File.t :=
  match kept path_join statSync root maxFileKB rel with
  | None => None
  | Some sizeKB =>
      match hashFileFull (path_join root rel) with
      | None => None
      | Some hash => Some (File.mk rel sizeKB hash)
      end
  end.

(** Every path that the scan keeps can be read. *)
Definition kept_are_readable (path_join : string -> string -> string)
    (statSync : string -> option Z) (hashFileFull : string -> option string)
    (root : string) (maxFileKB : Z) (relPaths : list string) : Prop :=
  forall rel size,
    rel ∈ relPaths ->
    statSync (path_join root rel) = Some size -> size <= 1024 * maxFileKB ->
    is_Some (hashFileFull (path_join root rel)).

(** ** What diversification means *)

(** Descending order of scores. *)
Definition desc (a b : Scored.t) : Prop :=
  (Scored.score b <= Scored.score a)%Q.

(** The number of distinct files among the scored chunks. *)
Definition n_files (scored : list Scored.t) : nat :=
  length (remove_dups (map Scored.path scored)).

(** [r] is a scored chunk that no chunk of the same file outscores. *)
Definition best_of_its_file (scored : list Scored.t) (r : Scored.t) : Prop :=
  r ∈ scored
  /\ forall s, s ∈ scored -> Scored.path s = Scored.path r -> desc r s.

(** [heads] are representatives of distinct files, each the best chunk of
    its file, in descending order of score, and no chunk of a file they leave
    out scores higher than one of them. *)
Record diversified (scored heads : list Scored.t) : Prop := {
  one_per_file : NoDup (map Scored.path heads);
  representatives : Forall (best_of_its_file scored) heads;
  descending : StronglySorted desc heads;
  left_out_rank_below : forall s r,
    s ∈ scored -> Scored.path s ∉ map Scored.path heads -> r ∈ heads ->
    desc r s
}.

(** The chunks that [pick_best] takes from the groups, one for each. *)
Definition reps (byFile : list (string * list Scored.t)) : list Scored.t :=
  flat_map (fun g => take 1 (sort_desc (snd g))) byFile.

(** The paths of the groups and the first chunk of each group. *)
Definition keys (byFile : list (string * list Scored.t)) : list string :=
  map fst byFile.
Definition firsts (byFile : list (string * list Scored.t)) : list Scored.t :=
  flat_map (fun g => take 1 (snd g)) byFile.

(** [byFile] groups the chunks [seen] so far: one group for each path, in
    the order in which the paths were first seen, each group holding the
    chunks of its path in the order in which they were seen. *)
Record grouped (seen : list Scored.t) (byFile : list (string * list Scored.t))
    : Prop := {
  grouped_keys : NoDup (keys byFile);
  grouped_groups : forall p arr, (p, arr) ∈ byFile ->
    arr <> [] /\ arr = filter (fun s => Scored.path s = p) seen;
  grouped_all : forall s, s ∈ seen -> Scored.path s ∈ keys byFile;
  grouped_firsts : firsts byFile `sublist_of` seen
}.

(** [n] times the character [1]. *)
Fixpoint ones (n : nat) : string :=
  match n with
  | O => EmptyString
  | S n' => String "1" (ones n')
  end.

(** What the tally holds under the key [ext] when [n] files have that
    extension: nothing for no file, for the empty extension and for
    [__proto__]; for [constructor] the source text of [Object] followed by
    one [1] for each file; the number of files for every other key. *)
Definition tally_of (Object_source ext : string) (n : nat) : option tally :=
  if falsy ext || String.eqb ext "__proto__" || Nat.eqb n 0 then None
  else if String.eqb ext "constructor"
       then Some (Text (Object_source ++ ones n))
       else Some (Count (Z.of_nat n)).

(** The tally agrees with the files, under every key. *)
Definition tallies (Object_source : string) (files : list File.t)
    (languages : gmap string tally) : Prop :=
  forall ext,
    languages !! ext
    = tally_of Object_source ext
        (length (filter (fun f => extension (File.path f) = ext) files)).

(** ** The answer of the service *)

(** The body can be searched for models: it is not [null], and when its
    [models] is an array, no element of that array is [null]. *)
Definition searchable (data : json) : Prop :=
  data <> JNull
  /\ forall ms, property "models" data = inr (Some (JArray ms)) -> JNull ∉ ms.

(** The model [m] is installed: [data.models] is an array, and one of its
    elements has the string [m] as its [name]. *)
Definition installed_in (data : json) (m : string) : bool :=
  match property "models" data with
  | inr (Some (JArray ms)) =>
      existsb (fun o => match property "name" o with
                        | inr (Some (JString s)) => String.eqb s m
                        | _ => false
                        end) ms
  | _ => false
  end.

(** ** The outcome of one file *)

Section Outcomes.

Variable env : Env.

(** Reading the file throws. *)
Definition unreadable (root : string) (file : File.t) : Prop :=
  readFileSync env (path_join env root (File.path file)) = None.

(** The file is read and is not blank, and the request for one of its
    chunks fails. *)
Definition embedding_fails (root : string) (file : File.t) (model : string)
    : Prop :=
  exists rawText c e,
    readFileSync env (path_join env root (File.path file)) = Some rawText
    /\ falsy (trim (sanitizeText env rawText)) = false
    /\ c ∈ chunkFileContent (sanitizeText env rawText) no_options
    /\ embedText env model (Chunk.text c) = inl e.

(** The entries the insertion loop of [embedFile] pushes. *)
Fixpoint new_entries (file : File.t) (vectors : list vector) (i : Z)
    (rest : list Chunk.t) : list Entry.t :=
  match rest with
  | [] => []
  | c :: rest' =>
      {| Entry.path := File.path file;
         Entry.hash := File.hash file;
         Entry.chunkId := i;
         Entry.start := Chunk.start c;
         Entry.end_ := Chunk.end_ c;
         Entry.vector := vectors !! Z.to_nat i;
         Entry.updated_at := Some (now env i) |}
      :: new_entries file vectors (i + 1) rest'
  end.

End Outcomes.

(** The file is read, is not blank, has the chunks [chunks], and the
    service embeds them as [vectors]. *)
Definition embeds (env : Env) (root model : string) (file : File.t)
    (chunks : list Chunk.t) (vectors : list vector) : Prop :=
  exists rawText,
    readFileSync env (path_join env root (File.path file)) = Some rawText
    /\ falsy (trim (sanitizeText env rawText)) = false
    /\ chunks = chunkFileContent (sanitizeText env rawText) no_options
    /\ chunks <> []
    /\ embedTexts env model (map Chunk.text chunks) = inr vectors.

(** The entry [e] is the chunk [c] with its embedding [v]. *)
Definition entry_of_chunk (e : Entry.t) (c : Chunk.t) (v : vector) : Prop :=
  Entry.start e = Chunk.start c
  /\ Entry.end_ e = Chunk.end_ c
  /\ Entry.vector e = Some v.

(** The entries of the index for one path. *)
Definition entries_of (pathStr : string) (index : Index.t) : list Entry.t :=
  filter (fun c => Entry.path c = pathStr) (Index.chunks index).

(** ** Texts used as examples *)

Fixpoint repeat_char (c : ascii) (n : nat) : string :=
  match n with
  | O => EmptyString
  | S n' => String c (repeat_char c n')
  end.

(** One line of 2001 characters, with no line break. *)
Definition long_line : string := repeat_char "x" 2001.

(** Five lines, the fourth longer than the budget of [tight]. *)
Definition five_lines : string :=
  "ab" ++ nl ++ "cd" ++ nl ++ "e" ++ nl ++ "fghijk" ++ nl ++ "z".
Definition tight : options := {| maxChars := Some 6; overlap := Some 80 |}.

(** Three lines of one character. *)
Definition three_lines : string := "a" ++ nl ++ "b" ++ nl ++ "c".

(** One line for each window, and a negative overlap. *)
Definition backwards : options :=
  {| maxChars := Some 2; overlap := Some (-80) |}.

(** Every line of the text lies in the range of some chunk. *)
Definition covers_every_line (text : string) (o : options) : Prop :=
  forall i : nat, (i < length (Js.split_lines text))%nat ->
    covered (chunkFileContent text o) (Z.of_nat i).

(** ** Environments used as examples *)

Definition join_slash (a b : string) : string := a ++ "/" ++ b.

(** Every file reads as [content], and the service answers [reply]. *)
Definition demo_env (content : option string) (reply : response) : Env := {|
  path_join := join_slash;
  readFileSync := fun _ => content;
  sanitizeText := fun text => text;
  embeddings_api := fun _ _ => reply;
  now := fun _ => "2025-01-01T00:00:00.000Z"
|}.

(** Every file has the two lines [a] and [b]; the service answers. *)
Definition two_line_env : Env :=
  demo_env (Some ("a" ++ nl ++ "b")) (Json (Some [ 1%Q ])).

(** The same files, with the service answering 500 to every request. *)
Definition down_env : Env :=
  demo_env (Some ("a" ++ nl ++ "b")) (NotOk 500 "down").

(** Every file has the three lines [a], [b] and [c]. *)
Definition three_line_env : Env :=
  demo_env (Some three_lines) (Json (Some [ 1%Q ])).

(** The source text of the function [Object] in Node. *)
Definition node_Object : string := "function Object() { [native code] }".

(** A scan in which every file has 100 bytes and can be read, except
    [repo/locked], which can be stat'ed only. *)
Definition demo_hash (full : string) : option string :=
  if String.eqb full "repo/locked" then None else Some "h".
Definition demo_scan (relPaths : list string)
    : option (list File.t * gmap string tally) :=
  scanRepo join_slash (fun _ => Some 100) demo_hash node_Object "repo"
    relPaths 256.

(** Two chunks of [src/a.js] scoring 0.9 and 0.85 and one chunk of
    [src/b.js] scoring 0.95. *)
Definition chunk_a1 : Scored.t :=
  Scored.mk (9 # 10) (Entry.mk "src/a.js" "h1" 0 0 9 (Some [ 1%Q ]) None).
Definition chunk_a2 : Scored.t :=
  Scored.mk (17 # 20) (Entry.mk "src/a.js" "h1" 1 8 12 (Some [ 1%Q ]) None).
Definition chunk_b : Scored.t :=
  Scored.mk (19 # 20) (Entry.mk "src/b.js" "h7" 0 0 3 (Some [ 1%Q ]) None).

(** The files of a previous manifest, and a scan in which [a.js] is as it
    was, [b.js] has another hash and [c.js] is new. *)
Definition two_files : list File.t :=
  [ File.mk "a.js" 1 "h1"; File.mk "b.js" 1 "h2" ].
Definition rescan : list File.t :=
  [ File.mk "a.js" 1 "h1"; File.mk "b.js" 1 "h9"; File.mk "c.js" 2 "h3" ].

(** An index with one entry of [a.js] and one of [b.js]. *)
Definition b_index : Index.t :=
  Index.mk 1
    [ Entry.mk "a.js" "h1" 0 0 1 (Some [ 1%Q ]) None;
      Entry.mk "b.js" "h2" 0 0 4 (Some [ 1%Q ]) None ].

(** A chunk of [src/c.js] scoring 0.7. *)
Definition chunk_c : Scored.t :=
  Scored.mk (7 # 10) (Entry.mk "src/c.js" "h5" 0 0 3 (Some [ 1%Q ]) None).

(** A file system of three directories, [/w/repo/src] in [/w/repo] in [/w],
    which is its own parent, with a [.git] in [/w/repo]. *)
Definition parent_of (dir : string) : string :=
  if String.eqb dir "/w/repo/src" then "/w/repo"
  else if String.eqb dir "/w/repo" then "/w"
  else dir.
Definition git_in_repo (p : string) : bool := String.eqb p "/w/repo/.git".

Definition demo_file : File.t := File.mk "src/a.js" 1 "h2".

(** A body of [GET /api/tags] with one model, and one entry without a
    name. *)
Definition tags_body : json :=
  JObject [ ("models",
             JArray [ JObject [ ("name", JString "gemma3:latest");
                                ("size", JNumber 3) ];
                      JString "nomic-embed-text:latest" ]) ].

(** An index holding two entries of an older version of [demo_file] and one
    entry of another file. *)
Definition stale_index : Index.t :=
  Index.mk 1
    [ Entry.mk "src/a.js" "h1" 0 0 9 (Some [ 1%Q ]) None;
      Entry.mk "src/b.js" "h7" 0 0 3 (Some [ 1%Q ]) None;
      Entry.mk "src/a.js" "h1" 1 8 12 (Some [ 1%Q ]) None ].

(** * Properties *)

(** ** Termination of the chunker *)

Section ChunkerTermination.

Variables (lines : list string) (maxC ovl : Z).

(** The assignment [start = Math.max(start + 1, nextStart)] moves the
    window start forward, whatever [nextStart] is. *)
Lemma iteration_progress start chunks start' chunks' :
  iteration lines maxC ovl start chunks = Next start' chunks' ->
  start < start'.
Proof.
  unfold iteration.
  destruct (_ >=? _); [discriminate|].
  intros [= <- _]. lia.
Qed.

(** One test of the loop condition per remaining line, and one more. *)
Lemma chunk_loop_enough fuel : forall start chunks,
  Z.max 0 (Js.len lines - start) < Z.of_nat fuel ->
  is_Some (chunk_loop fuel lines maxC ovl start chunks).
Proof.
  induction fuel as [|fuel IH]; intros start chunks Hfuel; [lia|].
  cbn [chunk_loop].
  destruct (Z.ltb_spec start (Js.len lines)) as [Hlt|Hge]; [|by eexists].
  destruct (iteration lines maxC ovl start chunks) as [cs|start' cs] eqn:Hit;
    [by eexists|].
  apply iteration_progress in Hit.
  apply IH. lia.
Qed.

(** Fuel beyond what the loop uses does not change its result. *)
Lemma chunk_loop_more fuel : forall extra start chunks r,
  chunk_loop fuel lines maxC ovl start chunks = Some r ->
  chunk_loop (fuel + extra) lines maxC ovl start chunks = Some r.
Proof.
  induction fuel as [|fuel IH]; intros extra start chunks r; [discriminate|].
  cbn [chunk_loop Nat.add].
  destruct (start <? Js.len lines); [|done].
  destruct (iteration lines maxC ovl start chunks); [done|].
  apply IH.
Qed.

End ChunkerTermination.

(** The bound in [chunkFileContent] is enough: its result is the result of
    the loop. *)
Lemma chunkFileContent_run (text : string) (o : options) :
  chunkFileContent_fuel (S (length (Js.split_lines text))) text o
  = Some (chunkFileContent text o).
Proof.
  unfold chunkFileContent, chunkFileContent_fuel.
  destruct (chunk_loop_enough (Js.split_lines text) (maxChars_of o)
              (overlap_of o) (S (length (Js.split_lines text))) 0 [])
    as [r Hr]; [unfold Js.len; lia|].
  by rewrite Hr.
Qed.

(** C1.  For every text and every [maxChars]/[overlap] configuration the
    loop of [chunkFileContent] terminates: each pass that does not leave the
    loop strictly increases the window start, and once the loop may test its
    condition one more time than the text has lines it returns a result,
    the same whatever further allowance it is given. *)
Theorem chunkFileContent_terminates (text : string) (o : options) :
  (forall start chunks,
      moves_forward (Js.split_lines text) (maxChars_of o) (overlap_of o)
        start chunks)
  /\ (forall extra : nat,
        chunkFileContent_fuel (S (length (Js.split_lines text)) + extra) text o
        = Some (chunkFileContent text o)).
Proof.
  split.
  - intros start chunks. unfold moves_forward.
    destruct (iteration _ _ _ start chunks) eqn:Hit; [done|].
    by apply iteration_progress in Hit.
  - intros extra. apply chunk_loop_more, chunkFileContent_run.
Qed.

(** ** What the chunker produces *)

Section PackFacts.

Variable maxC : Z.

Lemma pack_bounds rest : forall e size,
  e <= pack maxC rest e size <= e + Js.len rest.
Proof.
  unfold Js.len.
  induction rest as [|l rest IH]; intros e size; cbn [pack length]; [lia|].
  destruct (_ <=? _); [|lia].
  specialize (IH (e + 1) (size + Js.strlen l + 1)). lia.
Qed.

(** Every line the inner loop takes fits the budget on its own. *)
Lemma pack_taken_fit rest : forall e size (j : nat) l,
  0 <= size ->
  rest !! j = Some l ->
  Z.of_nat j < pack maxC rest e size - e ->
  fits maxC l.
Proof.
  induction rest as [|l0 rest IH]; intros e size j l Hsize Hj Hlt;
    cbn [pack] in Hlt; [lia|].
  destruct (Z.leb_spec (size + Js.strlen l0 + 1) maxC) as [Hle|Hgt]; [|lia].
  destruct j as [|j]; cbn in Hj.
  - injection Hj as <-. unfold fits. lia.
  - apply (IH (e + 1) (size + Js.strlen l0 + 1) j l); [unfold Js.strlen; lia|done|lia].
Qed.

(** The first line is taken exactly when it fits an empty window. *)
Lemma pack_first l rest e :
  (fits maxC l -> e < pack maxC (l :: rest) e 0)
  /\ (~ fits maxC l -> pack maxC (l :: rest) e 0 = e).
Proof.
  unfold fits. cbn [pack].
  destruct (Z.leb_spec (0 + Js.strlen l + 1) maxC) as [Hle|Hgt]; split; try lia.
  intros _. pose proof (pack_bounds rest (e + 1) (0 + Js.strlen l + 1)). lia.
Qed.

End PackFacts.

Section IterationFacts.

Variables (lines : list string) (maxC ovl : Z).

Lemma slice_window (s e : Z) :
  0 <= s <= e -> e <= Js.len lines ->
  Js.slice lines s e = take (Z.to_nat (e - s)) (drop (Z.to_nat s) lines).
Proof.
  intros Hs He. unfold Js.slice, Js.rel_index.
  destruct (Z.ltb_spec s 0); [lia|]. destruct (Z.ltb_spec e 0); [lia|].
  by rewrite !Z.min_l by lia.
Qed.

Lemma len_slice_window (s e : Z) :
  0 <= s <= e -> e <= Js.len lines -> Js.len (Js.slice lines s e) = e - s.
Proof.
  intros Hs He. rewrite slice_window by done.
  unfold Js.len in *. rewrite length_take, length_drop. lia.
Qed.

(** One pass of the loop body, in terms of the end [e] of its window. *)
Lemma iteration_window start chunks :
  0 <= start < Js.len lines ->
  let e := pack maxC (drop (Z.to_nat start) lines) start 0 in
  start <= e <= Js.len lines
  /\ iteration lines maxC ovl start chunks =
     let chunks' := if e =? start then chunks
                    else (chunks ++ [ window lines start e ])%list in
     if e >=? Js.len lines then Break chunks'
     else Next (Z.max (start + 1) (Z.max (e - ovl / 80) (e - 3))) chunks'.
Proof.
  intros Hstart e.
  assert (He : start <= e <= Js.len lines).
  { pose proof (pack_bounds maxC (drop (Z.to_nat start) lines) start 0) as Hb.
    fold e in Hb. unfold Js.len in *. rewrite length_drop in Hb. lia. }
  split; [done|].
  unfold iteration. fold e. cbn zeta.
  rewrite len_slice_window by lia.
  destruct (Z.eqb_spec (e - start) 0) as [H0|Hn0];
    destruct (Z.eqb_spec e start) as [H1|Hn1]; try lia; [done|].
  rewrite slice_window by lia.
  unfold window, lines_between.
  rewrite Z.max_r by lia.
  by replace (e - 1 - start + 1) with (e - start) by lia.
Qed.

(** A rule for the outer loop: an invariant of its passes holds of the
    result. *)
Lemma chunk_loop_rule (I : Z -> list Chunk.t -> Prop) (R : list Chunk.t -> Prop) :
  (forall start chunks, I start chunks -> Js.len lines <= start -> R chunks) ->
  (forall start chunks cs, I start chunks -> start < Js.len lines ->
      iteration lines maxC ovl start chunks = Break cs -> R cs) ->
  (forall start chunks s' cs, I start chunks -> start < Js.len lines ->
      iteration lines maxC ovl start chunks = Next s' cs -> I s' cs) ->
  forall fuel start chunks r,
    I start chunks ->
    chunk_loop fuel lines maxC ovl start chunks = Some r -> R r.
Proof.
  intros Hexit Hbreak Hnext.
  induction fuel as [|fuel IH]; intros start chunks r HI; [discriminate|].
  cbn [chunk_loop].
  destruct (Z.ltb_spec start (Js.len lines)) as [Hlt|Hge].
  - destruct (iteration lines maxC ovl start chunks) as [cs|s' cs] eqn:Hit.
    + intros [= <-]. eauto.
    + apply IH. eauto.
  - intros [= <-]. eauto.
Qed.

End IterationFacts.

Section ChunkerInvariants.

Variables (lines : list string) (maxC ovl : Z).

Lemma window_good start :
  0 <= start ->
  let e := pack maxC (drop (Z.to_nat start) lines) start 0 in
  start < e <= Js.len lines ->
  good_chunk lines maxC (window lines start e).
Proof.
  intros Hstart e He. split; cbn.
  - lia.
  - done.
  - intros i l Hi Hrange.
    apply (pack_taken_fit maxC (drop (Z.to_nat start) lines) start 0
             (i - Z.to_nat start)%nat l); [lia| |fold e; lia].
    rewrite lookup_drop. by replace (Z.to_nat start + (i - Z.to_nat start))%nat
      with i by lia.
Qed.

Lemma iteration_good start chunks :
  0 <= start < Js.len lines ->
  Forall (good_chunk lines maxC) chunks ->
  match iteration lines maxC ovl start chunks with
  | Break cs => Forall (good_chunk lines maxC) cs
  | Next s' cs => 0 <= s' /\ Forall (good_chunk lines maxC) cs
  end.
Proof.
  intros Hstart Hgood.
  destruct (iteration_window lines maxC ovl start chunks Hstart) as [He ->].
  cbn zeta.
  set (e := pack maxC (drop (Z.to_nat start) lines) start 0) in *.
  assert (Hcs : Forall (good_chunk lines maxC)
            (if e =? start then chunks else (chunks ++ [window lines start e])%list)).
  { destruct (Z.eqb_spec e start); [done|].
    apply Forall_app; split; [done|].
    apply Forall_singleton, window_good; lia. }
  destruct (e >=? Js.len lines); [done|]. split; [lia|done].
Qed.

Lemma chunk_loop_good fuel start chunks r :
  0 <= start ->
  Forall (good_chunk lines maxC) chunks ->
  chunk_loop fuel lines maxC ovl start chunks = Some r ->
  Forall (good_chunk lines maxC) r.
Proof.
  intros Hstart Hgood.
  apply (chunk_loop_rule lines maxC ovl
           (fun s cs => 0 <= s /\ Forall (good_chunk lines maxC) cs)
           (Forall (good_chunk lines maxC))); [| | |done].
  - by intros s cs [_ H] _.
  - intros s cs cs' [Hs H] Hlt Hit.
    pose proof (iteration_good s cs (conj Hs Hlt) H) as Hg.
    by rewrite Hit in Hg.
  - intros s cs s' cs' [Hs H] Hlt Hit.
    pose proof (iteration_good s cs (conj Hs Hlt) H) as Hg.
    by rewrite Hit in Hg.
Qed.

End ChunkerInvariants.

Lemma chunkFileContent_good (text : string) (o : options) :
  Forall (good_chunk (Js.split_lines text) (maxChars_of o))
    (chunkFileContent text o).
Proof.
  eapply chunk_loop_good; [| |apply chunkFileContent_run]; [lia|constructor].
Qed.

(** C10.  Every chunk produced by [chunkFileContent] carries as its text the
    lines of the input from index [start] to index [end], both included,
    joined with a single line feed; the range is a range of lines of the
    input. *)
Theorem chunk_text_is_its_line_range (text : string) (o : options) (c : Chunk.t) :
  c ∈ chunkFileContent text o ->
  Chunk.text c
  = Js.join_lines (lines_between (Js.split_lines text) (Chunk.start c) (Chunk.end_ c))
  /\ 0 <= Chunk.start c <= Chunk.end_ c
  /\ Chunk.end_ c < Js.len (Js.split_lines text).
Proof.
  intros Hc.
  pose proof (chunkFileContent_good text o) as Hall.
  rewrite Forall_forall in Hall. destruct (Hall c Hc) as [[H1 H2] H3 _].
  auto.
Qed.

Section ChunkerCoverage.

Variables (lines : list string) (maxC ovl : Z).
Hypothesis ovl_nonneg : 0 <= ovl.

Lemma covered_app chunks c i :
  covered chunks i -> covered (chunks ++ [c]) i.
Proof.
  intros (c' & Hin & Hr). exists c'. split; [|done].
  apply elem_of_app. by left.
Qed.

Lemma covered_window chunks start e i :
  start <= i < e -> covered (chunks ++ [window lines start e]) i.
Proof.
  intros Hi. exists (window lines start e). split; [|cbn; lia].
  apply elem_of_app. right. by apply list_elem_of_singleton.
Qed.

(** A line that heads an empty window does not fit the budget. *)
Lemma empty_window_unfit start (i : nat) l :
  Z.of_nat i = start ->
  lines !! i = Some l ->
  pack maxC (drop (Z.to_nat start) lines) start 0 = start ->
  ~ fits maxC l.
Proof.
  intros <- Hl He Hfit. rewrite Nat2Z.id in He.
  destruct (drop i lines) as [|l0 rest] eqn:Hdrop.
  - apply (f_equal length) in Hdrop. rewrite length_drop in Hdrop. cbn in Hdrop.
    apply lookup_lt_Some in Hl. lia.
  - assert (l0 = l) as ->.
    { pose proof (lookup_drop lines i 0) as Hd.
      rewrite Hdrop, Nat.add_0_r, Hl in Hd. by injection Hd. }
    destruct (pack_first maxC l rest (Z.of_nat i)) as [Hlt _].
    specialize (Hlt Hfit). lia.
Qed.

Lemma iteration_covers start chunks :
  start < Js.len lines ->
  covered_below lines maxC start chunks ->
  match iteration lines maxC ovl start chunks with
  | Break cs => covered_below lines maxC (Js.len lines) cs
  | Next s' cs => covered_below lines maxC s' cs
  end.
Proof.
  intros Hlt [Hstart Hcov].
  destruct (iteration_window lines maxC ovl start chunks (conj Hstart Hlt))
    as [He ->].
  cbn zeta.
  set (e := pack maxC (drop (Z.to_nat start) lines) start 0) in *.
  assert (Hov : 0 <= ovl / 80) by (apply Z.div_pos; lia).
  destruct (Z.geb_spec e (Js.len lines)) as [Hend|Hmore];
    (split; [lia|]); intros i l Hl Hfit Hi;
    destruct (Z.eqb_spec e start) as [Heq|Hne].
  - apply Hcov with l; [done..|lia].
  - destruct (Z.lt_ge_cases (Z.of_nat i) start).
    + apply covered_app. by apply Hcov with l.
    + apply covered_window. lia.
  - destruct (Z.lt_ge_cases (Z.of_nat i) start); [by apply Hcov with l|].
    exfalso. apply (empty_window_unfit start i l); [lia|done|lia|done].
  - destruct (Z.lt_ge_cases (Z.of_nat i) start).
    + apply covered_app. by apply Hcov with l.
    + apply covered_window. lia.
Qed.

Lemma chunk_loop_covers fuel start chunks r :
  covered_below lines maxC start chunks ->
  chunk_loop fuel lines maxC ovl start chunks = Some r ->
  forall (i : nat) l, lines !! i = Some l -> fits maxC l ->
    covered r (Z.of_nat i).
Proof.
  apply (chunk_loop_rule lines maxC ovl (covered_below lines maxC)
           (fun r => forall (i : nat) l, lines !! i = Some l -> fits maxC l ->
                       covered r (Z.of_nat i))).
  - intros s cs [_ H] Hge i l Hl Hfit.
    apply H with l; [done..|]. apply lookup_lt_Some in Hl. unfold Js.len in Hge. lia.
  - intros s cs cs' Hinv Hlt Hit.
    pose proof (iteration_covers s cs Hlt Hinv) as H. rewrite Hit in H.
    destruct H as [_ H]. intros i l Hl Hfit. apply H with l; [done..|].
    apply lookup_lt_Some in Hl. unfold Js.len. lia.
  - intros s cs s' cs' Hinv Hlt Hit.
    pose proof (iteration_covers s cs Hlt Hinv) as H. by rewrite Hit in H.
Qed.

End ChunkerCoverage.

(** C2, as stated, fails: a single line longer than [maxChars] is put in no
    chunk, so line 0 of [long_line] is not covered and the line does not
    form a chunk of its own.  Coverage also fails when [overlap] is
    negative, where the next window starts after the end of the previous
    one: with [overlap = -80], line 1 of three short lines is skipped. *)
Lemma long_line_is_not_covered :
  ~ covers_every_line long_line no_options
  /\ chunkFileContent long_line no_options <> [ Chunk.mk long_line 0 0 ]
  /\ ~ covers_every_line three_lines backwards.
Proof.
  assert (Hnone : chunkFileContent long_line no_options = [])
    by (vm_compute; reflexivity).
  split; [|split].
  - intros Hall. destruct (Hall 0%nat) as (c & Hin & _).
    + vm_compute. lia.
    + rewrite Hnone in Hin. by apply elem_of_nil in Hin.
  - by rewrite Hnone.
  - intros Hall. destruct (Hall 1%nat) as (c & Hin & Hrange).
    + vm_compute. lia.
    + change (chunkFileContent three_lines backwards)
        with [ Chunk.mk "a" 0 0; Chunk.mk "c" 2 2 ] in Hin.
      apply elem_of_cons in Hin as [->|Hin]; [cbn in Hrange; lia|].
      apply list_elem_of_singleton in Hin as ->. cbn in Hrange. lia.
Qed.

(** C2, amended.  Every window produced by [chunkFileContent] is non-empty
    (a range of at least one line of the input) and made of whole lines;
    and when [overlap] is not negative, the ranges of the windows cover
    every line that fits the budget on its own, that is, whose length plus
    one separator is at most [maxChars]. *)
Theorem chunks_cover_the_lines_that_fit (text : string) (o : options) :
  (forall c, c ∈ chunkFileContent text o ->
     0 <= Chunk.start c <= Chunk.end_ c
     /\ Chunk.end_ c < Js.len (Js.split_lines text)
     /\ Chunk.text c
        = Js.join_lines
            (lines_between (Js.split_lines text) (Chunk.start c) (Chunk.end_ c)))
  /\ (0 <= overlap_of o ->
      forall (i : nat) l,
        Js.split_lines text !! i = Some l ->
        fits (maxChars_of o) l ->
        covered (chunkFileContent text o) (Z.of_nat i)).
Proof.
  split.
  - intros c Hc.
    pose proof (chunkFileContent_good text o) as Hall.
    rewrite Forall_forall in Hall. destruct (Hall c Hc) as [[H1 H2] H3 _].
    auto.
  - intros Hovl.
    apply (chunk_loop_covers (Js.split_lines text) (maxChars_of o)
             (overlap_of o) Hovl (S (length (Js.split_lines text))) 0 []).
    + split; [lia|]. intros i l _ _ Hi. lia.
    + apply chunkFileContent_run.
Qed.

Lemma chunks_cover_the_lines_that_fit_witness :
  (Chunk.mk ("cd" ++ nl ++ "e") 1 2 ∈ chunkFileContent five_lines tight
   /\ 0 <= 1 <= 2 /\ 2 < Js.len (Js.split_lines five_lines))
  /\ (0 <= overlap_of tight
      /\ Js.split_lines five_lines !! 4%nat = Some "z"
      /\ fits (maxChars_of tight) "z"
      /\ covered (chunkFileContent five_lines tight) 4).
Proof.
  assert (Hin : Chunk.mk ("cd" ++ nl ++ "e") 1 2 ∈ chunkFileContent five_lines tight).
  { vm_compute. do 2 constructor. }
  assert (Hovl : 0 <= overlap_of tight) by (vm_compute; discriminate).
  assert (Hl : Js.split_lines five_lines !! 4%nat = Some "z") by reflexivity.
  assert (Hfit : fits (maxChars_of tight) "z") by (vm_compute; discriminate).
  destruct (chunks_cover_the_lines_that_fit five_lines tight) as [Hne Hcov].
  split.
  - destruct (Hne _ Hin) as (H1 & H2 & _). auto.
  - repeat split; try done. exact (Hcov Hovl 4%nat "z" Hl Hfit).
Defined.

Lemma chunk_text_is_its_line_range_witness :
  Chunk.mk ("ab" ++ nl ++ "cd") 0 1 ∈ chunkFileContent five_lines tight
  /\ "ab" ++ nl ++ "cd"
     = Js.join_lines (lines_between (Js.split_lines five_lines) 0 1).
Proof.
  assert (Hin : Chunk.mk ("ab" ++ nl ++ "cd") 0 1 ∈ chunkFileContent five_lines tight).
  { vm_compute. constructor. }
  split; [exact Hin|].
  exact (proj1 (chunk_text_is_its_line_range five_lines tight _ Hin)).
Defined.

(** ** The empty text *)

(** C3, as stated, fails: the empty text splits into one empty line, which
    fits the default budget and becomes a chunk. *)
Lemma empty_text_is_chunked : chunkFileContent "" no_options <> [].
Proof. vm_compute. discriminate. Qed.

Lemma chunk_empty_text (o : options) :
  chunkFileContent "" o
  = if 1 <=? maxChars_of o then [ Chunk.mk "" 0 0 ] else [].
Proof.
  unfold chunkFileContent, chunkFileContent_fuel.
  generalize (maxChars_of o) as maxC, (overlap_of o) as ovl. intros maxC ovl.
  change (Js.split_lines "") with [ "" ].
  cbn [length chunk_loop]. change (0 <? Js.len [ "" ]) with true. cbv iota.
  unfold iteration. change (drop (Z.to_nat 0) [ "" ]) with [ "" ].
  cbn [pack]. change (0 + Js.strlen "" + 1) with 1.
  destruct (1 <=? maxC); cbn [pack].
  - reflexivity.
  - change (0 >=? Js.len [ "" ]) with false. cbv iota.
    change (Js.len (Js.slice [ "" ] 0 0) =? 0) with true. cbv iota.
    destruct (Z.ltb_spec (Z.max (0 + 1) (Z.max (0 - ovl / 80) (0 - 3)))
                (Js.len [ "" ])) as [Hlt|Hge]; [|reflexivity].
    change (Js.len [ "" ]) with 1 in Hlt. lia.
Qed.

Section EmptyFile.

Variable env : Env.

(** A file that is blank after sanitization is skipped before chunking. *)
Lemma embedFile_blank root file model rawText index :
  readFileSync env (path_join env root (File.path file)) = Some rawText ->
  trim (sanitizeText env rawText) = "" ->
  embedFile env root file model index = (index, inr 0).
Proof.
  intros Hread Hblank. unfold embedFile. by rewrite Hread, Hblank.
Qed.

End EmptyFile.

(** C3, amended.  [chunkFileContent] applied to the empty string returns one
    chunk, with the empty text and the range 0..0, as soon as [maxChars] is
    at least 1 (and no chunk below that); an empty file yields no chunks
    because [embedFile] returns [{ added: 0 }] before chunking, leaving the
    index as it is, when the sanitized text is blank. *)
Theorem empty_file_is_skipped_before_chunking
    (env : Env) (root : string) (file : File.t) (model : string)
    (index : Index.t) (o : options) (rawText : string) :
  readFileSync env (path_join env root (File.path file)) = Some rawText ->
  trim (sanitizeText env rawText) = "" ->
  chunkFileContent "" o = (if 1 <=? maxChars_of o then [ Chunk.mk "" 0 0 ] else [])
  /\ chunkFileContent "" no_options = [ Chunk.mk "" 0 0 ]
  /\ embedFile env root file model index = (index, inr 0).
Proof.
  intros Hread Hblank. split; [apply chunk_empty_text|].
  split; [apply (chunk_empty_text no_options)|].
  by apply embedFile_blank with rawText.
Qed.

Lemma empty_file_is_skipped_before_chunking_witness :
  chunkFileContent "" tight = [ Chunk.mk "" 0 0 ]
  /\ embedFile (demo_env (Some "") (Json None)) "repo" demo_file "m" stale_index
     = (stale_index, inr 0).
Proof.
  destruct (empty_file_is_skipped_before_chunking
              (demo_env (Some "") (Json None)) "repo" demo_file "m"
              stale_index tight "" eq_refl eq_refl) as (H1 & _ & H2).
  split; [exact H1|exact H2].
Defined.

(** ** Lists *)

Lemma filter_all {A} (P : A -> Prop) `{!forall x, Decision (P x)} (l : list A) :
  Forall P l -> filter P l = l.
Proof.
  induction 1 as [|x l Hx _ IH]; [done|].
  by rewrite filter_cons_True, IH.
Qed.

Lemma filter_none {A} (P : A -> Prop) `{!forall x, Decision (P x)} (l : list A) :
  Forall (fun x => ~ P x) l -> filter P l = [].
Proof.
  induction 1 as [|x l Hx _ IH]; [done|].
  by rewrite filter_cons_False, IH.
Qed.


(** ** The upsert of one file *)

Section Upsert.

Variable env : Env.

Lemma insert_chunks_run file vectors rest : forall i index,
  insert_chunks env file vectors i rest index
  = (Index.mk (Index.version index)
       (Index.chunks index ++ new_entries env file vectors i rest)%list,
     inr tt).
Proof.
  induction rest as [|c rest IH]; intros i [v cs]; cbn.
  - by rewrite app_nil_r.
  - unfold bind, modify. rewrite IH. cbn. by rewrite <- app_assoc.
Qed.

(** [embedFile], case by case. *)
Lemma embedFile_cases root file model index :
  embedFile env root file model index =
  match readFileSync env (path_join env root (File.path file)) with
  | None => (index, inr 0)
  | Some rawText =>
      let text := sanitizeText env rawText in
      if falsy (trim text) then (index, inr 0)
      else
        let chunks := chunkFileContent text no_options in
        if Js.len chunks =? 0 then (index, inr 0)
        else
          match embedTexts env model (map Chunk.text chunks) with
          | inl e => (index, inl e)
          | inr vectors =>
              (Index.mk (Index.version index)
                 (filter (fun c => Entry.path c ≠ File.path file)
                    (Index.chunks index)
                  ++ new_entries env file vectors 0 chunks)%list,
               inr (Js.len chunks))
          end
  end.
Proof.
  unfold embedFile.
  destruct (readFileSync env _) as [rawText|]; [|done]. cbn zeta.
  destruct (falsy _); [done|].
  destruct (_ =? 0); [done|].
  unfold bind, lift, modify.
  destruct (embedTexts env model _) as [e|vectors]; [done|].
  by rewrite insert_chunks_run.
Qed.

Lemma new_entries_chunkId file vectors rest : forall i,
  map Entry.chunkId (new_entries env file vectors i rest)
  = seqZ i (Js.len rest).
Proof.
  unfold Js.len.
  induction rest as [|c rest IH]; intros i; cbn [new_entries map length].
  - by rewrite seqZ_nil.
  - rewrite seqZ_cons by lia. cbn. f_equal.
    rewrite IH. f_equal; lia.
Qed.

Lemma new_entries_of_file file vectors rest : forall i,
  Forall (fun c => Entry.path c = File.path file
                   /\ Entry.hash c = File.hash file)
    (new_entries env file vectors i rest).
Proof.
  induction rest as [|c rest IH]; intros i; cbn; constructor; auto.
Qed.

(** The entries of a path once its fresh set is inserted. *)
Lemma entries_after_upsert file vectors chunks (old : list Entry.t) v :
  entries_of (File.path file)
    (Index.mk v
       (filter (fun c => Entry.path c ≠ File.path file) old
        ++ new_entries env file vectors 0 chunks)%list)
  = new_entries env file vectors 0 chunks.
Proof.
  unfold entries_of. cbn. rewrite filter_app.
  rewrite filter_none, filter_all; [done| |].
  - eapply Forall_impl; [apply new_entries_of_file|]. by intros c [H _].
  - apply Forall_forall. intros c Hc.
    apply list_elem_of_filter in Hc as [Hc _]. done.
Qed.

End Upsert.




(** ** Failures in the indexing loop *)

Section IndexingLoop.

Variable env : Env.
Variables root model : string.

Lemma embedTexts_fails texts t e :
  t ∈ texts -> embedText env model t = inl e ->
  exists e', embedTexts env model texts = inl e'.
Proof.
  intros Hin He. induction texts as [|t0 texts IH]; [by apply elem_of_nil in Hin|].
  cbn [embedTexts].
  apply elem_of_cons in Hin as [<-|Hin].
  - rewrite He. eauto.
  - destruct (embedText env model t0); [eauto|].
    destruct (IH Hin) as [e' ->]. eauto.
Qed.

(** No partial upsert: when a request fails, [embedFile] throws and the
    index is the one it was given. *)
Lemma embedFile_fails file index :
  embedding_fails env root file model ->
  exists e, embedFile env root file model index = (index, inl e).
Proof.
  intros (rawText & c & e & Hread & Hblank & Hc & He).
  rewrite embedFile_cases, Hread. cbn zeta. rewrite Hblank.
  destruct (Z.eqb_spec (Js.len (chunkFileContent (sanitizeText env rawText)
                                  no_options)) 0) as [H0|_].
  - destruct (chunkFileContent _ _); [by apply elem_of_nil in Hc|].
    unfold Js.len in H0. cbn in H0. lia.
  - destruct (embedTexts_fails (map Chunk.text (chunkFileContent
                (sanitizeText env rawText) no_options)) (Chunk.text c) e)
      as [e' ->]; [|done|eauto].
    apply list_elem_of_fmap. eauto.
Qed.

Lemma embedFile_unreadable file index :
  unreadable env root file ->
  embedFile env root file model index = (index, inr 0).
Proof. intros Hread. by rewrite embedFile_cases, Hread. Qed.

(** The loop never throws. *)
Lemma process_files_returns toProcess : forall total index,
  exists index' total',
    process_files env root model toProcess total index = (index', inr total').
Proof.
  induction toProcess as [|f rest IH]; intros total index; cbn.
  - by exists index, total.
  - unfold bind, try_catch, ret.
    destruct (embedFile env root f model index) as [index1 [e|added]]; apply IH.
Qed.

(** A file that fails is as good as absent from [toProcess]. *)
Lemma process_files_skips f rest total index :
  unreadable env root f \/ embedding_fails env root f model ->
  process_files env root model (f :: rest) total index
  = process_files env root model rest total index.
Proof.
  intros [Hread|Hfail]; cbn [process_files]; unfold bind, try_catch, ret.
  - rewrite (embedFile_unreadable f index Hread). by rewrite Z.add_0_r.
  - by destruct (embedFile_fails f index Hfail) as [e ->].
Qed.

Lemma process_files_app pre post : forall total index,
  process_files env root model (pre ++ post) total index
  = match process_files env root model pre total index with
    | (index', inr total') => process_files env root model post total' index'
    | (index', inl e) => (index', inl e)
    end.
Proof.
  induction pre as [|f pre IH]; intros total index; [done|].
  cbn [app process_files]. unfold bind at 1 3.
  destruct (try_catch _ _ index) as [index1 [e|total1]]; [done|].
  apply IH.
Qed.

End IndexingLoop.

(** C6.  A file that fails in the indexing loop, because it cannot be read
    or because a request for one of its chunks fails, does not abort the
    run: the loop returns normally on every list of files, and its result
    is the one it has with the failing file left out.  The upsert is all or
    nothing: when a request for a chunk of the file fails, [embedFile]
    throws and leaves the index exactly as it was, and so does it return
    for a file it cannot read. *)
Theorem file_failure_is_contained
    (env : Env) (root model : string) (f : File.t) :
  unreadable env root f \/ embedding_fails env root f model ->
  (forall index,
      (unreadable env root f ->
       embedFile env root f model index = (index, inr 0))
      /\ (embedding_fails env root f model ->
          exists e, embedFile env root f model index = (index, inl e)))
  /\ (forall pre post total index,
        process_files env root model (pre ++ f :: post) total index
        = process_files env root model (pre ++ post) total index
        /\ exists index' total',
             process_files env root model (pre ++ f :: post) total index
             = (index', inr total')).
Proof.
  intros Hf. split.
  - intros index. split.
    + apply embedFile_unreadable.
    + apply embedFile_fails.
  - intros pre post total index. split; [|apply process_files_returns].
    rewrite !process_files_app.
    destruct (process_files env root model pre total index)
      as [index1 [e|total1]]; [done|].
    by apply process_files_skips.
Qed.

Lemma file_failure_is_contained_witness :
  embedding_fails down_env "repo" demo_file "m"
  /\ (exists e, embedFile down_env "repo" demo_file "m" stale_index
                = (stale_index, inl e))
  /\ process_files down_env "repo" "m" [ demo_file ] 0 stale_index
     = (stale_index, inr 0).
Proof.
  assert (Hfail : embedding_fails down_env "repo" demo_file "m").
  { exists ("a" ++ nl ++ "b"), (Chunk.mk ("a" ++ nl ++ "b") 0 1),
      (ApiFailed 500 "down").
    repeat split; try reflexivity. vm_compute. constructor. }
  destruct (file_failure_is_contained down_env "repo" "m" demo_file
              (or_intror Hfail)) as [Hone Hrun].
  split; [exact Hfail|]. split.
  - exact (proj2 (Hone stale_index) Hfail).
  - exact (proj1 (Hrun [] [] 0 stale_index)).
Defined.

(** ** Pruning *)

Lemma length_filter_split {A} (P : A -> Prop) `{!forall x, Decision (P x)}
    (l : list A) :
  length l = (length (filter P l) + length (filter (fun x => ~ P x) l))%nat.
Proof.
  induction l as [|x l IH]; [done|].
  rewrite !filter_cons. destruct (decide (P x)), (decide (~ P x)); cbn; try lia.
  all: tauto.
Qed.

Lemma dropFilesFromIndex_chunks index paths :
  Index.chunks (dropFilesFromIndex index paths)
  = filter (fun c => Entry.path c ∉ paths) (Index.chunks index).
Proof.
  unfold dropFilesFromIndex, Js.len.
  destruct paths as [|p paths]; cbn -[filter list_to_set].
  - symmetry. apply filter_all, Forall_forall. intros c _. apply not_elem_of_nil.
  - apply list_filter_iff. intros c. by rewrite elem_of_list_to_set.
Qed.

(** C8.  Pruning, [dropFilesFromIndex] and the count [readCommand] takes of
    it, removes every entry whose path is among the given paths: no such
    entry remains, the other entries are kept as they were and in their
    order, the count is the number of entries removed, and with no path
    given the index is returned as it is and the count is zero. *)
Theorem prune_removes_exactly_the_paths (index : Index.t) (paths : list string) :
  Forall (fun c => Entry.path c ∉ paths)
    (Index.chunks (dropFilesFromIndex index paths))
  /\ Index.chunks (dropFilesFromIndex index paths)
     = filter (fun c => Entry.path c ∉ paths) (Index.chunks index)
  /\ Index.version (dropFilesFromIndex index paths) = Index.version index
  /\ pruned index paths
     = Js.len (filter (fun c => Entry.path c ∈ paths) (Index.chunks index))
  /\ dropFilesFromIndex index [] = index
  /\ pruned index [] = 0.
Proof.
  split; [|split; [|split; [|split; [|split]]]].
  - rewrite dropFilesFromIndex_chunks. apply Forall_forall. intros c Hc.
    by apply list_elem_of_filter in Hc as [Hc _].
  - apply dropFilesFromIndex_chunks.
  - unfold dropFilesFromIndex. by destruct (_ =? 0).
  - unfold pruned. rewrite dropFilesFromIndex_chunks. unfold Js.len.
    rewrite (length_filter_split (fun c => Entry.path c ∈ paths)
               (Index.chunks index)) at 1.
    lia.
  - reflexivity.
  - unfold pruned. change (dropFilesFromIndex index []) with index. lia.
Qed.

(** ** Context blocks *)

Section ContextBlocks.

Variable env : Env.

Lemma to_int32_small x : - 2 ^ 31 <= x < 2 ^ 31 -> Js.to_int32 x = x.
Proof. intros Hx. unfold Js.to_int32. rewrite Z.mod_small; lia. Qed.

(** X25.  What [readSlice] returns for a range of lines of the file: the
    lines from [start] up to, and without, line [end], joined by line feeds;
    the empty text when [start = end]. *)
Lemma readSlice_stops_before_end absPath txt start end_ :
  readFileSync env absPath = Some txt ->
  0 <= start <= end_ -> end_ < Js.len (Js.split_lines txt) ->
  end_ < 2 ^ 31 ->
  readSlice env absPath start end_
  = Some (Js.join_lines (lines_between (Js.split_lines txt) start (end_ - 1))).
Proof.
  intros Hread Hs He Hsmall. unfold readSlice. rewrite Hread.
  rewrite !to_int32_small by lia.
  rewrite Z.max_r, Z.min_r by lia.
  rewrite slice_window by lia. unfold lines_between.
  by replace (end_ - 1 - start + 1) with (end_ - start) by lia.
Qed.

(** A file that can no longer be read gives a block with the empty text. *)
Lemma context_block_unreadable root c :
  readFileSync env (path_join env root (Entry.path c)) = None ->
  context_block env root c
  = Block.mk (Entry.path c) (Entry.start c) (Entry.end_ c) "".
Proof. intros Hread. unfold context_block, readSlice. by rewrite Hread. Qed.

End ContextBlocks.

Lemma split_lines_examples :
  Js.split_lines ("a" ++ crlf ++ "b" ++ nl ++ "") = [ "a"; "b"; "" ]
  /\ Js.split_lines (String Js.CR "a") = [ String Js.CR "a" ]
  /\ Js.split_lines "" = [ "" ].
Proof. repeat split. Qed.

(** Retrieval returns one block for each selected chunk, whether or not the
    files can still be read. *)
Lemma retrieve_blocks env cosine float_add root chunks qVec k :
  map Block.path (retrieve env cosine float_add root chunks qVec k)
  = map Scored.path (select (score_chunks cosine float_add qVec chunks) k).
Proof. unfold retrieve. rewrite map_map. done. Qed.

(** C7, where the code departs from it.  The chunk of a file of three lines
    is stored with the range 0..2 and the text of the three lines; the
    context block read back for that entry has the text of lines 0 and 1
    only: [readSlice] stops before line [end], which the index stores as the
    last line of the chunk. *)
Theorem context_block_misses_the_end_line :
  chunkFileContent three_lines no_options = [ Chunk.mk three_lines 0 2 ]
  /\ Js.join_lines (lines_between (Js.split_lines three_lines) 0 2) = three_lines
  /\ context_block three_line_env "repo"
       (Entry.mk "src/a.js" "h2" 0 0 2 (Some [ 1%Q ]) None)
     = Block.mk "src/a.js" 0 2 ("a" ++ nl ++ "b").
Proof. repeat split. Qed.

(** ** The language tally *)

(** C9, where the code departs from it.  A file without an extension is not
    left out of the tally: [rel.split(".").pop()] is then the whole relative
    path, which is counted in lower case.  Only a path that ends in a dot is
    left out. *)
Theorem extensionless_file_is_tallied :
  extension "Makefile" = "makefile"
  /\ snd <$> demo_scan [ "Makefile"; "src/Main.JS"; "bin/run"; "lib/y.js"; "odd." ]
     = Some {[ "makefile" := Count 1; "js" := Count 2; "bin/run" := Count 1 ]}.
Proof. split; [reflexivity|]. vm_compute. reflexivity. Qed.

(** ** Sorting by score *)

Section SortDesc.

Global Instance desc_trans : Transitive desc.
Proof. intros a b c Hab Hbc. unfold desc in *. by apply Qle_trans with (Scored.score b). Qed.

Global Instance desc_refl : Reflexive desc.
Proof. intros a. apply Qle_refl. Qed.

Lemma insert_desc_perm x l : insert_desc x l ≡ₚ x :: l.
Proof.
  induction l as [|y l IH]; cbn; [done|].
  destruct (Qle_bool _ _); [done|].
  rewrite IH. apply Permutation_swap.
Qed.

Lemma sort_desc_perm l : sort_desc l ≡ₚ l.
Proof.
  induction l as [|x l IH]; cbn; [done|].
  fold (sort_desc l). by rewrite insert_desc_perm, IH.
Qed.

Lemma insert_desc_sorted x l :
  StronglySorted desc l -> StronglySorted desc (insert_desc x l).
Proof.
  induction 1 as [|y l Hl IH Hy]; cbn.
  - by repeat constructor.
  - destruct (Qle_bool (Scored.score y) (Scored.score x)) eqn:Hle.
    + apply Qle_bool_iff in Hle.
      constructor; [by constructor|]. constructor; [done|].
      eapply Forall_impl; [exact Hy|]. intros z Hz. by transitivity y.
    + constructor; [done|].
      rewrite insert_desc_perm. constructor; [|done].
      unfold desc. destruct (Qlt_le_dec (Scored.score x) (Scored.score y)) as [Hlt|Hge].
      * by apply Qlt_le_weak.
      * apply Qle_bool_iff in Hge. congruence.
Qed.

Lemma sort_desc_sorted l : StronglySorted desc (sort_desc l).
Proof.
  induction l as [|x l IH]; cbn; [constructor|].
  by apply insert_desc_sorted.
Qed.

(** The sort is stable: it leaves a list in descending order as it is. *)
Lemma sort_desc_id l : StronglySorted desc l -> sort_desc l = l.
Proof.
  induction 1 as [|x l Hl IH Hx]; [done|].
  cbn. fold (sort_desc l). rewrite IH.
  destruct Hx as [|y l Hy _]; [done|]. cbn.
  apply Qle_bool_iff in Hy. by rewrite Hy.
Qed.

Lemma StronglySorted_sublist {A} (R : relation A) (l k : list A) :
  l `sublist_of` k -> StronglySorted R k -> StronglySorted R l.
Proof.
  induction 1 as [|x l k Hsub IH|x l k Hsub IH]; intros Hk.
  - constructor.
  - apply StronglySorted_cons in Hk as [Hx Hk]. constructor; [auto|].
    apply Forall_forall. intros y Hy.
    rewrite Forall_forall in Hx. apply Hx. by apply elem_of_sublist with l.
  - apply StronglySorted_cons in Hk as [_ Hk]. auto.
Qed.

End SortDesc.

(** ** Grouping by file *)

Section Grouping.

Implicit Types (G : list (string * list Scored.t)) (s : Scored.t).

Lemma byFile_push_new G s :
  Scored.path s ∉ keys G ->
  byFile_push G s = (G ++ [ (Scored.path s, [ s ]) ])%list.
Proof.
  induction G as [|[p arr] G IH]; intros Hnew; cbn; [done|].
  destruct (String.eqb_spec p (Scored.path s)) as [->|Hne].
  - exfalso. apply Hnew. cbn. left.
  - f_equal. apply IH. intros Hin. apply Hnew. cbn. by right.
Qed.

Lemma byFile_push_old G1 G2 arr s :
  Scored.path s ∉ keys G1 ->
  byFile_push (G1 ++ (Scored.path s, arr) :: G2) s
  = (G1 ++ (Scored.path s, arr ++ [ s ]) :: G2)%list.
Proof.
  induction G1 as [|[p arr1] G1 IH]; intros Hnew; cbn.
  - by rewrite String.eqb_refl.
  - destruct (String.eqb_spec p (Scored.path s)) as [->|Hne].
    + exfalso. apply Hnew. cbn. left.
    + f_equal. apply IH. intros Hin. apply Hnew. cbn. by right.
Qed.

Lemma keys_split G p :
  p ∈ keys G ->
  exists G1 arr G2, G = (G1 ++ (p, arr) :: G2)%list /\ p ∉ keys G1.
Proof.
  induction G as [|[q arr] G IH]; cbn; intros Hin.
  - by apply elem_of_nil in Hin.
  - destruct (decide (q = p)) as [->|Hne].
    + exists [], arr, G. split; [done|]. apply not_elem_of_nil.
    + apply elem_of_cons in Hin as [->|Hin]; [done|].
      destruct (IH Hin) as (G1 & arr' & G2 & -> & Hnot).
      exists ((q, arr) :: G1), arr', G2. split; [done|].
      cbn. intros [->|H]%elem_of_cons; done.
Qed.

Lemma elem_of_keys G p arr : (p, arr) ∈ G -> p ∈ keys G.
Proof. intros Hin. apply list_elem_of_fmap. by exists (p, arr). Qed.

Lemma firsts_app G1 G2 : firsts (G1 ++ G2) = (firsts G1 ++ firsts G2)%list.
Proof. unfold firsts. by rewrite flat_map_app. Qed.

Lemma grouped_push_new seen G s :
  grouped seen G -> Scored.path s ∉ keys G ->
  grouped (seen ++ [ s ])%list (G ++ [ (Scored.path s, [ s ]) ])%list.
Proof.
  intros [Hkeys Hgroups Hall Hfirsts] Hnew. split.
  - unfold keys. rewrite fmap_app. apply NoDup_app. split; [done|]. split.
    + intros p Hp Hp'. cbn in Hp'. apply list_elem_of_singleton in Hp' as ->. done.
    + apply NoDup_singleton.
  - intros p arr [Hin|Hin%list_elem_of_singleton]%elem_of_app.
    + pose proof (elem_of_keys _ _ _ Hin) as Hp.
      destruct (Hgroups p arr Hin) as [Hne ->]. split; [done|].
      rewrite filter_app, filter_singleton_False, app_nil_r; [done..|].
      intros Heq. apply Hnew. by rewrite Heq.
    + injection Hin as -> ->. split; [done|].
      rewrite filter_app, filter_singleton_True by done.
      rewrite filter_none; [done|].
      apply Forall_forall. intros s' Hs' Heq. apply Hnew.
      rewrite <- Heq. by apply Hall.
  - intros s' [Hin|Hin%list_elem_of_singleton]%elem_of_app.
    + unfold keys. rewrite fmap_app. apply elem_of_app. left. by apply Hall.
    + subst s'. unfold keys. rewrite fmap_app. apply elem_of_app. right.
      cbn. left.
  - rewrite firsts_app. by apply sublist_app.
Qed.

Lemma grouped_push_old seen G1 G2 arr s :
  grouped seen (G1 ++ (Scored.path s, arr) :: G2)%list ->
  grouped (seen ++ [ s ])%list
    (G1 ++ (Scored.path s, (arr ++ [ s ])%list) :: G2)%list.
Proof.
  intros [Hkeys Hgroups Hall Hfirsts].
  assert (Hk : keys (G1 ++ (Scored.path s, (arr ++ [ s ])%list) :: G2)%list
               = keys (G1 ++ (Scored.path s, arr) :: G2)%list).
  { unfold keys. by rewrite !fmap_app. }
  assert (Hmine : arr <> [] /\ arr = filter (fun s' => Scored.path s' = Scored.path s) seen).
  { apply Hgroups. apply elem_of_app. right. left. }
  assert (Hother : forall p arr', (p, arr') ∈ (G1 ++ G2)%list -> p <> Scored.path s).
  { unfold keys in Hkeys. rewrite fmap_app in Hkeys. cbn in Hkeys.
    apply NoDup_app in Hkeys as (_ & Hdisj & [Hnot _]%NoDup_cons).
    intros p arr' [Hin|Hin]%elem_of_app ->.
    - apply (Hdisj (Scored.path s)); [by apply elem_of_keys with arr'|left].
    - apply Hnot. by apply elem_of_keys with arr'. }
  split.
  - by rewrite Hk.
  - intros p arr' Hin.
    apply elem_of_app in Hin as [Hin|[Hin|Hin]%elem_of_cons].
    + assert (Hp : p <> Scored.path s)
        by (apply (Hother p arr'), elem_of_app; by left).
      destruct (Hgroups p arr') as [Hne ->]; [apply elem_of_app; by left|].
      split; [done|].
      rewrite filter_app, filter_singleton_False, app_nil_r; [done..|].
      intros Heq. by apply Hp.
    + injection Hin as -> ->. destruct Hmine as [Hne Harr]. split.
      * by destruct arr.
      * rewrite filter_app, filter_singleton_True by done. by rewrite <- Harr.
    + assert (Hp : p <> Scored.path s)
        by (apply (Hother p arr'), elem_of_app; by right).
      destruct (Hgroups p arr') as [Hne ->];
        [apply elem_of_app; right; by right|].
      split; [done|].
      rewrite filter_app, filter_singleton_False, app_nil_r; [done..|].
      intros Heq. by apply Hp.
  - intros s' [Hin|Hin%list_elem_of_singleton]%elem_of_app; rewrite Hk.
    + by apply Hall.
    + subst s'. apply elem_of_keys with arr. apply elem_of_app. right. left.
  - apply sublist_inserts_r.
    rewrite firsts_app in *. cbn in *.
    destruct Hmine as [Hne _]. destruct arr as [|a arr]; [done|]. exact Hfirsts.
Qed.

Lemma grouped_push seen G s :
  grouped seen G -> grouped (seen ++ [ s ])%list (byFile_push G s).
Proof.
  intros HG. destruct (decide (Scored.path s ∈ keys G)) as [Hin|Hnew].
  - destruct (keys_split G _ Hin) as (G1 & arr & G2 & -> & Hnot).
    rewrite byFile_push_old by done. by apply grouped_push_old.
  - rewrite byFile_push_new by done. by apply grouped_push_new.
Qed.

Lemma fold_byFile_push_grouped l : forall seen G,
  grouped seen G -> grouped (seen ++ l)%list (fold_left byFile_push l G).
Proof.
  induction l as [|s l IH]; intros seen G HG; cbn.
  - by rewrite app_nil_r.
  - replace (seen ++ s :: l)%list with ((seen ++ [ s ]) ++ l)%list
      by (by rewrite <- app_assoc).
    by apply IH, grouped_push.
Qed.

Lemma group_by_file_grouped l : grouped l (group_by_file l).
Proof.
  apply (fold_byFile_push_grouped l [] []).
  split; cbn; [constructor|intros ? ? []%elem_of_nil|intros ? []%elem_of_nil|constructor].
Qed.

End Grouping.

(** ** Picking the representatives *)

Section Picking.

Implicit Types (G : list (string * list Scored.t)) (s r : Scored.t).

Lemma slice_take {A} (l : list A) (k : Z) :
  0 <= k -> Js.slice l 0 k = take (Z.to_nat k) l.
Proof.
  intros Hk. unfold Js.slice, Js.rel_index, Js.len.
  change (0 <? 0) with false. cbv iota.
  destruct (Z.ltb_spec k 0); [lia|].
  replace (Z.to_nat (Z.min 0 (Z.of_nat (length l)))) with 0%nat by lia.
  rewrite drop_0.
  destruct (Z.le_ge_cases k (Z.of_nat (length l))).
  - f_equal. lia.
  - rewrite !take_ge by lia. done.
Qed.

Lemma take_1_sort arr :
  arr <> [] -> exists h, take 1 (sort_desc arr) = [ h ].
Proof.
  intros Hne. pose proof (Permutation_length (sort_desc_perm arr)) as Hlen.
  destruct (sort_desc arr) as [|h l]; [|by exists h].
  destruct arr; [done|discriminate].
Qed.

(** The loop over the groups takes the representatives of the first [k]
    of them. *)
Lemma pick_best_reps k G : forall pick,
  (forall p arr, (p, arr) ∈ G -> arr <> []) ->
  Js.len pick < k ->
  pick_best k G pick
  = (pick ++ take (Z.to_nat (k - Js.len pick)) (reps G))%list.
Proof.
  induction G as [|[p arr] G IH]; intros pick Hne Hlt; cbn [pick_best].
  - unfold reps. cbn. by rewrite take_nil, app_nil_r.
  - destruct (take_1_sort arr) as [h Hh]; [apply (Hne p); left|].
    unfold reps. cbn [flat_map snd]. fold (reps G). rewrite Hh.
    assert (Hlen : Js.len (pick ++ [ h ]) = Js.len pick + 1).
    { unfold Js.len. rewrite length_app. cbn. lia. }
    rewrite Hlen.
    destruct (Z.geb_spec (Js.len pick + 1) k) as [Hge|Hmore].
    + replace (Z.to_nat (k - Js.len pick)) with 1%nat by lia. done.
    + rewrite IH; [|intros q a Hq; apply (Hne q); by right|lia].
      rewrite Hlen, <- app_assoc. cbn [app]. do 2 f_equal.
      replace (Z.to_nat (k - Js.len pick))
        with (S (Z.to_nat (k - (Js.len pick + 1)))) by lia.
      done.
Qed.

(** Filling up only appends. *)
Lemma fill_up_appends times k scored : forall pick,
  exists more, fill_up times k scored pick = (pick ++ more)%list.
Proof.
  induction times as [|times IH]; intros pick; cbn [fill_up].
  - exists []. by rewrite app_nil_r.
  - destruct (_ && _); [|exists []; by rewrite app_nil_r].
    destruct (scored !! length pick) as [s|]; [|exists []; by rewrite app_nil_r].
    destruct (IH (pick ++ [ s ])%list) as [more ->].
    exists (s :: more). by rewrite <- app_assoc.
Qed.

(** The first chunks selected are the representatives, in their order. *)
Lemma select_heads scored k :
  1 <= k ->
  let G := group_by_file (sort_desc scored) in
  (forall p arr, (p, arr) ∈ G -> arr <> []) ->
  take (Nat.min (Z.to_nat k) (length (reps G))) (select scored k)
  = take (Nat.min (Z.to_nat k) (length (reps G))) (reps G).
Proof.
  intros Hk G Hne. unfold select. fold G.
  rewrite pick_best_reps by (done || (unfold Js.len; cbn; lia)).
  change (Js.len []) with 0. rewrite Z.sub_0_r. cbn [app].
  destruct (fill_up_appends (length (sort_desc scored)) k (sort_desc scored)
              (take (Z.to_nat k) (reps G))) as [more ->].
  rewrite slice_take by lia.
  rewrite take_take.
  replace (Nat.min (Nat.min (Z.to_nat k) (length (reps G))) (Z.to_nat k))
    with (Nat.min (Z.to_nat k) (length (reps G))) by lia.
  rewrite take_app_le by (rewrite length_take; lia).
  rewrite take_take. f_equal. lia.
Qed.

End Picking.

(** ** The representatives are diversified *)

Section Representatives.

Variable scored : list Scored.t.

Let S := sort_desc scored.
Let G := group_by_file S.

Lemma groups_nonempty p arr : (p, arr) ∈ G -> arr <> [].
Proof. intros Hin. by destruct (grouped_groups S G (group_by_file_grouped S) p arr Hin). Qed.

Lemma groups_sorted p arr : (p, arr) ∈ G -> StronglySorted desc arr.
Proof.
  intros Hin.
  destruct (grouped_groups S G (group_by_file_grouped S) p arr Hin) as [_ ->].
  eapply StronglySorted_sublist; [apply sublist_filter|apply sort_desc_sorted].
Qed.

Lemma reps_firsts_of G' :
  (forall p arr, (p, arr) ∈ G' -> StronglySorted desc arr) ->
  reps G' = firsts G'.
Proof.
  induction G' as [|[p arr] G' IH]; intros Hs; [done|].
  unfold reps, firsts. cbn [flat_map snd]. fold (reps G') (firsts G').
  rewrite sort_desc_id by (apply (Hs p); left).
  f_equal. apply IH. intros q a Hq. apply (Hs q). by right.
Qed.

Lemma reps_firsts : reps G = firsts G.
Proof. apply reps_firsts_of, groups_sorted. Qed.

Lemma firsts_paths_of G' :
  (forall p arr, (p, arr) ∈ G' ->
     arr <> [] /\ Forall (fun s => Scored.path s = p) arr) ->
  map Scored.path (firsts G') = keys G'.
Proof.
  induction G' as [|[p arr] G' IH]; intros Hg; [done|].
  unfold firsts, keys. cbn [flat_map snd map fst].
  fold (firsts G') (keys G').
  destruct (Hg p arr) as [Hne Hp]; [left|].
  destruct arr as [|a arr]; [done|].
  apply Forall_cons in Hp as [Ha _]. cbn. rewrite Ha. f_equal.
  apply IH. intros q b Hq. apply Hg. by right.
Qed.

Lemma firsts_paths : map Scored.path (firsts G) = keys G.
Proof.
  apply firsts_paths_of. intros p arr Hin.
  destruct (grouped_groups S G (group_by_file_grouped S) p arr Hin) as [Hne ->].
  split; [done|]. apply Forall_forall. intros s Hs.
  by apply list_elem_of_filter in Hs as [Hs _].
Qed.

Lemma elem_of_firsts r :
  r ∈ firsts G -> exists p arr, (p, arr) ∈ G /\ exists tl, arr = r :: tl.
Proof.
  unfold firsts. intros Hr. apply list_elem_of_In in Hr.
  apply in_flat_map in Hr as ([p arr] & Hg & Hin).
  apply list_elem_of_In in Hg. apply list_elem_of_In in Hin.
  exists p, arr. split; [done|]. cbn in Hin.
  destruct arr as [|a tl]; [by apply elem_of_nil in Hin|].
  cbn in Hin. apply list_elem_of_singleton in Hin as ->. by exists tl.
Qed.

Lemma firsts_best r : r ∈ firsts G -> best_of_its_file scored r.
Proof.
  intros (p & arr & Hin & tl & ->)%elem_of_firsts.
  pose proof (groups_sorted _ _ Hin) as Hsorted.
  destruct (grouped_groups S G (group_by_file_grouped S) _ _ Hin) as [_ Harr].
  assert (Hr : r ∈ filter (fun s => Scored.path s = p) S) by (rewrite <- Harr; left).
  apply list_elem_of_filter in Hr as [Hp Hr].
  split.
  - unfold S in Hr. by rewrite sort_desc_perm in Hr.
  - intros s Hs Hpath.
    assert (Hs' : s ∈ r :: tl).
    { rewrite Harr. apply list_elem_of_filter. split; [congruence|].
      unfold S. by rewrite sort_desc_perm. }
    apply StronglySorted_cons in Hsorted as [Hall _].
    apply elem_of_cons in Hs' as [->|Hs']; [reflexivity|].
    rewrite Forall_forall in Hall. by apply Hall.
Qed.

Lemma keys_are_the_paths p : p ∈ keys G <-> p ∈ map Scored.path scored.
Proof.
  split.
  - rewrite <- firsts_paths. intros (r & -> & Hr)%list_elem_of_fmap.
    apply list_elem_of_fmap. exists r. split; [done|].
    by destruct (firsts_best r Hr).
  - intros (s & -> & Hs)%list_elem_of_fmap.
    apply (grouped_all S G (group_by_file_grouped S)).
    unfold S. by rewrite sort_desc_perm.
Qed.

Lemma length_reps : length (reps G) = n_files scored.
Proof.
  rewrite reps_firsts, <- (length_map Scored.path), firsts_paths.
  unfold n_files. apply Permutation_length, NoDup_Permutation.
  - apply (grouped_keys S G (group_by_file_grouped S)).
  - apply NoDup_remove_dups.
  - intros p. by rewrite elem_of_remove_dups, keys_are_the_paths.
Qed.

(** The first [m] representatives are diversified, whatever [m]. *)
Lemma firsts_diversified m : diversified scored (take m (firsts G)).
Proof.
  pose proof (group_by_file_grouped S) as HG. fold G in HG.
  assert (Hsorted : StronglySorted desc (firsts G)).
  { eapply StronglySorted_sublist; [apply (grouped_firsts S G HG)|].
    apply sort_desc_sorted. }
  split.
  - rewrite <- firstn_map, firsts_paths.
    eapply sublist_NoDup; [apply (grouped_keys S G HG)|apply sublist_take].
  - apply Forall_take, Forall_forall. intros r Hr. by apply firsts_best.
  - eapply StronglySorted_sublist; [apply sublist_take|done].
  - intros s r Hs Hout Hr.
    assert (Hkey : Scored.path s ∈ map Scored.path (firsts G)).
    { rewrite firsts_paths. apply keys_are_the_paths.
      apply list_elem_of_fmap. by exists s. }
    apply list_elem_of_fmap in Hkey as (r' & Hpath & Hr').
    rewrite <- (take_drop m (firsts G)) in Hr', Hsorted.
    apply elem_of_app in Hr' as [Hr'|Hr'].
    + exfalso. apply Hout. apply list_elem_of_fmap. by exists r'.
    + transitivity r'.
      * by apply (StronglySorted_app_1_elem_of _ _ _ _ _ Hsorted).
      * destruct (firsts_best r') as [_ Hbest].
        { rewrite <- (take_drop m (firsts G)). apply elem_of_app. by right. }
        by apply Hbest.
Qed.

End Representatives.

(** ** Retrieval is diversified *)

Section Example.

(** Two chunks of one file scoring 0.9 and 0.85, and a chunk of another
    file scoring 0.95. *)
Variables a1 a2 b : Scored.t.
Hypothesis same_file : Scored.path a1 = Scored.path a2.
Hypothesis other_file : Scored.path b <> Scored.path a1.
Hypothesis score_a1 : Scored.score a1 = 9 # 10.
Hypothesis score_a2 : Scored.score a2 = 17 # 20.
Hypothesis score_b : Scored.score b = 19 # 20.

Lemma example_order : StronglySorted desc [ b; a1; a2 ].
Proof.
  repeat constructor; unfold desc; rewrite ?score_a1, ?score_a2, ?score_b;
    by vm_compute.
Qed.

Lemma example_distinct x y :
  x ∈ [ b; a1; a2 ] -> y ∈ [ b; a1; a2 ] -> desc x y -> desc y x -> x = y.
Proof.
  intros Hx Hy Hxy Hyx. unfold desc in *.
  repeat (apply elem_of_cons in Hx as [->|Hx]);
    repeat (apply elem_of_cons in Hy as [->|Hy]);
    try done;
    try (by apply elem_of_nil in Hx); try (by apply elem_of_nil in Hy);
    rewrite ?score_a1, ?score_a2, ?score_b in Hxy, Hyx;
    exfalso; vm_compute in Hxy, Hyx; auto.
Qed.

(** Whatever the order of the three chunks in the index, they are sorted
    the same way. *)
Lemma example_sorted scored :
  scored ≡ₚ [ a1; a2; b ] -> sort_desc scored = [ b; a1; a2 ].
Proof.
  intros Hperm.
  assert (Hp : sort_desc scored ≡ₚ [ b; a1; a2 ]).
  { rewrite sort_desc_perm, Hperm.
    apply (Permutation_app_comm [ a1; a2 ] [ b ]). }
  apply (StronglySorted_unique_strong desc);
    [|apply sort_desc_sorted|apply example_order|done].
  intros x y Hx Hy. rewrite Hp in Hx. by apply example_distinct.
Qed.

Lemma example_groups :
  group_by_file [ b; a1; a2 ]
  = [ (Scored.path b, [ b ]); (Scored.path a1, [ a1; a2 ]) ].
Proof.
  unfold group_by_file. cbn [fold_left byFile_push app].
  rewrite (proj2 (String.eqb_neq _ _) other_file). cbn [byFile_push app].
  rewrite <- same_file, (proj2 (String.eqb_neq _ _) other_file).
  by rewrite String.eqb_refl.
Qed.

Lemma example_select scored :
  scored ≡ₚ [ a1; a2; b ] ->
  select scored 1 = [ b ] /\ select scored 2 = [ b; a1 ].
Proof.
  intros Hperm. unfold select.
  rewrite (example_sorted scored Hperm), example_groups.
  cbn [pick_best].
  change (sort_desc [ b ]) with [ b ].
  rewrite (sort_desc_id [ a1; a2 ])
    by (by pose proof example_order as [_ H]%StronglySorted_cons).
  split; reflexivity.
Qed.

End Example.

(** The [k] of [chatCommand] is at least 1. *)
Lemma k_of_positive topk : 1 <= k_of topk.
Proof. unfold k_of. lia. Qed.

(** C4.  The chunks selected for a query are diversified.  The first
    [min k (number of files)] selected chunks are of distinct files, each is
    the highest-scoring chunk of its file, they come in descending order of
    score, and no chunk of a file they leave out scores higher than one of
    them.  Concretely, when the index holds two chunks of a file A scoring
    0.9 and 0.85 and one chunk of a file B scoring 0.95, in any order,
    [k = 1] selects the chunk of B, and [k = 2] selects the chunk of B and
    then the 0.9 chunk of A. *)
Theorem retrieval_is_diversified :
  (forall scored k, 1 <= k ->
     length (take (Nat.min (Z.to_nat k) (n_files scored)) (select scored k))
     = Nat.min (Z.to_nat k) (n_files scored)
     /\ diversified scored
          (take (Nat.min (Z.to_nat k) (n_files scored)) (select scored k)))
  /\ (forall a1 a2 b scored,
        Scored.path a1 = Scored.path a2 ->
        Scored.path b <> Scored.path a1 ->
        Scored.score a1 = 9 # 10 ->
        Scored.score a2 = 17 # 20 ->
        Scored.score b = 19 # 20 ->
        scored ≡ₚ [ a1; a2; b ] ->
        select scored 1 = [ b ] /\ select scored 2 = [ b; a1 ]).
Proof.
  split.
  - intros scored k Hk.
    rewrite <- (length_reps scored).
    rewrite select_heads by (done || apply groups_nonempty).
    rewrite reps_firsts. split.
    + rewrite length_take. lia.
    + apply firsts_diversified.
  - intros a1 a2 b scored Hsame Hother H1 H2 Hb.
    by apply (example_select a1 a2 b).
Qed.

Lemma retrieval_is_diversified_witness :
  1 <= 2
  /\ (select [ chunk_a1; chunk_a2; chunk_b ] 1 = [ chunk_b ]
      /\ select [ chunk_a1; chunk_a2; chunk_b ] 2 = [ chunk_b; chunk_a1 ])
  /\ diversified [ chunk_a1; chunk_a2; chunk_b ]
       (take (Nat.min (Z.to_nat 2) (n_files [ chunk_a1; chunk_a2; chunk_b ]))
          (select [ chunk_a1; chunk_a2; chunk_b ] 2)).
Proof.
  assert (Hk : 1 <= 2) by lia.
  assert (Hother : Scored.path chunk_b <> Scored.path chunk_a1)
    by (vm_compute; discriminate).
  destruct retrieval_is_diversified as [Hgeneral Hexample].
  split; [exact Hk|]. split.
  - exact (Hexample chunk_a1 chunk_a2 chunk_b [ chunk_a1; chunk_a2; chunk_b ]
             eq_refl Hother eq_refl eq_refl eq_refl (Permutation_refl _)).
  - exact (proj2 (Hgeneral [ chunk_a1; chunk_a2; chunk_b ] 2 Hk)).
Defined.

(** The loop that fills up stops within the bound it is given. *)
Lemma fill_up_exits times k scored : forall pick,
  (length scored - length pick <= times)%nat ->
  (Js.len (fill_up times k scored pick) <? k)
  && (Js.len (fill_up times k scored pick) <? Js.len scored) = false.
Proof.
  induction times as [|times IH]; intros pick Hle; cbn [fill_up].
  - apply andb_false_iff. right. apply Z.ltb_ge. unfold Js.len. lia.
  - destruct ((Js.len pick <? k) && (Js.len pick <? Js.len scored)) eqn:Hc;
      [|done].
    apply andb_true_iff in Hc as [_ Hlt%Z.ltb_lt]. unfold Js.len in Hlt.
    destruct (lookup_lt_is_Some_2 scored (length pick)) as [s ->]; [lia|].
    apply IH. rewrite length_app. cbn. lia.
Qed.

(** ** The tally of a scan *)

Section Tally.

Variable path_join : string -> string -> string.
Variable statSync : string -> option Z.
Variable hashFileFull : string -> option string.
Variable Object_source : string.

Lemma falsy_empty s : falsy s = true <-> s = "".
Proof. by destruct s. Qed.

Lemma ones_snoc n : ones n ++ "1" = ones (S n).
Proof.
  induction n as [|n IH]; [done|].
  change (ones (S n) ++ "1") with (String "1" (ones n ++ "1")).
  by rewrite IH.
Qed.

Lemma append_ones s n : (s ++ ones n) ++ "1" = s ++ ones (S n).
Proof.
  rewrite <- ones_snoc. induction s as [|c s IH]; [done|].
  change ((String c s ++ ones n) ++ "1")
    with (String c ((s ++ ones n) ++ "1")).
  by rewrite IH.
Qed.

Lemma falsy_append_ones s n : falsy (s ++ ones (S n)) = false.
Proof. by destruct s. Qed.

Lemma count_language_tallies files languages rel sizeKB hash :
  tallies Object_source files languages ->
  tallies Object_source (files ++ [ File.mk rel sizeKB hash ])
    (count_language Object_source languages rel).
Proof.
  intros Hold ext.
  rewrite filter_app, length_app, (filter_singleton _ _ []). cbn [File.path].
  specialize (Hold ext).
  set (n := length (filter (fun f => extension (File.path f) = ext) files)) in *.
  unfold count_language.
  destruct (falsy (extension rel)) eqn:Hf.
  { destruct (decide (extension rel = ext)) as [<-|Hne].
    - rewrite Hold. unfold tally_of. by rewrite Hf.
    - cbn [length]. by rewrite Nat.add_0_r. }
  destruct (String.eqb_spec (extension rel) "__proto__") as [Hp|Hp].
  { destruct (decide (extension rel = ext)) as [<-|Hne].
    - rewrite Hold. unfold tally_of. by rewrite Hp.
    - cbn [length]. by rewrite Nat.add_0_r. }
  destruct (decide (extension rel = ext)) as [<-|Hne].
  - rewrite lookup_insert_eq, Hold. cbn [length].
    replace (n + 1)%nat with (S n) by lia.
    unfold tally_of. rewrite Hf, (proj2 (String.eqb_neq _ _) Hp).
    cbn [orb]. destruct n as [|k].
    + cbn [Nat.eqb]. by destruct (String.eqb (extension rel) "constructor").
    + cbn [Nat.eqb]. destruct (String.eqb (extension rel) "constructor").
      * by rewrite falsy_append_ones, append_ones.
      * do 2 f_equal. lia.
  - rewrite lookup_insert_ne by done. cbn [length]. by rewrite Nat.add_0_r.
Qed.

Lemma scan_loop_tallies root maxFileKB relPaths :
  forall files languages files' languages',
  tallies Object_source files languages ->
  scan_loop path_join statSync hashFileFull Object_source root maxFileKB
    relPaths files languages = Some (files', languages') ->
  tallies Object_source files' languages'.
Proof.
  induction relPaths as [|rel rest IH]; intros files languages files' languages'
    Hold; cbn [scan_loop].
  - by intros [= <- <-].
  - destruct (statSync _) as [size|]; [|by apply IH].
    destruct (_ >? _); [by apply IH|].
    destruct (hashFileFull _) as [hash|]; [|done].
    by apply IH, count_language_tallies.
Qed.

Lemma tallies_empty : tallies Object_source [] ∅.
Proof.
  intros ext. rewrite lookup_empty. unfold tally_of. cbn.
  by rewrite orb_true_r.
Qed.

(** What the tally of a scan is: the tally of the returned files. *)
Lemma scanRepo_tallies root relPaths maxFileKB files languages :
  scanRepo path_join statSync hashFileFull Object_source root relPaths
    maxFileKB = Some (files, languages) ->
  tallies Object_source files languages.
Proof. apply scan_loop_tallies, tallies_empty. Qed.

End Tally.

(** * Further properties of the code *)

(** ** Lines and texts *)

Lemma strlen_append s1 s2 :
  Js.strlen (s1 ++ s2) = Js.strlen s1 + Js.strlen s2.
Proof.
  unfold Js.strlen. induction s1 as [|c s1 IH].
  - change ("" ++ s2) with s2. cbn [String.length]. lia.
  - change (String c s1 ++ s2) with (String c (s1 ++ s2)).
    cbn [String.length]. lia.
Qed.

Lemma split_lines_nonempty text : Js.split_lines text <> [].
Proof.
  induction text as [|c rest IH]; cbn [Js.split_lines]; [done|].
  destruct (Ascii.eqb c Js.LF); [done|].
  destruct (_ && _); [done|].
  by destruct (Js.split_lines rest).
Qed.

Lemma join_lines_cons l ls :
  ls <> [] -> Js.join_lines (l :: ls) = l ++ nl ++ Js.join_lines ls.
Proof. by destruct ls. Qed.

Lemma split_lines_LF rest :
  Js.starts_with_LF rest = true ->
  exists ls, Js.split_lines rest = "" :: ls /\ ls <> [].
Proof.
  destruct rest as [|c rest]; [discriminate|]. cbn. intros ->.
  exists (Js.split_lines rest). split; [done|apply split_lines_nonempty].
Qed.

(** X1.  Splitting a text into lines and joining the lines with line feeds
    gives the text back, but for the carriage returns that stood before a
    line feed; no line holds a line feed. *)
Theorem split_then_join_normalizes (text : string) :
  Js.join_lines (Js.split_lines text) = normalize_newlines text
  /\ Forall (fun l => Js.LF ∉ chars l) (Js.split_lines text).
Proof.
  induction text as [|c rest [IHjoin IHlf]];
    cbn [Js.split_lines normalize_newlines].
  - split; [done|]. repeat constructor. cbn. apply not_elem_of_nil.
  - destruct (Ascii.eqb_spec c Js.LF) as [->|Hc].
    + change (Ascii.eqb Js.LF Js.CR) with false. cbn [andb].
      split.
      * rewrite join_lines_cons by apply split_lines_nonempty.
        by rewrite IHjoin.
      * constructor; [cbn; apply not_elem_of_nil|done].
    + destruct (Ascii.eqb c Js.CR && Js.starts_with_LF rest) eqn:Hcr; [done|].
      pose proof (split_lines_nonempty rest) as Hne.
      destruct (Js.split_lines rest) as [|l ls]; [done|]. split.
      * rewrite <- IHjoin. destruct ls; [done|].
        by rewrite !join_lines_cons by done.
      * apply Forall_cons in IHlf as [Hl Hls]. constructor; [|done].
        cbn. intros [?|?]%elem_of_cons; [by subst|done].
Qed.

(** ** The size of a chunk *)

Section ChunkSizes.

Variable maxC : Z.

Lemma strlen_join ls :
  ls <> [] -> Js.strlen (Js.join_lines ls) + 1 = total_size ls.
Proof.
  induction ls as [|l ls IH]; [done|]. intros _.
  destruct ls as [|l' ls].
  - cbn. lia.
  - rewrite join_lines_cons by done. rewrite !strlen_append.
    cbn [total_size] in *. rewrite <- IH by done.
    change (Js.strlen nl) with 1. lia.
Qed.

(** What the inner loop takes stays within the budget. *)
Lemma pack_within_budget rest : forall e size,
  size <= maxC ->
  size + total_size (take (Z.to_nat (pack maxC rest e size - e)) rest) <= maxC.
Proof.
  induction rest as [|l rest IH]; intros e size Hsize; cbn [pack].
  - rewrite take_nil. cbn [total_size]. lia.
  - destruct (Z.leb_spec (size + Js.strlen l + 1) maxC) as [Hle|Hgt].
    + pose proof (pack_bounds maxC rest (e + 1) (size + Js.strlen l + 1)) as Hb.
      replace (Z.to_nat (pack maxC rest (e + 1) (size + Js.strlen l + 1) - e))
        with (S (Z.to_nat (pack maxC rest (e + 1) (size + Js.strlen l + 1)
                           - (e + 1)))) by lia.
      cbn [take total_size].
      specialize (IH (e + 1) (size + Js.strlen l + 1) Hle). lia.
    + rewrite Z.sub_diag. change (Z.to_nat 0) with 0%nat.
      cbn [take total_size]. lia.
Qed.

(** The inner loop takes everything when everything fits. *)
Lemma pack_takes_all rest : forall e size,
  size + total_size rest <= maxC ->
  pack maxC rest e size = e + Js.len rest.
Proof.
  unfold Js.len.
  induction rest as [|l rest IH]; intros e size Hfit; cbn [pack length].
  - lia.
  - cbn [total_size] in Hfit. pose proof (Zle_0_nat (String.length l)).
    assert (0 <= total_size rest).
    { clear. induction rest as [|x r IHr]; cbn [total_size]; unfold Js.strlen; lia. }
    destruct (Z.leb_spec (size + Js.strlen l + 1) maxC) as [Hle|Hgt].
    + rewrite IH by lia. lia.
    + unfold Js.strlen in *. lia.
Qed.

Lemma window_within_budget (lines : list string) start :
  0 <= start ->
  let e := pack maxC (drop (Z.to_nat start) lines) start 0 in
  start < e ->
  Js.strlen (Chunk.text (window lines start e)) + 1 <= maxC.
Proof.
  intros Hstart e He. unfold window, lines_between. cbn [Chunk.text].
  replace (e - 1 - start + 1) with (e - start) by lia.
  destruct (drop (Z.to_nat start) lines) as [|l rest] eqn:Hdrop.
  - subst e. cbn in He. lia.
  - rewrite strlen_join.
    + subst e. cbn [pack] in *.
      destruct (Z.leb_spec (0 + Js.strlen l + 1) maxC) as [Hle|Hgt]; [|lia].
      pose proof (pack_within_budget rest (start + 1) (0 + Js.strlen l + 1) Hle) as Hp.
      pose proof (pack_bounds maxC rest (start + 1) (0 + Js.strlen l + 1)) as Hb.
      replace (Z.to_nat (pack maxC rest (start + 1) (0 + Js.strlen l + 1) - start))
        with (S (Z.to_nat (pack maxC rest (start + 1) (0 + Js.strlen l + 1)
                           - (start + 1)))) by lia.
      cbn [take total_size]. lia.
    + replace (Z.to_nat (e - start)) with (S (Z.to_nat (e - start - 1))) by lia.
      done.
Qed.

End ChunkSizes.

(** What holds of every window the loop pushes holds of every chunk of the
    result. *)
Lemma chunk_loop_windows (P : Chunk.t -> Prop) lines maxC ovl :
  (forall start, 0 <= start < Js.len lines ->
     start < pack maxC (drop (Z.to_nat start) lines) start 0 ->
     P (window lines start (pack maxC (drop (Z.to_nat start) lines) start 0))) ->
  forall fuel start chunks r,
    0 <= start -> Forall P chunks ->
    chunk_loop fuel lines maxC ovl start chunks = Some r ->
    Forall P r.
Proof.
  intros Hwin fuel start chunks r Hstart Hchunks.
  assert (Hstep : forall s cs, 0 <= s < Js.len lines -> Forall P cs ->
            match iteration lines maxC ovl s cs with
            | Break cs' => Forall P cs'
            | Next s' cs' => 0 <= s' /\ Forall P cs'
            end).
  { intros s cs Hs Hcs.
    destruct (iteration_window lines maxC ovl s cs Hs) as [He ->]. cbn zeta.
    set (e := pack maxC (drop (Z.to_nat s) lines) s 0) in *.
    assert (Hcs' : Forall P (if e =? s then cs
                             else (cs ++ [ window lines s e ])%list)).
    { destruct (Z.eqb_spec e s); [done|].
      apply Forall_app. split; [done|].
      apply Forall_singleton, Hwin; [done|]. fold e. lia. }
    destruct (e >=? Js.len lines); [done|]. split; [lia|done]. }
  apply (chunk_loop_rule lines maxC ovl
           (fun s cs => 0 <= s /\ Forall P cs) (Forall P)); [| | |done].
  - by intros s cs [_ H] _.
  - intros s cs cs' [Hs H] Hlt Hit.
    pose proof (Hstep s cs (conj Hs Hlt) H) as Hg. by rewrite Hit in Hg.
  - intros s cs s' cs' [Hs H] Hlt Hit.
    pose proof (Hstep s cs (conj Hs Hlt) H) as Hg. by rewrite Hit in Hg.
Qed.

(** X2.  The text of every chunk is shorter than [maxChars]: its length
    plus one is at most the budget. *)
Theorem chunk_text_within_budget (text : string) (o : options) (c : Chunk.t) :
  c ∈ chunkFileContent text o ->
  Js.strlen (Chunk.text c) + 1 <= maxChars_of o.
Proof.
  intros Hc.
  assert (Hall : Forall (fun c => Js.strlen (Chunk.text c) + 1 <= maxChars_of o)
            (chunkFileContent text o)).
  { eapply chunk_loop_windows; [| | |apply chunkFileContent_run];
      [|lia|constructor].
    intros start Hstart He. apply window_within_budget; lia. }
  rewrite Forall_forall in Hall. by apply Hall.
Qed.

Lemma chunk_text_within_budget_witness :
  Chunk.mk ("cd" ++ nl ++ "e") 1 2 ∈ chunkFileContent five_lines tight
  /\ Js.strlen ("cd" ++ nl ++ "e") + 1 <= 6.
Proof.
  assert (Hin : Chunk.mk ("cd" ++ nl ++ "e") 1 2 ∈ chunkFileContent five_lines tight).
  { vm_compute. do 2 constructor. }
  split; [exact Hin|].
  exact (chunk_text_within_budget five_lines tight _ Hin).
Defined.

(** X3.  A text whose lines all fit the budget together, each counted with
    one separator, becomes exactly one chunk: all its lines, from line 0 to
    the last one, joined by line feeds. *)
Theorem text_within_budget_is_one_chunk (text : string) (o : options) :
  total_size (Js.split_lines text) <= maxChars_of o ->
  chunkFileContent text o
  = [ Chunk.mk (Js.join_lines (Js.split_lines text)) 0
        (Js.len (Js.split_lines text) - 1) ].
Proof.
  intros Hfit. unfold chunkFileContent, chunkFileContent_fuel.
  pose proof (split_lines_nonempty text) as Hne.
  set (lines := Js.split_lines text) in *.
  assert (Hlen : 0 < Js.len lines).
  { unfold Js.len. destruct lines; [done|]. cbn. lia. }
  cbn [chunk_loop].
  destruct (Z.ltb_spec 0 (Js.len lines)) as [_|]; [|lia].
  destruct (iteration_window lines (maxChars_of o) (overlap_of o) 0 []) as [_ ->];
    [lia|].
  cbn zeta. change (drop (Z.to_nat 0) lines) with lines.
  rewrite pack_takes_all by lia. rewrite Z.add_0_l.
  destruct (Z.eqb_spec (Js.len lines) 0); [lia|].
  destruct (Z.geb_spec (Js.len lines) (Js.len lines)); [|lia].
  cbn [default app]. unfold window, lines_between.
  change (drop (Z.to_nat 0) lines) with lines.
  rewrite take_ge by (unfold Js.len; lia). done.
Qed.

Lemma text_within_budget_is_one_chunk_witness :
  total_size (Js.split_lines three_lines) <= maxChars_of tight
  /\ chunkFileContent three_lines tight = [ Chunk.mk three_lines 0 2 ].
Proof.
  assert (Hfit : total_size (Js.split_lines three_lines) <= maxChars_of tight)
    by (vm_compute; discriminate).
  split; [exact Hfit|].
  exact (text_within_budget_is_one_chunk three_lines tight Hfit).
Defined.

(** ** The order of the chunks *)

Section ChunkOrder.

Variables (lines : list string) (maxC ovl : Z).

Lemma in_file_order_snoc chunks x :
  in_file_order chunks ->
  (forall c, last chunks = Some c -> follows c x) ->
  in_file_order (chunks ++ [ x ]).
Proof.
  intros Hord Hlast i c c' Hc Hc'.
  destruct (decide (S i < length chunks)%nat) as [Hlt|Hge].
  - rewrite lookup_app_l in Hc, Hc' by lia. by apply (Hord i).
  - assert (Hi : i = pred (length chunks)).
    { apply lookup_lt_Some in Hc'. rewrite length_app in Hc'. cbn in Hc'. lia. }
    assert (Hpos : (0 < length chunks)%nat).
    { apply lookup_lt_Some in Hc, Hc'. rewrite length_app in *. cbn in *.
      destruct chunks; cbn in *; [|lia]. subst i. cbn in Hc'. lia. }
    rewrite lookup_app_l in Hc by lia.
    rewrite lookup_app_r in Hc' by lia.
    replace (S i - length chunks)%nat with 0%nat in Hc' by lia.
    injection Hc' as <-. apply Hlast. by rewrite last_lookup, <- Hi.
Qed.

Lemma iteration_ordered start chunks :
  start < Js.len lines ->
  ordered_upto start chunks ->
  match iteration lines maxC ovl start chunks with
  | Break cs => in_file_order cs
  | Next s' cs => ordered_upto s' cs
  end.
Proof.
  intros Hlt (Hstart & Hord & Hlast).
  destruct (iteration_window lines maxC ovl start chunks (conj Hstart Hlt))
    as [He ->].
  cbn zeta.
  set (e := pack maxC (drop (Z.to_nat start) lines) start 0) in *.
  assert (Hpush : in_file_order (chunks ++ [ window lines start e ])).
  { apply in_file_order_snoc; [done|]. intros c Hc.
    destruct (Hlast c Hc). split; cbn; lia. }
  destruct (Z.geb_spec e (Js.len lines)) as [Hend|Hmore];
    destruct (Z.eqb_spec e start) as [Heq|Hne]; try done.
  - split; [lia|]. split; [done|]. intros c Hc. destruct (Hlast c Hc). lia.
  - split; [lia|]. split; [done|]. intros c Hc.
    rewrite last_snoc in Hc. injection Hc as <-. cbn. lia.
Qed.

Lemma chunk_loop_ordered fuel start chunks r :
  ordered_upto start chunks ->
  chunk_loop fuel lines maxC ovl start chunks = Some r ->
  in_file_order r.
Proof.
  apply (chunk_loop_rule lines maxC ovl ordered_upto in_file_order).
  - by intros s cs (_ & H & _) _.
  - intros s cs cs' Hinv Hlt Hit.
    pose proof (iteration_ordered s cs Hlt Hinv) as H. by rewrite Hit in H.
  - intros s cs s' cs' Hinv Hlt Hit.
    pose proof (iteration_ordered s cs Hlt Hinv) as H. by rewrite Hit in H.
Qed.

End ChunkOrder.

(** X4.  The chunks come in file order, whatever the configuration: each
    chunk starts on a later line than the chunk before it, and at most two
    lines before the last line of that chunk, so that two successive chunks
    share at most three lines. *)
Theorem chunks_are_in_file_order (text : string) (o : options) :
  in_file_order (chunkFileContent text o).
Proof.
  eapply chunk_loop_ordered; [|apply chunkFileContent_run].
  split; [lia|]. split.
  - intros i c c' Hc. by rewrite lookup_nil in Hc.
  - intros c Hc. discriminate.
Qed.

Lemma chunks_are_in_file_order_witness :
  chunkFileContent five_lines tight !! 0%nat = Some (Chunk.mk ("ab" ++ nl ++ "cd") 0 1)
  /\ chunkFileContent five_lines tight !! 1%nat = Some (Chunk.mk ("cd" ++ nl ++ "e") 1 2)
  /\ follows (Chunk.mk ("ab" ++ nl ++ "cd") 0 1) (Chunk.mk ("cd" ++ nl ++ "e") 1 2).
Proof.
  split; [reflexivity|]. split; [reflexivity|].
  exact (chunks_are_in_file_order five_lines tight 0%nat _ _ eq_refl eq_refl).
Defined.

(** ** The deltas of a scan *)

Section Deltas.

Implicit Types (files old : list File.t) (f : File.t).

Lemma hash_map_snoc files f :
  hash_map (files ++ [ f ]) = <[ File.path f := File.hash f ]> (hash_map files).
Proof. unfold hash_map. by rewrite foldl_snoc. Qed.

(** A path is a key of the map exactly when a file has it. *)
Lemma hash_map_none files p :
  hash_map files !! p = None <-> p ∉ map File.path files.
Proof.
  induction files as [|f files IH] using rev_ind.
  - cbn. rewrite lookup_empty. split; [intros _; apply not_elem_of_nil|done].
  - rewrite hash_map_snoc, map_app, lookup_insert. cbn [map].
    destruct (decide (File.path f = p)) as [<-|Hne].
    + split; [done|]. intros H. exfalso. apply H, elem_of_app. right. left.
    + rewrite IH. split.
      * intros H [Hin|Hin%list_elem_of_singleton]%elem_of_app; [done|]. by subst.
      * intros H Hin. apply H, elem_of_app. by left.
Qed.

(** With one file for each path, the map gives each file its hash. *)
Lemma hash_map_some files f :
  NoDup (map File.path files) -> f ∈ files ->
  hash_map files !! File.path f = Some (File.hash f).
Proof.
  induction files as [|g files IH] using rev_ind; intros Hnd Hin.
  - by apply elem_of_nil in Hin.
  - rewrite hash_map_snoc, lookup_insert.
    rewrite map_app in Hnd. cbn [map] in Hnd.
    apply NoDup_app in Hnd as (Hnd & Hdisj & _).
    apply elem_of_app in Hin as [Hin|Hin%list_elem_of_singleton].
    + destruct (decide (File.path g = File.path f)) as [Heq|Hne]; [|by apply IH].
      exfalso. apply (Hdisj (File.path f)).
      * apply list_elem_of_fmap. by exists f.
      * rewrite <- Heq. left.
    + subst g. by rewrite decide_True.
Qed.

(** The loops, with what they had pushed before. *)
Lemma diff_files_spec prevMap files : forall added changed f,
  (f ∈ fst (diff_files prevMap files added changed) <->
     f ∈ added \/ (f ∈ files /\ prevMap !! File.path f = None))
  /\ (f ∈ snd (diff_files prevMap files added changed) <->
        f ∈ changed
        \/ (f ∈ files /\ exists h, prevMap !! File.path f = Some h
                                    /\ h <> File.hash f)).
Proof.
  induction files as [|g files IH]; intros added changed f; cbn [diff_files].
  - cbn. split; (split; [by left|]); intros [?|[[]%elem_of_nil _]]; done.
  - destruct (prevMap !! File.path g) as [h|] eqn:Hg.
    + destruct (String.eqb_spec h (File.hash g)) as [Heq|Hne]; cbn [negb].
      * destruct (IH added changed f) as [IH1 IH2]. rewrite IH1, IH2.
        split; (split; intros [?|[Hin H]]; [by left| |by left|]).
        -- right. split; [by right|done].
        -- apply elem_of_cons in Hin as [->|Hin]; [congruence|]. by right.
        -- right. split; [by right|done].
        -- apply elem_of_cons in Hin as [->|Hin]; [|by right].
           destruct H as (h' & Hh' & Hd). congruence.
      * destruct (IH added (changed ++ [ g ])%list f) as [IH1 IH2].
        rewrite IH1, IH2, elem_of_app, list_elem_of_singleton.
        split; (split; intros [?|[Hin H]]).
        -- by left.
        -- right. split; [by right|done].
        -- by left.
        -- apply elem_of_cons in Hin as [->|Hin]; [congruence|]. by right.
        -- destruct H as [?| ->]; [by left|]. right. split; [left|]. eauto.
        -- right. split; [by right|done].
        -- left. by left.
        -- apply elem_of_cons in Hin as [->|Hin]; [left; by right|].
           right. by split.
    + destruct (IH (added ++ [ g ])%list changed f) as [IH1 IH2].
      rewrite IH1, IH2, elem_of_app, list_elem_of_singleton.
      split; (split; intros [?|[Hin H]]).
      * destruct H as [?| ->]; [by left|]. right. split; [left|done].
      * right. split; [by right|done].
      * left. by left.
      * apply elem_of_cons in Hin as [->|Hin]; [left; by right|]. right. by split.
      * by left.
      * right. split; [by right|done].
      * by left.
      * apply elem_of_cons in Hin as [->|Hin]; [|by right].
        destruct H as (h' & Hh' & _). congruence.
Qed.

Lemma diff_removed_spec currentMap old : forall removed p,
  p ∈ diff_removed currentMap old removed <->
  p ∈ removed \/ (p ∈ map File.path old /\ currentMap !! p = None).
Proof.
  induction old as [|pf old IH]; intros removed p; cbn [diff_removed map].
  - split; [by left|]. intros [?|[[]%elem_of_nil _]]. done.
  - destruct (currentMap !! File.path pf) as [h|] eqn:Hpf; rewrite IH.
    + split; intros [?|[Hin H]]; [by left| |by left|].
      * right. split; [by right|done].
      * apply elem_of_cons in Hin as [->|Hin]; [congruence|]. by right.
    + rewrite elem_of_app, list_elem_of_singleton.
      split; intros [?|[Hin H]].
      * destruct H as [?| ->]; [by left|]. right. split; [left|done].
      * right. split; [by right|done].
      * left. by left.
      * apply elem_of_cons in Hin as [->|Hin]; [left; by right|]. right. by split.
Qed.

Lemma diff_files_sublists prevMap files : forall added changed,
  (exists more, fst (diff_files prevMap files added changed) = added ++ more
                /\ more `sublist_of` files)%list
  /\ (exists more, snd (diff_files prevMap files added changed) = changed ++ more
                   /\ more `sublist_of` files)%list.
Proof.
  induction files as [|g files IH]; intros added changed; cbn [diff_files].
  - split; exists []; by rewrite app_nil_r.
  - destruct (prevMap !! File.path g) as [h|].
    + destruct (negb _).
      * destruct (IH added (changed ++ [ g ])%list)
          as [(m1 & -> & H1) (m2 & -> & H2)].
        split; [exists m1; split; [done|by apply sublist_cons]|].
        exists (g :: m2). rewrite <- app_assoc. split; [done|by apply sublist_skip].
      * destruct (IH added changed) as [(m1 & -> & H1) (m2 & -> & H2)].
        split; [exists m1|exists m2]; (split; [done|by apply sublist_cons]).
    + destruct (IH (added ++ [ g ])%list changed)
        as [(m1 & -> & H1) (m2 & -> & H2)].
      split; [|exists m2; split; [done|by apply sublist_cons]].
      exists (g :: m1). rewrite <- app_assoc. split; [done|by apply sublist_skip].
Qed.

End Deltas.

(** X5.  The deltas of a scan.  A file is added when no previous file has
    its path; it is changed when the previous hash recorded for its path,
    the last one if there are several, differs from its own; a path is
    removed when a previous file has it and no scanned file does.  The added
    and the changed files keep the order of the scan.  With one previous
    file for each path, a file is changed exactly when the previous file of
    its path has another hash. *)
Theorem delta_of_a_scan (prev : option (list File.t)) (files : list File.t) :
  (forall f, f ∈ addedFiles (diff prev files) <->
     f ∈ files /\ File.path f ∉ map File.path (default [] prev))
  /\ (forall f, f ∈ changedFiles (diff prev files) <->
        f ∈ files
        /\ exists h, hash_map (default [] prev) !! File.path f = Some h
                     /\ h <> File.hash f)
  /\ (forall p, p ∈ removedFiles (diff prev files) <->
        p ∈ map File.path (default [] prev) /\ p ∉ map File.path files)
  /\ addedFiles (diff prev files) `sublist_of` files
  /\ changedFiles (diff prev files) `sublist_of` files
  /\ (NoDup (map File.path (default [] prev)) ->
      forall f, f ∈ changedFiles (diff prev files) <->
        f ∈ files
        /\ exists pf, pf ∈ default [] prev /\ File.path pf = File.path f
                      /\ File.hash pf <> File.hash f).
Proof.
  unfold diff.
  pose proof (diff_files_spec (hash_map (default [] prev)) files [] []) as Hspec.
  pose proof (diff_files_sublists (hash_map (default [] prev)) files [] [])
    as [(m1 & Hm1 & Hs1) (m2 & Hm2 & Hs2)].
  destruct (diff_files (hash_map (default [] prev)) files [] [])
    as [added changed]. cbn [fst snd] in *. cbn [addedFiles changedFiles removedFiles].
  assert (Hchanged : forall f, f ∈ changed <->
            f ∈ files
            /\ exists h, hash_map (default [] prev) !! File.path f = Some h
                         /\ h <> File.hash f).
  { intros f. destruct (Hspec f) as [_ ->].
    split; [intros [[]%elem_of_nil|H]|intros H]; [done|by right]. }
  split; [|split; [done|split; [|split; [|split]]]].
  - intros f. destruct (Hspec f) as [-> _]. rewrite hash_map_none.
    split; [intros [[]%elem_of_nil|H]|intros H]; [done|by right].
  - intros p. destruct prev as [old|]; cbn [default].
    + rewrite diff_removed_spec, hash_map_none.
      split; [intros [[]%elem_of_nil|H]|intros H]; [done|by right].
    + cbn. split; [intros []%elem_of_nil|intros [[]%elem_of_nil _]].
  - by subst added.
  - by subst changed.
  - intros Hnd f. rewrite Hchanged. split; intros [Hf H]; (split; [done|]).
    + destruct H as (h & Hh & Hne).
      assert (Hin : File.path f ∈ map File.path (default [] prev)).
      { destruct (decide (File.path f ∈ map File.path (default [] prev)))
          as [|Hnot]; [done|].
        apply hash_map_none in Hnot. congruence. }
      apply list_elem_of_fmap in Hin as (pf & Hpath & Hpf).
      exists pf. split; [done|]. split; [done|].
      pose proof (hash_map_some _ pf Hnd Hpf) as Hsome.
      rewrite <- Hpath in Hsome. congruence.
    + destruct H as (pf & Hpf & Hpath & Hne).
      exists (File.hash pf). split; [|done].
      rewrite <- Hpath. by apply hash_map_some.
Qed.

Lemma delta_of_a_scan_witness :
  NoDup (map File.path two_files)
  /\ (File.mk "b.js" 1 "h9" ∈ changedFiles (diff (Some two_files) rescan)
      <-> File.mk "b.js" 1 "h9" ∈ rescan
          /\ exists pf, pf ∈ two_files /\ File.path pf = "b.js"
                        /\ File.hash pf <> "h9").
Proof.
  assert (Hnd : NoDup (map File.path two_files)).
  { cbn. repeat constructor; cbn; intros H;
      repeat (apply elem_of_cons in H as [H|H]; [discriminate|]);
      by apply elem_of_nil in H. }
  split; [exact Hnd|].
  destruct (delta_of_a_scan (Some two_files) rescan)
    as (_ & _ & _ & _ & _ & Hchanged).
  exact (Hchanged Hnd (File.mk "b.js" 1 "h9")).
Defined.

Section DeltaCases.

Implicit Types (files old : list File.t).

Lemma diff_files_fresh files : forall added changed,
  diff_files ∅ files added changed = ((added ++ files)%list, changed).
Proof.
  induction files as [|f files IH]; intros added changed; cbn [diff_files].
  - by rewrite app_nil_r.
  - rewrite lookup_empty, IH. by rewrite <- app_assoc.
Qed.

Lemma diff_files_same prevMap files : forall added changed,
  (forall f, f ∈ files -> prevMap !! File.path f = Some (File.hash f)) ->
  diff_files prevMap files added changed = (added, changed).
Proof.
  induction files as [|f files IH]; intros added changed Hsame;
    cbn [diff_files]; [done|].
  rewrite (Hsame f) by left. rewrite String.eqb_refl. cbn [negb].
  apply IH. intros g Hg. apply Hsame. by right.
Qed.

Lemma diff_removed_none currentMap old : forall removed,
  (forall pf, pf ∈ old -> File.path pf ∈ dom currentMap) ->
  diff_removed currentMap old removed = removed.
Proof.
  induction old as [|pf old IH]; intros removed Hall; cbn [diff_removed]; [done|].
  destruct (currentMap !! File.path pf) eqn:Hpf.
  - apply IH. intros g Hg. apply Hall. by right.
  - exfalso. apply (not_elem_of_dom currentMap (File.path pf)) in Hpf.
    apply Hpf, Hall. left.
Qed.

End DeltaCases.

(** X6.  Without a previous manifest, or with one that lists no file, every
    scanned file is added, in the order of the scan, and nothing is changed
    or removed. *)
Theorem first_scan_adds_everything (files : list File.t) :
  diff None files
  = {| addedFiles := files; changedFiles := []; removedFiles := [] |}
  /\ diff (Some []) files
     = {| addedFiles := files; changedFiles := []; removedFiles := [] |}.
Proof.
  unfold diff.
  change (hash_map (default [] None)) with (∅ : gmap string string).
  change (hash_map (default [] (Some []))) with (∅ : gmap string string).
  rewrite diff_files_fresh. split; reflexivity.
Qed.

Lemma diff_same_files (old files : list File.t) :
  NoDup (map File.path old) ->
  files ≡ₚ old ->
  diff (Some old) files
  = {| addedFiles := []; changedFiles := []; removedFiles := [] |}.
Proof.
  intros Hnd Hperm. unfold diff.
  change (default [] (Some old)) with old.
  rewrite diff_files_same.
  - rewrite diff_removed_none; [done|].
    intros pf Hpf. apply elem_of_dom.
    destruct (hash_map files !! File.path pf) eqn:Hnone; [by eexists|].
    apply hash_map_none in Hnone. exfalso. apply Hnone.
    apply list_elem_of_fmap. exists pf. split; [done|]. by rewrite Hperm.
  - intros f Hf. apply hash_map_some; [done|]. by rewrite <- Hperm.
Qed.

(** X7.  A scan that finds the files of the previous manifest again, in any
    order, with one file for each path, has no delta: nothing is added,
    changed or removed. *)
Theorem unchanged_scan_has_no_delta (old files : list File.t) :
  NoDup (map File.path old) ->
  files ≡ₚ old ->
  diff (Some old) files
  = {| addedFiles := []; changedFiles := []; removedFiles := [] |}.
Proof. apply diff_same_files. Qed.

Lemma unchanged_scan_has_no_delta_witness :
  NoDup (map File.path two_files)
  /\ diff (Some two_files) (reverse two_files)
     = {| addedFiles := []; changedFiles := []; removedFiles := [] |}.
Proof.
  assert (Hnd : NoDup (map File.path two_files)).
  { cbn. repeat constructor; cbn; intros H;
      repeat (apply elem_of_cons in H as [H|H]; [discriminate|]);
      by apply elem_of_nil in H. }
  split; [exact Hnd|].
  exact (unchanged_scan_has_no_delta two_files (reverse two_files) Hnd
           (Permutation_swap _ _ _)).
Defined.

(** ** A refresh of the index *)

Section Refresh.

Variable env : Env.
Variables root model : string.

Lemma entries_of_drop index paths p :
  entries_of p (dropFilesFromIndex index paths)
  = if decide (p ∈ paths) then [] else entries_of p index.
Proof.
  unfold entries_of. rewrite dropFilesFromIndex_chunks, list_filter_filter.
  destruct (decide (p ∈ paths)) as [Hin|Hnot].
  - apply filter_none, Forall_forall. intros c _ [-> H]. done.
  - apply list_filter_iff. intros c. split; [by intros [? _]|].
    intros ->. done.
Qed.

(** [embedFile] leaves the entries of the other paths alone. *)
Lemma embedFile_other_path file index p :
  p <> File.path file ->
  entries_of p (fst (embedFile env root file model index)) = entries_of p index.
Proof.
  intros Hne. rewrite embedFile_cases.
  destruct (readFileSync env _) as [rawText|]; [|done]. cbn zeta.
  destruct (falsy _); [done|].
  destruct (_ =? 0); [done|].
  destruct (embedTexts env model _) as [e|vectors]; [done|].
  unfold entries_of. cbn [fst Index.chunks].
  rewrite filter_app, list_filter_filter.
  rewrite (filter_none _ (new_entries _ _ _ _ _)).
  - rewrite app_nil_r. apply list_filter_iff. intros c.
    split; [by intros [? _]|]. intros ->. done.
  - eapply Forall_impl; [apply new_entries_of_file|]. intros c [H _] Hp. congruence.
Qed.

Lemma process_files_other_paths toProcess : forall total index p,
  p ∉ map File.path toProcess ->
  entries_of p (fst (process_files env root model toProcess total index))
  = entries_of p index.
Proof.
  induction toProcess as [|f rest IH]; intros total index p Hp; [done|].
  cbn [process_files]. unfold bind at 1.
  cbn [map] in Hp.
  assert (Hf : p <> File.path f) by (intros ->; apply Hp; left).
  assert (Hrest : p ∉ map File.path rest) by (intros H; apply Hp; by right).
  pose proof (embedFile_other_path f index p Hf) as Hstep.
  unfold try_catch, bind, ret.
  destruct (embedFile env root f model index) as [index1 [e|added]];
    cbn [fst] in Hstep; rewrite IH by done; exact Hstep.
Qed.

(** A removed path is the path of no file that is processed. *)
Lemma removed_not_processed prev files p :
  p ∈ removedFiles (diff prev files) ->
  p ∉ map File.path (addedFiles (diff prev files) ++ changedFiles (diff prev files)).
Proof.
  unfold diff.
  pose proof (diff_files_spec (hash_map (default [] prev)) files [] []) as Hspec.
  destruct (diff_files (hash_map (default [] prev)) files [] [])
    as [added changed]. cbn [fst snd] in Hspec.
  cbn [addedFiles changedFiles removedFiles].
  intros Hp Hin.
  assert (Hnot : p ∉ map File.path files).
  { destruct prev as [old|]; [|by apply elem_of_nil in Hp].
    apply diff_removed_spec in Hp as [[]%elem_of_nil|[_ Hp]].
    by apply hash_map_none. }
  apply Hnot. apply list_elem_of_fmap in Hin as (f & -> & Hf).
  apply list_elem_of_fmap. exists f. split; [done|].
  destruct (Hspec f) as [H1 H2].
  apply elem_of_app in Hf as [Hf|Hf].
  - apply H1 in Hf as [[]%elem_of_nil|[Hf _]]. done.
  - apply H2 in Hf as [[]%elem_of_nil|[Hf _]]. done.
Qed.

Lemma update_index_run removedFiles added changed index :
  update_index env root model removedFiles added changed index
  = process_files env root model (added ++ changed) 0
      (dropFilesFromIndex index removedFiles).
Proof.
  unfold update_index, bind, modify, ret, dropFilesFromIndex.
  by destruct (Js.len removedFiles =? 0).
Qed.

End Refresh.

(** X8.  A refresh of the index (the deltas of a scan, then pruning, then
    embedding) never throws; afterwards the index holds no entry of a removed
    path, and the entries of every path that is neither removed nor the path
    of an added or changed file are the ones it had. *)
Theorem refresh_prunes_and_preserves
    (env : Env) (root model : string) (prev : option (list File.t))
    (files : list File.t) (index : Index.t) :
  (exists total,
      snd (refresh env root model prev files index) = inr total)
  /\ (forall p, p ∈ removedFiles (diff prev files) ->
        entries_of p (fst (refresh env root model prev files index)) = [])
  /\ (forall p,
        p ∉ removedFiles (diff prev files) ->
        p ∉ map File.path (addedFiles (diff prev files)
                           ++ changedFiles (diff prev files)) ->
        entries_of p (fst (refresh env root model prev files index))
        = entries_of p index).
Proof.
  unfold refresh. rewrite update_index_run.
  split; [|split].
  - destruct (process_files_returns env root model
                (addedFiles (diff prev files) ++ changedFiles (diff prev files))
                0 (dropFilesFromIndex index (removedFiles (diff prev files))))
      as (index' & total & ->).
    by exists total.
  - intros p Hp.
    rewrite process_files_other_paths by (by apply removed_not_processed).
    by rewrite entries_of_drop, decide_True.
  - intros p Hrem Hproc.
    rewrite process_files_other_paths by done.
    by rewrite entries_of_drop, decide_False.
Qed.

Lemma refresh_prunes_and_preserves_witness :
  "b.js" ∈ removedFiles (diff (Some two_files) [ File.mk "a.js" 1 "h1" ])
  /\ entries_of "b.js"
       (fst (refresh two_line_env "repo" "m" (Some two_files)
               [ File.mk "a.js" 1 "h1" ] b_index))
     = [].
Proof.
  assert (Hin : "b.js" ∈ removedFiles (diff (Some two_files) [ File.mk "a.js" 1 "h1" ])).
  { vm_compute. constructor. }
  split; [exact Hin|].
  exact (proj1 (proj2 (refresh_prunes_and_preserves two_line_env "repo" "m"
                         (Some two_files) [ File.mk "a.js" 1 "h1" ] b_index))
           "b.js" Hin).
Defined.

(** X9.  A refresh after a scan that finds the files of the previous
    manifest again, with one file for each path, leaves the index as it is
    and embeds nothing. *)
Theorem unchanged_refresh_is_a_no_op
    (env : Env) (root model : string) (old files : list File.t)
    (index : Index.t) :
  NoDup (map File.path old) ->
  files ≡ₚ old ->
  refresh env root model (Some old) files index = (index, inr 0).
Proof.
  intros Hnd Hperm. unfold refresh. by rewrite diff_same_files.
Qed.

Lemma unchanged_refresh_is_a_no_op_witness :
  NoDup (map File.path two_files)
  /\ refresh down_env "repo" "m" (Some two_files) (reverse two_files) stale_index
     = (stale_index, inr 0).
Proof.
  assert (Hnd : NoDup (map File.path two_files)).
  { cbn. repeat constructor; cbn; intros H;
      repeat (apply elem_of_cons in H as [H|H]; [discriminate|]);
      by apply elem_of_nil in H. }
  split; [exact Hnd|].
  exact (unchanged_refresh_is_a_no_op down_env "repo" "m" two_files
           (reverse two_files) stale_index Hnd (Permutation_swap _ _ _)).
Defined.

(** ** What the service returns *)

Section Embeddings.

Variable env : Env.
Variable model : string.

Lemma embedTexts_ok texts : forall vectors,
  embedTexts env model texts = inr vectors <->
  Forall2 (fun t v => embedText env model t = inr v) texts vectors.
Proof.
  induction texts as [|t texts IH]; intros vectors; cbn [embedTexts].
  - split; [intros [= <-]; constructor|]. by intros ->%Forall2_nil_inv_l.
  - destruct (embedText env model t) as [e|v] eqn:Ht.
    + split; [done|]. intros (v & vs & Hv & _ & _)%Forall2_cons_inv_l. congruence.
    + destruct (embedTexts env model texts) as [e|vs].
      * split; [done|]. intros (v' & vs' & _ & Hvs & _)%Forall2_cons_inv_l.
        by apply IH in Hvs.
      * split.
        -- intros [= <-]. constructor; [done|]. by apply IH.
        -- intros (v' & vs' & Hv & Hvs & ->)%Forall2_cons_inv_l.
           apply IH in Hvs. congruence.
Qed.

Lemma embedTexts_first_failure texts : forall e,
  embedTexts env model texts = inl e ->
  exists before t after,
    texts = (before ++ t :: after)%list
    /\ Forall (fun t' => exists v, embedText env model t' = inr v) before
    /\ embedText env model t = inl e.
Proof.
  induction texts as [|t texts IH]; intros e; cbn [embedTexts]; [done|].
  destruct (embedText env model t) as [e'|v] eqn:Ht.
  - intros [= <-]. exists [], t, texts. repeat split; [constructor|done].
  - destruct (embedTexts env model texts) as [e'|vs]; [|done].
    intros [= <-]. destruct (IH e' eq_refl) as (before & t' & after & -> & Hb & Ht').
    exists (t :: before), t', after. repeat split; [|done].
    constructor; [by exists v|done].
Qed.

End Embeddings.

(** X10.  [embedTexts] returns one vector for each text, in the order of the
    texts, each the embedding the service gave for that text, exactly when
    every request succeeds; when it throws, it throws the error of the first
    request that fails, all the requests before it having succeeded. *)
Theorem embedTexts_all_or_first_failure
    (env : Env) (model : string) (texts : list string) :
  (forall vectors,
      embedTexts env model texts = inr vectors <->
      Forall2 (fun t v => embeddings_api env model t = Json (Some v))
        texts vectors)
  /\ (forall e,
        embedTexts env model texts = inl e ->
        exists before t after,
          texts = (before ++ t :: after)%list
          /\ Forall (fun t' => exists v,
                       embeddings_api env model t' = Json (Some v)) before
          /\ embedText env model t = inl e).
Proof.
  assert (Hone : forall t v, embedText env model t = inr v <->
                   embeddings_api env model t = Json (Some v)).
  { intros t v. unfold embedText.
    destruct (embeddings_api env model t) as [| |[v'|]]; split; congruence. }
  split.
  - intros vectors. rewrite embedTexts_ok.
    split; intros H; (eapply Forall2_impl; [exact H|]); intros t v; apply Hone.
  - intros e He.
    destruct (embedTexts_first_failure env model texts e He)
      as (before & t & after & -> & Hb & Ht).
    exists before, t, after. repeat split; [|done].
    eapply Forall_impl; [exact Hb|]. intros t' [v Hv]. exists v. by apply Hone.
Qed.

Lemma embedTexts_all_or_first_failure_witness :
  embedTexts down_env "m" [ "a"; "b" ] = inl (ApiFailed 500 "down")
  /\ exists before t after,
       [ "a"; "b" ] = (before ++ t :: after)%list
       /\ Forall (fun t' => exists v,
                    embeddings_api down_env "m" t' = Json (Some v)) before
       /\ embedText down_env "m" t = inl (ApiFailed 500 "down").
Proof.
  split; [reflexivity|].
  exact (proj2 (embedTexts_all_or_first_failure down_env "m" [ "a"; "b" ])
           (ApiFailed 500 "down") eq_refl).
Defined.

(** ** The fresh entries of a file *)

Section FreshEntries.

Variable env : Env.

Lemma new_entries_chunks file vectors rest : forall (k : nat) vs,
  take (length rest) (drop k vectors) = vs ->
  length vs = length rest ->
  Forall3 entry_of_chunk (new_entries env file vectors (Z.of_nat k) rest) rest vs.
Proof.
  induction rest as [|c rest IH]; intros k vs Hvs Hlen; cbn [new_entries].
  - destruct vs; [constructor|discriminate].
  - destruct vs as [|v vs]; [discriminate|].
    cbn [length] in *.
    destruct (drop k vectors) as [|v' rest'] eqn:Hdrop; [discriminate|].
    cbn [take] in Hvs. injection Hvs as -> Hvs.
    constructor.
    + repeat split. cbn [Entry.vector]. rewrite Nat2Z.id.
      pose proof (lookup_drop vectors k 0) as Hl.
      rewrite Hdrop, Nat.add_0_r in Hl. by rewrite <- Hl.
    + replace (Z.of_nat k + 1) with (Z.of_nat (S k)) by lia.
      apply IH; [|lia].
      replace (drop (S k) vectors) with rest'; [done|].
      replace (S k) with (k + 1)%nat by lia.
      by rewrite <- (drop_drop vectors 1 k), Hdrop.
Qed.

End FreshEntries.

(** [embedFile] on a file that embeds. *)
Lemma embedFile_of_embeds env root model file chunks vectors index :
  embeds env root model file chunks vectors ->
  embedFile env root file model index
  = (Index.mk (Index.version index)
       (filter (fun c => Entry.path c ≠ File.path file) (Index.chunks index)
        ++ new_entries env file vectors 0 chunks)%list,
     inr (Js.len chunks))
  /\ Forall3 entry_of_chunk (new_entries env file vectors 0 chunks) chunks vectors.
Proof.
  intros (rawText & Hread & Hblank & -> & Hne & Hvec).
  rewrite embedFile_cases, Hread. cbn zeta. rewrite Hblank.
  destruct (Z.eqb_spec (Js.len (chunkFileContent (sanitizeText env rawText)
                                  no_options)) 0) as [H0|_].
  { destruct (chunkFileContent _ _); [done|]. unfold Js.len in H0. cbn in H0. lia. }
  rewrite Hvec. split; [done|].
  apply embedTexts_ok in Hvec. apply Forall2_length in Hvec.
  rewrite length_map in Hvec.
  apply (new_entries_chunks env file vectors _ 0%nat).
  - rewrite drop_0. apply take_ge. lia.
  - lia.
Qed.

(** X11.  When [embedFile] upserts a file, the entries of its path are, in
    the order of the chunks of its sanitized text, the line ranges of those
    chunks, each with the embedding the service returned for the text of the
    chunk; the number it returns is the number of these entries. *)
Theorem fresh_entries_are_the_chunks
    (env : Env) (root model : string) (file : File.t)
    (chunks : list Chunk.t) (vectors : list vector) (index : Index.t) :
  embeds env root model file chunks vectors ->
  Forall3 entry_of_chunk
    (entries_of (File.path file) (fst (embedFile env root file model index)))
    chunks vectors
  /\ snd (embedFile env root file model index) = inr (Js.len chunks).
Proof.
  intros He.
  destruct (embedFile_of_embeds env root model file chunks vectors index He)
    as [-> Hall].
  cbn [fst snd]. by rewrite entries_after_upsert.
Qed.

Lemma fresh_entries_are_the_chunks_witness :
  embeds two_line_env "repo" "m" demo_file
    [ Chunk.mk ("a" ++ nl ++ "b") 0 1 ] [ [ 1%Q ] ]
  /\ snd (embedFile two_line_env "repo" demo_file "m" stale_index) = inr 1.
Proof.
  assert (He : embeds two_line_env "repo" "m" demo_file
                 [ Chunk.mk ("a" ++ nl ++ "b") 0 1 ] [ [ 1%Q ] ]).
  { exists ("a" ++ nl ++ "b"). repeat split; try reflexivity. discriminate. }
  split; [exact He|].
  exact (proj2 (fresh_entries_are_the_chunks two_line_env "repo" "m" demo_file
                  _ _ stale_index He)).
Defined.

(** ** The outcome of the loop for one file *)

Section LoopOutcome.

Variable env : Env.
Variables root model : string.

(** The entries of the path of [f] once the loop has run over [f] and the
    files after it, none of which has the path of [f]. *)
Lemma process_files_from f post total index :
  File.path f ∉ map File.path post ->
  entries_of (File.path f)
    (fst (process_files env root model (f :: post) total index))
  = entries_of (File.path f) (fst (embedFile env root f model index)).
Proof.
  intros Hpost. cbn [process_files]. unfold bind at 1. unfold try_catch, bind, ret.
  destruct (embedFile env root f model index) as [index1 [e|added]];
    cbn [fst]; by rewrite process_files_other_paths.
Qed.

Lemma process_files_at pre f post total index :
  NoDup (map File.path (pre ++ f :: post)) ->
  exists index1,
    entries_of (File.path f) index1 = entries_of (File.path f) index
    /\ entries_of (File.path f)
         (fst (process_files env root model (pre ++ f :: post) total index))
       = entries_of (File.path f) (fst (embedFile env root f model index1)).
Proof.
  rewrite map_app. cbn [map]. intros (_ & Hdisj & [Hpost _]%NoDup_cons)%NoDup_app.
  assert (Hpre : File.path f ∉ map File.path pre).
  { intros Hin. apply (Hdisj _ Hin). left. }
  rewrite process_files_app.
  pose proof (process_files_other_paths env root model pre total index
                (File.path f) Hpre) as Hsame.
  destruct (process_files_returns env root model pre total index)
    as (index1 & total1 & Hrun).
  rewrite Hrun in *. cbn [fst] in Hsame.
  exists index1. split; [done|]. by apply process_files_from.
Qed.

End LoopOutcome.

(** X12.  When the files to process have distinct paths, the loop settles
    each of them on its own.  A file that embeds ends with exactly its fresh
    entries: numbered 0, 1, ... in the order of its chunks, with its hash,
    each with the line range and the embedding of its chunk.  A file that
    cannot be read, or for which a request fails, ends with the entries its
    path had before the loop. *)
Theorem loop_settles_each_file
    (env : Env) (root model : string) (toProcess : list File.t) (f : File.t)
    (total : Z) (index : Index.t) :
  NoDup (map File.path toProcess) ->
  f ∈ toProcess ->
  (forall chunks vectors,
      embeds env root model f chunks vectors ->
      Forall3 entry_of_chunk
        (entries_of (File.path f)
           (fst (process_files env root model toProcess total index)))
        chunks vectors
      /\ map Entry.chunkId
           (entries_of (File.path f)
              (fst (process_files env root model toProcess total index)))
         = seqZ 0 (Js.len chunks)
      /\ Forall (fun c => Entry.hash c = File.hash f)
           (entries_of (File.path f)
              (fst (process_files env root model toProcess total index))))
  /\ (unreadable env root f \/ embedding_fails env root f model ->
      entries_of (File.path f)
        (fst (process_files env root model toProcess total index))
      = entries_of (File.path f) index).
Proof.
  intros Hnd (pre & post & ->)%list_elem_of_split.
  destruct (process_files_at env root model pre f post total index Hnd)
    as (index1 & Hsame & ->).
  split.
  - intros chunks vectors He.
    destruct (embedFile_of_embeds env root model f chunks vectors index1 He)
      as [-> Hall].
    cbn [fst]. rewrite entries_after_upsert.
    split; [done|]. split; [apply new_entries_chunkId|].
    eapply Forall_impl; [apply new_entries_of_file|]. by intros c [_ H].
  - intros [Hread|Hfail].
    + by rewrite (embedFile_unreadable env root model f index1 Hread).
    + by destruct (embedFile_fails env root model f index1 Hfail) as [e ->].
Qed.

Lemma loop_settles_each_file_witness :
  NoDup (map File.path [ demo_file ])
  /\ demo_file ∈ [ demo_file ]
  /\ (unreadable down_env "repo" demo_file
      \/ embedding_fails down_env "repo" demo_file "m")
  /\ entries_of "src/a.js"
       (fst (process_files down_env "repo" "m" [ demo_file ] 0 stale_index))
     = entries_of "src/a.js" stale_index.
Proof.
  assert (Hnd : NoDup (map File.path [ demo_file ])).
  { cbn. repeat constructor. apply not_elem_of_nil. }
  assert (Hin : demo_file ∈ [ demo_file ]) by constructor.
  assert (Hfail : unreadable down_env "repo" demo_file
                  \/ embedding_fails down_env "repo" demo_file "m").
  { right. exists ("a" ++ nl ++ "b"), (Chunk.mk ("a" ++ nl ++ "b") 0 1),
      (ApiFailed 500 "down").
    repeat split; try reflexivity. vm_compute. constructor. }
  split; [exact Hnd|]. split; [exact Hin|]. split; [exact Hfail|].
  exact (proj2 (loop_settles_each_file down_env "repo" "m" [ demo_file ]
                  demo_file 0 stale_index Hnd Hin) Hfail).
Defined.

(** ** What retrieval selects *)

Section Selection.

Implicit Types (G : list (string * list Scored.t)) (s r : Scored.t).

Lemma slice_subset {A} (l : list A) (a b : Z) x : x ∈ Js.slice l a b -> x ∈ l.
Proof.
  unfold Js.slice. intros H. by apply subseteq_take, subseteq_drop in H.
Qed.

Lemma pick_best_subset k G : forall pick s,
  s ∈ pick_best k G pick ->
  s ∈ pick \/ exists p arr, (p, arr) ∈ G /\ s ∈ arr.
Proof.
  induction G as [|[p arr] G IH]; intros pick s; cbn [pick_best]; [by left|].
  assert (Hhere : s ∈ (pick ++ take 1 (sort_desc arr))%list ->
            s ∈ pick \/ exists p' arr', (p', arr') ∈ (p, arr) :: G /\ s ∈ arr').
  { intros [?|Hs]%elem_of_app; [by left|]. right. exists p, arr.
    split; [left|]. apply subseteq_take in Hs. by rewrite sort_desc_perm in Hs. }
  destruct (_ >=? _); [done|].
  intros [Hs|(p' & arr' & Hg & Hs)]%IH; [by apply Hhere|].
  right. exists p', arr'. split; [by right|done].
Qed.

Lemma fill_up_subset times k scored : forall pick s,
  s ∈ fill_up times k scored pick -> s ∈ pick \/ s ∈ scored.
Proof.
  induction times as [|times IH]; intros pick s; cbn [fill_up]; [by left|].
  destruct (_ && _); [|by left].
  destruct (scored !! length pick) as [x|] eqn:Hx; [|by left].
  intros [[?|Hs%list_elem_of_singleton]%elem_of_app|?]%IH; [by left| |by right].
  subst s. right. by apply list_elem_of_lookup_2 in Hx.
Qed.

Lemma fill_up_length_le times k scored : forall pick,
  (length (fill_up times k scored pick)
   <= Nat.max (length pick) (Nat.min (Z.to_nat k) (length scored)))%nat.
Proof.
  induction times as [|times IH]; intros pick; cbn [fill_up]; [lia|].
  destruct ((Js.len pick <? k) && (Js.len pick <? Js.len scored)) eqn:Hc; [|lia].
  apply andb_true_iff in Hc as [Hk%Z.ltb_lt Hs%Z.ltb_lt]. unfold Js.len in *.
  destruct (scored !! length pick) as [x|]; [|lia].
  specialize (IH (pick ++ [ x ])%list). rewrite length_app in IH. cbn in IH. lia.
Qed.

(** Beyond what was picked, filling up copies the sorted list position by
    position. *)
Lemma fill_up_lookup times k scored : forall pick (i : nat),
  (length scored - length pick <= times)%nat ->
  (length pick <= i)%nat -> Z.of_nat i < k -> (i < length scored)%nat ->
  fill_up times k scored pick !! i = scored !! i.
Proof.
  induction times as [|times IH]; intros pick i Htimes Hi Hk Hs; [lia|].
  cbn [fill_up].
  destruct (Z.ltb_spec (Js.len pick) k) as [_|Hge]; [|unfold Js.len in Hge; lia].
  destruct (Z.ltb_spec (Js.len pick) (Js.len scored)) as [_|Hge];
    [|unfold Js.len in Hge; lia].
  cbn [andb].
  destruct (lookup_lt_is_Some_2 scored (length pick)) as [x Hx]; [lia|].
  rewrite Hx.
  destruct (decide (i = length pick)) as [->|Hne].
  - destruct (fill_up_appends times k scored (pick ++ [ x ])%list) as [more ->].
    rewrite <- app_assoc. rewrite lookup_app_r by lia.
    rewrite Nat.sub_diag. by rewrite Hx.
  - apply IH; rewrite ?length_app; cbn; lia.
Qed.

End Selection.

Section SelectionOf.

Variable scored : list Scored.t.
Variable k : Z.
Hypothesis k_positive : 1 <= k.

Let S := sort_desc scored.
Let G := group_by_file S.
Let pick := take (Z.to_nat k) (firsts G).

Lemma select_unfold :
  select scored k = take (Z.to_nat k) (fill_up (length S) k S pick).
Proof.
  unfold select. fold S G.
  rewrite pick_best_reps; [|apply groups_nonempty|unfold Js.len; cbn; lia].
  change (Js.len []) with 0. rewrite Z.sub_0_r. cbn [app].
  rewrite slice_take by lia. unfold G, S. by rewrite reps_firsts.
Qed.

Lemma length_firsts : length (firsts G) = n_files scored.
Proof. unfold G, S. by rewrite <- reps_firsts, length_reps. Qed.

Lemma n_files_le : (n_files scored <= length scored)%nat.
Proof.
  rewrite <- length_firsts.
  rewrite <- (Permutation_length (sort_desc_perm scored)). fold S.
  apply sublist_length, (grouped_firsts S G (group_by_file_grouped S)).
Qed.

Lemma length_pick : length pick = Nat.min (Z.to_nat k) (n_files scored).
Proof. unfold pick. by rewrite length_take, length_firsts. Qed.

Lemma length_S : length S = length scored.
Proof. apply Permutation_length, sort_desc_perm. Qed.

Lemma length_filled :
  length (fill_up (length S) k S pick)
  = Nat.min (Z.to_nat k) (length scored).
Proof.
  pose proof (fill_up_length_le (length S) k S pick) as Hle.
  pose proof (fill_up_exits (length S) k S pick) as Hexit.
  pose proof n_files_le. pose proof length_pick. pose proof length_S.
  rewrite andb_false_iff, !Z.ltb_ge in Hexit. unfold Js.len in Hexit.
  destruct Hexit; lia.
Qed.

End SelectionOf.

Section Usable.

Variables (cosine : vector -> vector -> Q) (float_add : Q -> Q -> Q).
Variable qVec : vector.

Lemma score_chunks_entries chunks :
  map Scored.entry (score_chunks cosine float_add qVec chunks)
  = filter (fun c => is_Some (Entry.vector c)) chunks.
Proof.
  unfold score_chunks.
  induction chunks as [|c chunks IH]; [done|].
  cbn [omap list_omap]. rewrite filter_cons.
  destruct (Entry.vector c) as [v|] eqn:Hv.
  - rewrite decide_True by eauto. cbn [map Scored.entry]. f_equal. exact IH.
  - rewrite decide_False by (by intros [? ?]). exact IH.
Qed.

End Usable.

(** X13.  For [k >= 1], selection returns [min k n] chunks, where [n] is the
    number of scored chunks; retrieval returns that many blocks, [n] being
    the number of index entries whose vector is an array.  It returns fewer
    than [k] blocks only when the index has fewer than [k] such entries. *)
Theorem retrieval_returns_min_k
    (env : Env) (cosine : vector -> vector -> Q) (float_add : Q -> Q -> Q)
    (root : string) (chunks : list Entry.t) (qVec : vector)
    (scored : list Scored.t) (k : Z) :
  1 <= k ->
  length (select scored k) = Nat.min (Z.to_nat k) (length scored)
  /\ length (retrieve env cosine float_add root chunks qVec k)
     = Nat.min (Z.to_nat k)
         (length (filter (fun c => is_Some (Entry.vector c)) chunks)).
Proof.
  intros Hk.
  assert (Hsel : forall l, length (select l k) = Nat.min (Z.to_nat k) (length l)).
  { intros l. rewrite select_unfold by done.
    rewrite length_take, length_filled by done. lia. }
  split; [apply Hsel|].
  unfold retrieve. rewrite length_map, Hsel.
  by rewrite <- (score_chunks_entries cosine float_add qVec chunks), length_map.
Qed.

Lemma retrieval_returns_min_k_witness :
  1 <= 2
  /\ length (select [ chunk_a1; chunk_a2; chunk_b ] 2) = 2%nat
  /\ length (select [ chunk_a1 ] 2) = 1%nat.
Proof.
  assert (Hk : 1 <= 2) by lia.
  split; [exact Hk|]. split.
  - exact (proj1 (retrieval_returns_min_k two_line_env (fun _ _ => 0%Q)
                    (fun a _ => a) "repo" [] [] [ chunk_a1; chunk_a2; chunk_b ]
                    2 Hk)).
  - exact (proj1 (retrieval_returns_min_k two_line_env (fun _ _ => 0%Q)
                    (fun a _ => a) "repo" [] [] [ chunk_a1 ] 2 Hk)).
Defined.

(** X14.  Every chunk selected is one of the scored chunks, and every block
    retrieval returns is the context block of an index entry whose vector is
    an array: an entry without one is never retrieved.  This holds for every
    [k]. *)
Theorem retrieval_uses_usable_entries
    (env : Env) (cosine : vector -> vector -> Q) (float_add : Q -> Q -> Q)
    (root : string) (chunks : list Entry.t) (qVec : vector) (k : Z) :
  (forall scored s, s ∈ select scored k -> s ∈ scored)
  /\ (forall b, b ∈ retrieve env cosine float_add root chunks qVec k ->
        exists c, c ∈ chunks /\ is_Some (Entry.vector c)
                  /\ b = context_block env root c).
Proof.
  assert (Hsel : forall scored s, s ∈ select scored k -> s ∈ scored).
  { intros scored s Hs. unfold select in Hs. apply slice_subset in Hs.
    assert (Hsorted : forall x, x ∈ sort_desc scored -> x ∈ scored)
      by (intros x Hx; by rewrite sort_desc_perm in Hx).
    apply fill_up_subset in Hs as [Hs|Hs]; [|by apply Hsorted].
    apply pick_best_subset in Hs as [[]%elem_of_nil|(p & arr & Hg & Hs)].
    destruct (grouped_groups _ _ (group_by_file_grouped (sort_desc scored))
                p arr Hg) as [_ Harr].
    rewrite Harr in Hs. apply list_elem_of_filter in Hs as [_ Hs].
    by apply Hsorted. }
  split; [exact Hsel|].
  intros b Hb. unfold retrieve in Hb.
  apply list_elem_of_fmap in Hb as (s & -> & Hs).
  apply Hsel in Hs.
  assert (Hentry : Scored.entry s
            ∈ map Scored.entry (score_chunks cosine float_add qVec chunks)).
  { apply list_elem_of_fmap. by exists s. }
  rewrite score_chunks_entries in Hentry.
  apply list_elem_of_filter in Hentry as [Hv Hc].
  by exists (Scored.entry s).
Qed.

Lemma retrieval_uses_usable_entries_witness :
  chunk_b ∈ select [ chunk_a1; chunk_a2; chunk_b ] 1
  /\ chunk_b ∈ [ chunk_a1; chunk_a2; chunk_b ].
Proof.
  assert (Hin : chunk_b ∈ select [ chunk_a1; chunk_a2; chunk_b ] 1).
  { vm_compute. constructor. }
  split; [exact Hin|].
  exact (proj1 (retrieval_uses_usable_entries two_line_env (fun _ _ => 0%Q)
                  (fun a _ => a) "repo" [] [] 1) _ _ Hin).
Defined.

(** X15.  For [k >= 1] and at least one scored chunk, the first chunk
    selected has the highest score of all: no scored chunk outscores it. *)
Theorem best_chunk_comes_first (scored : list Scored.t) (k : Z) :
  1 <= k -> scored <> [] ->
  exists r rest,
    select scored k = r :: rest /\ forall s, s ∈ scored -> desc r s.
Proof.
  intros Hk Hne.
  set (m := Nat.min (Z.to_nat k) (n_files scored)).
  assert (Hheads : take m (select scored k)
                   = take m (firsts (group_by_file (sort_desc scored)))).
  { unfold m. rewrite <- (length_reps scored).
    rewrite select_heads by (done || apply groups_nonempty).
    by rewrite reps_firsts. }
  pose proof (firsts_diversified scored m) as [Hnd Hbest Hdesc Hout].
  rewrite <- Hheads in *.
  assert (Hm : (1 <= m)%nat).
  { unfold m, n_files. destruct scored as [|s0 scored]; [done|].
    assert (Hin : Scored.path s0 ∈ remove_dups (map Scored.path (s0 :: scored)))
      by (apply elem_of_remove_dups; left).
    destruct (remove_dups _); [by apply elem_of_nil in Hin|]. cbn. lia. }
  assert (Hlen : length (take m (select scored k)) = m).
  { rewrite Hheads, length_take, <- reps_firsts, length_reps. unfold m. lia. }
  destruct (select scored k) as [|r rest] eqn:Hsel.
  { rewrite take_nil in Hlen. cbn in Hlen. lia. }
  exists r, rest. split; [done|]. intros s Hs.
  replace m with (S (pred m)) in * by lia. cbn [take] in *.
  apply StronglySorted_cons in Hdesc as [Hfirst _].
  rewrite Forall_forall in Hfirst, Hbest.
  destruct (decide (Scored.path s ∈ map Scored.path (r :: take (pred m) rest)))
    as [Hin|Hnot].
  - apply list_elem_of_fmap in Hin as (r' & Hpath & Hr').
    destruct (Hbest r' Hr') as [_ Hmax].
    transitivity r'; [|by apply Hmax].
    apply elem_of_cons in Hr' as [->|Hr']; [reflexivity|by apply Hfirst].
  - apply Hout; [done..|left].
Qed.

Lemma best_chunk_comes_first_witness :
  1 <= 2
  /\ [ chunk_a1; chunk_a2; chunk_b ] <> []
  /\ exists r rest,
       select [ chunk_a1; chunk_a2; chunk_b ] 2 = r :: rest
       /\ forall s, s ∈ [ chunk_a1; chunk_a2; chunk_b ] -> desc r s.
Proof.
  assert (Hk : 1 <= 2) by lia.
  assert (Hne : [ chunk_a1; chunk_a2; chunk_b ] <> []) by discriminate.
  split; [exact Hk|]. split; [exact Hne|].
  exact (best_chunk_comes_first [ chunk_a1; chunk_a2; chunk_b ] 2 Hk Hne).
Defined.

(** X16.  Once every file has its representative, the remaining places are
    filled by position: for [k >= 1], every place [i] from the number of
    files on that selection still has holds the chunk at place [i] of the
    list sorted by score.  A chunk can so be selected twice, and a
    higher-scoring chunk of a file that is represented be passed over. *)
Theorem remaining_places_are_filled_by_position
    (scored : list Scored.t) (k : Z) (i : nat) :
  1 <= k ->
  (n_files scored <= i)%nat ->
  Z.of_nat i < k ->
  (i < length scored)%nat ->
  select scored k !! i = sort_desc scored !! i.
Proof.
  intros Hk Hfiles Hik Hi.
  rewrite select_unfold by done.
  rewrite lookup_take_lt by lia.
  pose proof (length_pick scored k) as Hpick. cbv zeta in Hpick.
  pose proof (length_S scored) as HS. cbv zeta in HS.
  apply fill_up_lookup; lia.
Qed.

Lemma remaining_places_are_filled_by_position_witness :
  1 <= 3
  /\ (n_files [ chunk_a1; chunk_a2; chunk_c ] <= 2)%nat
  /\ select [ chunk_a1; chunk_a2; chunk_c ] 3 = [ chunk_a1; chunk_c; chunk_c ]
  /\ select [ chunk_a1; chunk_a2; chunk_c ] 3 !! 2%nat
     = sort_desc [ chunk_a1; chunk_a2; chunk_c ] !! 2%nat.
Proof.
  assert (Hk : 1 <= 3) by lia.
  assert (Hn : (n_files [ chunk_a1; chunk_a2; chunk_c ] <= 2)%nat)
    by (vm_compute; lia).
  split; [exact Hk|]. split; [exact Hn|]. split; [reflexivity|].
  apply (remaining_places_are_filled_by_position
           [ chunk_a1; chunk_a2; chunk_c ] 3 2 Hk Hn); [lia|cbn; lia].
Defined.

(** ** What a scan returns *)

Section ScanFiles.

Variable path_join : string -> string -> string.
Variable statSync : string -> option Z.
Variable hashFileFull : string -> option string.
Variable Object_source : string.

Lemma ceil_KB size maxFileKB :
  (- (- size / 1024) >? maxFileKB) = false <-> size <= 1024 * maxFileKB.
Proof.
  pose proof (Z.div_mod (- size) 1024 ltac:(lia)) as Hdm.
  pose proof (Z.mod_pos_bound (- size) 1024 ltac:(lia)) as Hm.
  destruct (Z.gtb_spec (- (- size / 1024)) maxFileKB); split; intros; try done; lia.
Qed.

Lemma kept_spec root maxFileKB rel sizeKB :
  kept path_join statSync root maxFileKB rel = Some sizeKB <->
  exists size, statSync (path_join root rel) = Some size
               /\ size <= 1024 * maxFileKB
               /\ sizeKB = - (- size / 1024).
Proof.
  unfold kept. destruct (statSync _) as [size|].
  - destruct (_ >? _) eqn:Hcap.
    + split; [done|]. intros (size' & [= <-] & Hle & _).
      apply ceil_KB in Hle. congruence.
    + apply ceil_KB in Hcap. split.
      * intros [= <-]. by exists size.
      * by intros (size' & [= <-] & _ & ->).
  - split; [done|]. by intros (size' & Hs & _).
Qed.

Lemma kept_are_readable_cons root maxFileKB rel rest :
  kept_are_readable path_join statSync hashFileFull root maxFileKB (rel :: rest)
  <-> (is_Some (kept path_join statSync root maxFileKB rel) ->
       is_Some (hashFileFull (path_join root rel)))
      /\ kept_are_readable path_join statSync hashFileFull root maxFileKB rest.
Proof.
  unfold kept_are_readable. split.
  - intros Hall. split.
    + intros [sizeKB (size & Hs & Hle & _)%kept_spec].
      apply (Hall rel size); [left|done|done].
    + intros rel' size Hin. apply Hall. by right.
  - intros [Hhead Hrest] rel' size [->|Hin]%elem_of_cons Hs Hle.
    + apply Hhead. exists (- (- size / 1024)). apply kept_spec. by exists size.
    + by apply (Hrest rel' size).
Qed.

(** The loop returns exactly when every path it keeps can be read, and then
    it has appended the records of the paths it keeps, in their order. *)
Lemma scan_loop_files root maxFileKB relPaths :
  forall files languages files' languages',
  scan_loop path_join statSync hashFileFull Object_source root maxFileKB
    relPaths files languages = Some (files', languages') ->
  files' = (files ++ omap (scanned path_join statSync hashFileFull root
                             maxFileKB) relPaths)%list
  /\ kept_are_readable path_join statSync hashFileFull root maxFileKB relPaths.
Proof.
  induction relPaths as [|rel rest IH]; intros files languages files' languages'.
  - intros [= <- <-]. split; [by rewrite app_nil_r|].
    intros rel size Hin. by apply elem_of_nil in Hin.
  - cbn [scan_loop omap list_omap]. rewrite kept_are_readable_cons.
    unfold scanned at 1. unfold kept at 1 2.
    destruct (statSync _) as [size|].
    + destruct (_ >? _).
      * intros [-> Hr]%IH. split; [done|]. split; [|done]. by intros [? ?].
      * destruct (hashFileFull _) as [hash|]; [|done].
        intros [-> Hr]%IH. split; [by rewrite <- app_assoc|]. by split.
    + intros [-> Hr]%IH. split; [done|]. split; [|done]. by intros [? ?].
Qed.

Lemma scan_loop_returns root maxFileKB relPaths : forall files languages,
  kept_are_readable path_join statSync hashFileFull root maxFileKB relPaths ->
  is_Some (scan_loop path_join statSync hashFileFull Object_source root
             maxFileKB relPaths files languages).
Proof.
  induction relPaths as [|rel rest IH]; intros files languages;
    cbn [scan_loop]; [done|].
  rewrite kept_are_readable_cons. unfold kept.
  destruct (statSync _) as [size|]; [|by intros [_ H]; apply IH].
  destruct (_ >? _); [by intros [_ H]; apply IH|].
  intros [[hash ->] Hrest]; [done|]. by apply IH.
Qed.

Lemma scanned_spec root maxFileKB rel f :
  scanned path_join statSync hashFileFull root maxFileKB rel = Some f ->
  File.path f = rel
  /\ File.sizeKB f <= maxFileKB
  /\ hashFileFull (path_join root rel) = Some (File.hash f)
  /\ exists size, statSync (path_join root rel) = Some size
       /\ size <= 1024 * maxFileKB
       /\ 1024 * (File.sizeKB f - 1) < size <= 1024 * File.sizeKB f.
Proof.
  unfold scanned.
  destruct (kept _ _ _ _ _) as [sizeKB|] eqn:Hk; [|done].
  destruct (hashFileFull _) as [hash|]; [|done]. intros [= <-]. cbn.
  apply kept_spec in Hk as (size & Hs & Hle & ->).
  pose proof (Z.div_mod (- size) 1024 ltac:(lia)).
  pose proof (Z.mod_pos_bound (- size) 1024 ltac:(lia)).
  repeat split; try lia. exists size. split; [done|]. lia.
Qed.

End ScanFiles.

(** X17.  A scan returns exactly when every path of the glob that can be
    stat'ed and has at most [1024 * maxFileKB] bytes can also be read;
    otherwise [hashFileFull] throws and the scan with it.  When it returns,
    it lists the paths of the glob in their order, and of them exactly those
    whose file can be stat'ed and is within the cap; each listed file
    carries its size rounded up to whole kilobytes, which is at most
    [maxFileKB], and the digest of its content. *)
Theorem scan_lists_the_files_within_the_cap
    (path_join : string -> string -> string) (statSync : string -> option Z)
    (hashFileFull : string -> option string) (Object_source root : string)
    (relPaths : list string) (maxFileKB : Z) :
  (is_Some (scanRepo path_join statSync hashFileFull Object_source root
              relPaths maxFileKB)
   <-> kept_are_readable path_join statSync hashFileFull root maxFileKB
         relPaths)
  /\ forall files languages,
       scanRepo path_join statSync hashFileFull Object_source root relPaths
         maxFileKB = Some (files, languages) ->
       map File.path files `sublist_of` relPaths
       /\ (forall rel,
             rel ∈ map File.path files <->
             rel ∈ relPaths
             /\ exists size, statSync (path_join root rel) = Some size
                             /\ size <= 1024 * maxFileKB)
       /\ Forall (fun f =>
            File.sizeKB f <= maxFileKB
            /\ hashFileFull (path_join root (File.path f)) = Some (File.hash f)
            /\ exists size,
                 statSync (path_join root (File.path f)) = Some size
                 /\ 1024 * (File.sizeKB f - 1) < size <= 1024 * File.sizeKB f)
            files.
Proof.
  unfold scanRepo. split.
  { split; [|apply scan_loop_returns].
    intros [[files languages] Hrun].
    by destruct (scan_loop_files _ _ _ _ _ _ _ _ _ _ _ Hrun). }
  intros files languages Hrun.
  destruct (scan_loop_files _ _ _ _ _ _ _ _ _ _ _ Hrun) as [-> Hread].
  cbn [app]. clear Hrun.
  pose proof (scanned_spec path_join statSync hashFileFull root maxFileKB)
    as Hone.
  split; [|split].
  - clear Hread.
    induction relPaths as [|rel rest IH]; cbn [omap list_omap map]; [constructor|].
    destruct (scanned _ _ _ _ _ rel) as [f|] eqn:Hf.
    + destruct (Hone rel f Hf) as [<- _]. cbn [map]. by apply sublist_skip.
    + by apply sublist_cons.
  - intros rel. split.
    + intros (f & -> & Hf)%list_elem_of_fmap.
      apply list_elem_of_omap in Hf as (rel & Hrel & Hf).
      destruct (Hone rel f Hf) as (-> & _ & _ & size & Hs & Hcap & _).
      split; [done|]. by exists size.
    + intros (Hrel & size & Hs & Hcap).
      destruct (Hread rel size Hrel Hs Hcap) as [hash Hh].
      apply list_elem_of_fmap.
      exists (File.mk rel (- (- size / 1024)) hash).
      split; [done|]. apply list_elem_of_omap. exists rel. split; [done|].
      unfold scanned.
      rewrite (proj2 (kept_spec path_join statSync root maxFileKB rel
                        (- (- size / 1024)))) by (by exists size).
      by rewrite Hh.
  - apply Forall_forall. intros f Hf.
    apply list_elem_of_omap in Hf as (rel & Hrel & Hf).
    destruct (Hone rel f Hf) as (<- & Hkb & Hh & size & Hs & _ & Hsz).
    split; [done|]. split; [done|]. by exists size.
Qed.

Lemma scan_lists_the_files_within_the_cap_witness :
  demo_scan [ "a.js"; "locked"; "b.js" ] = None
  /\ ~ kept_are_readable join_slash (fun _ => Some 100) demo_hash "repo" 256
        [ "a.js"; "locked"; "b.js" ]
  /\ exists files languages,
       demo_scan [ "a.js"; "Makefile" ] = Some (files, languages)
       /\ map File.path files `sublist_of` [ "a.js"; "Makefile" ].
Proof.
  assert (Hnone : demo_scan [ "a.js"; "locked"; "b.js" ] = None) by reflexivity.
  split; [exact Hnone|]. split.
  - intros Hread.
    apply (proj2 (proj1 (scan_lists_the_files_within_the_cap join_slash
             (fun _ => Some 100) demo_hash node_Object "repo"
             [ "a.js"; "locked"; "b.js" ] 256))) in Hread.
    unfold demo_scan in Hnone. rewrite Hnone in Hread.
    by destruct Hread.
  - eexists _, _. split; [vm_compute; reflexivity|].
    exact (proj1 (proj2 (scan_lists_the_files_within_the_cap join_slash
             (fun _ => Some 100) demo_hash node_Object "repo"
             [ "a.js"; "Makefile" ] 256) _ _ eq_refl)).
Defined.

(** X18.  The tally of a scan that returns agrees with the listed files
    under every key: under a key that an object literal does not inherit,
    it holds the number of listed files whose extension, as the code takes
    it, is that key, and nothing when there is none; the empty string and
    [__proto__] are never keys; and [constructor] never holds a number: it
    holds the source text of [Object] followed by one [1] for each listed
    file with that extension. *)
Theorem tally_counts_the_listed_files
    (path_join : string -> string -> string) (statSync : string -> option Z)
    (hashFileFull : string -> option string) (Object_source root : string)
    (relPaths : list string) (maxFileKB : Z)
    (files : list File.t) (languages : gmap string tally) (ext : string) :
  scanRepo path_join statSync hashFileFull Object_source root relPaths
    maxFileKB = Some (files, languages) ->
  languages !! ext
  = tally_of Object_source ext
      (length (filter (fun f => extension (File.path f) = ext) files))
  /\ (ext <> "" -> ext <> "__proto__" -> ext <> "constructor" ->
      default (Count 0) (languages !! ext)
      = Count (Js.len (filter (fun f => extension (File.path f) = ext) files)))
  /\ languages !! "" = None
  /\ languages !! "__proto__" = None
  /\ (forall n, languages !! "constructor" <> Some (Count n))
  /\ (forall k,
        length (filter (fun f => extension (File.path f) = "constructor")
                  files) = S k ->
        languages !! "constructor"
        = Some (Text (Object_source ++ ones (S k)))).
Proof.
  intros Hrun.
  pose proof (scanRepo_tallies _ _ _ _ _ _ _ _ _ Hrun) as Hall.
  split; [apply Hall|]. split; [|split; [|split; [|split]]].
  - intros H1 H2 H3. rewrite (Hall ext). unfold tally_of, Js.len.
    destruct ext as [|c ext]; [done|]. cbn [falsy orb].
    rewrite (proj2 (String.eqb_neq _ _) H2), (proj2 (String.eqb_neq _ _) H3).
    cbn [orb]. by destruct (length _).
  - by rewrite (Hall "").
  - by rewrite (Hall "__proto__").
  - intros n. rewrite (Hall "constructor"). unfold tally_of.
    change (falsy "constructor" || String.eqb "constructor" "__proto__")
      with false.
    change (String.eqb "constructor" "constructor") with true. cbn [orb].
    by destruct (Nat.eqb _ 0).
  - intros k Hk. rewrite (Hall "constructor"), Hk. done.
Qed.

Lemma tally_counts_the_listed_files_witness :
  exists files languages,
    demo_scan [ "a.js"; "x.constructor"; "b.JS"; "y.__proto__"; "constructor" ]
    = Some (files, languages)
    /\ languages !! "js" = Some (Count 2)
    /\ languages !! "constructor" = Some (Text (node_Object ++ "11"))
    /\ languages !! "__proto__" = None
    /\ languages !! "js"
       = tally_of node_Object "js"
           (length (filter (fun f => extension (File.path f) = "js") files)).
Proof.
  eexists _, _. split; [vm_compute; reflexivity|].
  split; [vm_compute; reflexivity|]. split; [vm_compute; reflexivity|].
  split; [vm_compute; reflexivity|].
  exact (proj1 (tally_counts_the_listed_files join_slash (fun _ => Some 100)
                  demo_hash node_Object "repo"
                  [ "a.js"; "x.constructor"; "b.JS"; "y.__proto__"; "constructor" ]
                  256 _ _ "js" eq_refl)).
Defined.

(** ** Extensions *)

Section Extensions.

Lemma lower_idem c : lower (lower c) = lower c.
Proof. destruct c as [[] [] [] [] [] [] [] []]; reflexivity. Qed.

Lemma lower_dot c : Ascii.eqb (lower c) "." = Ascii.eqb c ".".
Proof. destruct c as [[] [] [] [] [] [] [] []]; reflexivity. Qed.

Lemma toLowerCase_idem s : toLowerCase (toLowerCase s) = toLowerCase s.
Proof.
  induction s as [|c s IH]; [done|]. cbn [toLowerCase]. by rewrite lower_idem, IH.
Qed.

Lemma split_dot_nonempty s : split_dot s <> [].
Proof.
  induction s as [|c s IH]; cbn [split_dot]; [done|].
  destruct (Ascii.eqb c "."); [done|]. by destruct (split_dot s).
Qed.

Lemma split_dot_lower s :
  split_dot (toLowerCase s) = map toLowerCase (split_dot s).
Proof.
  induction s as [|c s IH]; [done|]. cbn [toLowerCase split_dot].
  rewrite lower_dot, IH.
  destruct (Ascii.eqb c "."); [done|].
  pose proof (split_dot_nonempty s). by destruct (split_dot s).
Qed.

Lemma last_map {A B} (f : A -> B) (l : list A) :
  last (map f l) = option_map f (last l).
Proof.
  induction l as [|x l IH]; [done|].
  destruct l as [|y l]; [done|]. exact IH.
Qed.

Lemma extension_lower s : extension (toLowerCase s) = extension s.
Proof.
  unfold extension. rewrite split_dot_lower, last_map.
  destruct (last (split_dot s)); cbn; [apply toLowerCase_idem|done].
Qed.

Lemma split_dot_plain s : "."%char ∉ chars s -> split_dot s = [ s ].
Proof.
  induction s as [|c s IH]; [done|]. cbn [chars split_dot]. intros Hdot.
  destruct (Ascii.eqb_spec c ".") as [->|Hc]; [exfalso; apply Hdot; left|].
  rewrite IH; [done|]. intros Hin. apply Hdot. by right.
Qed.

Lemma split_dot_after stem e :
  exists front,
    front <> []
    /\ split_dot (stem ++ String "." e) = (front ++ split_dot e)%list.
Proof.
  induction stem as [|c stem (front & Hne & IH)].
  - exists [ "" ]. split; [done|].
    change ("" ++ String "." e) with (String "." e). done.
  - change (String c stem ++ String "." e) with (String c (stem ++ String "." e)).
    cbn [split_dot]. rewrite IH.
    destruct (Ascii.eqb c ".").
    + exists ("" :: front). by split.
    + destruct front as [|l front]; [done|].
      exists (String c l :: front). by split.
Qed.

End Extensions.

(** X19.  The extension the tally uses is what follows the last dot of the
    relative path, in lower case; for a path without a dot it is the whole
    path in lower case.  It is the same for paths that differ only in the
    case of their letters, and is itself in lower case. *)
Theorem extension_of_a_path :
  (forall stem e,
      "."%char ∉ chars e -> extension (stem ++ String "." e) = toLowerCase e)
  /\ (forall rel, "."%char ∉ chars rel -> extension rel = toLowerCase rel)
  /\ (forall a b, toLowerCase a = toLowerCase b -> extension a = extension b)
  /\ (forall rel, toLowerCase (extension rel) = extension rel).
Proof.
  split; [|split; [|split]].
  - intros stem e He. unfold extension.
    destruct (split_dot_after stem e) as (front & Hne & ->).
    rewrite (split_dot_plain e He), last_snoc. done.
  - intros rel Hrel. unfold extension. by rewrite (split_dot_plain rel Hrel).
  - intros a b Hab. by rewrite <- (extension_lower a), Hab, extension_lower.
  - intros rel. unfold extension. apply toLowerCase_idem.
Qed.

Lemma extension_of_a_path_witness :
  ("."%char ∉ chars "JS")
  /\ extension ("src/Main" ++ String "." "JS") = "js"
  /\ extension "README.MD" = extension "readme.md".
Proof.
  assert (Hdot : "."%char ∉ chars "JS").
  { cbn. intros H. repeat (apply elem_of_cons in H as [H|H]; [discriminate|]).
    by apply elem_of_nil in H. }
  destruct extension_of_a_path as (Hext & _ & Hcase & _).
  split; [exact Hdot|]. split.
  - exact (Hext "src/Main" "JS" Hdot).
  - exact (Hcase "README.MD" "readme.md" eq_refl).
Defined.

(** ** Pruning, step by step *)

(** X20.  Pruning composes: pruning by some paths and then by others is
    pruning by all of them at once; pruning twice by the same paths is
    pruning once; and dropping the entries of one path, as the upsert does,
    is pruning by that path alone. *)
Theorem pruning_composes (index : Index.t) (paths1 paths2 : list string)
    (pathStr : string) :
  dropFilesFromIndex (dropFilesFromIndex index paths1) paths2
  = dropFilesFromIndex index (paths1 ++ paths2)
  /\ dropFilesFromIndex (dropFilesFromIndex index paths1) paths1
     = dropFilesFromIndex index paths1
  /\ dropFileFromIndexByPath index pathStr
     = dropFilesFromIndex index [ pathStr ].
Proof.
  assert (Heq : forall i1 i2 : Index.t,
            Index.version i1 = Index.version i2 ->
            Index.chunks i1 = Index.chunks i2 -> i1 = i2).
  { intros [v1 c1] [v2 c2]; cbn; congruence. }
  assert (Hver : forall i paths,
            Index.version (dropFilesFromIndex i paths) = Index.version i).
  { intros i paths. unfold dropFilesFromIndex. by destruct (_ =? 0). }
  assert (Htwo : forall l1 l2,
            Index.chunks (dropFilesFromIndex (dropFilesFromIndex index l1) l2)
            = Index.chunks (dropFilesFromIndex index (l1 ++ l2))).
  { intros l1 l2. rewrite !dropFilesFromIndex_chunks, list_filter_filter.
    apply list_filter_iff. intros c. rewrite elem_of_app. tauto. }
  split; [|split].
  - apply Heq; [by rewrite !Hver|apply Htwo].
  - apply Heq; [by rewrite !Hver|].
    rewrite Htwo, !dropFilesFromIndex_chunks.
    apply list_filter_iff. intros c. rewrite elem_of_app. tauto.
  - apply Heq; [done|]. rewrite dropFilesFromIndex_chunks. cbn.
    apply list_filter_iff. intros c. rewrite list_elem_of_singleton. done.
Qed.

(** ** The repository root *)

Section RepoRootFacts.

Variable path_join : string -> string -> string.
Variable dirname : string -> string.
Variable existsSync : string -> bool.

Lemma iter_fixed (n : nat) dir :
  dirname dir = dir -> Nat.iter n dirname dir = dir.
Proof.
  intros Hfix. induction n as [|n IH]; [done|].
  by rewrite Nat.iter_succ, IH.
Qed.

Lemma findRepoRoot_from_spec cwd (n : nat) : forall dir,
  dirname (Nat.iter n dirname dir) = Nat.iter n dirname dir ->
  exists r,
    (forall extra,
        findRepoRoot_from path_join dirname existsSync (S n + extra) cwd dir
        = Some r)
    /\ ((exists j, (j <= n)%nat
           /\ r = Nat.iter j dirname dir
           /\ has_git path_join existsSync r
           /\ forall i, (i < j)%nat ->
                ~ has_git path_join existsSync (Nat.iter i dirname dir))
        \/ (r = cwd
            /\ forall j, (j <= n)%nat ->
                 ~ has_git path_join existsSync (Nat.iter j dirname dir))).
Proof.
  unfold has_git.
  induction n as [|n IH]; intros dir Hfix.
  - cbn in Hfix. cbn [Nat.add findRepoRoot_from].
    destruct (existsSync (path_join dir ".git")) eqn:Hgit.
    + exists dir. split; [done|]. left. exists 0%nat.
      repeat split; [lia|done|]. intros i Hi. lia.
    + rewrite Hfix, String.eqb_refl. exists cwd. split; [done|]. right.
      split; [done|]. intros j Hj. replace j with 0%nat by lia. cbn. congruence.
  - rewrite Nat.iter_succ_r in Hfix.
    cbn [Nat.add findRepoRoot_from].
    destruct (existsSync (path_join dir ".git")) eqn:Hgit.
    + exists dir. split; [done|]. left. exists 0%nat.
      repeat split; [lia|done|]. intros i Hi. lia.
    + destruct (String.eqb_spec (dirname dir) dir) as [Hsame|Hup].
      * exists cwd. split; [done|]. right. split; [done|].
        intros j _. rewrite iter_fixed by done. congruence.
      * destruct (IH (dirname dir) Hfix) as (r & Hrun & Hr).
        exists r. split; [exact Hrun|].
        destruct Hr as [(j & Hj & -> & Hg & Hbefore)|[-> Hnone]].
        -- left. exists (S j). rewrite Nat.iter_succ_r.
           repeat split; [lia|done|].
           intros [|i] Hi; [cbn; congruence|].
           rewrite Nat.iter_succ_r. apply Hbefore. lia.
        -- right. split; [done|].
           intros [|j] Hj; [cbn; congruence|].
           rewrite Nat.iter_succ_r. apply Hnone. lia.
Qed.

End RepoRootFacts.

(** X21.  When going up from the working directory reaches, after [n]
    steps, a directory that is its own parent, [findRepoRoot] returns within
    [n + 1] passes: the nearest directory on the way up, the working
    directory included, that holds a [.git]; or, when none does, the working
    directory itself, not the top directory. *)
Theorem findRepoRoot_nearest_or_cwd
    (path_join : string -> string -> string) (dirname : string -> string)
    (existsSync : string -> bool) (cwd : string) (n : nat) :
  dirname (Nat.iter n dirname cwd) = Nat.iter n dirname cwd ->
  exists r,
    (forall extra,
        findRepoRoot path_join dirname existsSync (S n + extra) cwd = Some r)
    /\ ((exists j, (j <= n)%nat
           /\ r = Nat.iter j dirname cwd
           /\ has_git path_join existsSync r
           /\ forall i, (i < j)%nat ->
                ~ has_git path_join existsSync (Nat.iter i dirname cwd))
        \/ (r = cwd
            /\ forall j, (j <= n)%nat ->
                 ~ has_git path_join existsSync (Nat.iter j dirname cwd))).
Proof. apply findRepoRoot_from_spec. Qed.

Lemma findRepoRoot_nearest_or_cwd_witness :
  parent_of (Nat.iter 2 parent_of "/w/repo/src") = Nat.iter 2 parent_of "/w/repo/src"
  /\ findRepoRoot join_slash parent_of git_in_repo 3 "/w/repo/src" = Some "/w/repo"
  /\ findRepoRoot join_slash parent_of (fun _ => false) 3 "/w/repo/src"
     = Some "/w/repo/src"
  /\ exists r,
       (forall extra,
           findRepoRoot join_slash parent_of git_in_repo (3 + extra) "/w/repo/src"
           = Some r)
       /\ ((exists j, (j <= 2)%nat
              /\ r = Nat.iter j parent_of "/w/repo/src"
              /\ has_git join_slash git_in_repo r
              /\ forall i, (i < j)%nat ->
                   ~ has_git join_slash git_in_repo
                       (Nat.iter i parent_of "/w/repo/src"))
           \/ (r = "/w/repo/src"
               /\ forall j, (j <= 2)%nat ->
                    ~ has_git join_slash git_in_repo
                        (Nat.iter j parent_of "/w/repo/src"))).
Proof.
  assert (Hfix : parent_of (Nat.iter 2 parent_of "/w/repo/src")
                 = Nat.iter 2 parent_of "/w/repo/src") by reflexivity.
  split; [exact Hfix|]. split; [reflexivity|]. split; [reflexivity|].
  exact (findRepoRoot_nearest_or_cwd join_slash parent_of git_in_repo
           "/w/repo/src" 2 Hfix).
Defined.

(** ** Trimming *)

Section Trimming.

Lemma trimStart_head s :
  trimStart s = "" \/ exists c r, trimStart s = String c r /\ is_space c = false.
Proof.
  induction s as [|c s IH]; cbn [trimStart]; [by left|].
  destruct (is_space c) eqn:Hc; [exact IH|]. right. by exists c, s.
Qed.

Lemma trimEnd_head c r :
  is_space c = false -> exists r', trimEnd (String c r) = String c r'.
Proof.
  intros Hc. cbn [trimEnd]. destruct (trimEnd r); rewrite ?Hc; eauto.
Qed.

Lemma trimEnd_idem s : trimEnd (trimEnd s) = trimEnd s.
Proof.
  induction s as [|c s IH]; [done|]. cbn [trimEnd].
  destruct (trimEnd s) as [|d r'] eqn:Hs.
  - destruct (is_space c) eqn:Hc; [done|]. cbn [trimEnd]. by rewrite Hc.
  - cbn [trimEnd]. cbn [trimEnd] in IH. by rewrite IH.
Qed.

Lemma trim_idem s : trim (trim s) = trim s.
Proof.
  unfold trim.
  destruct (trimStart_head s) as [->|(c & r & -> & Hc)]; [done|].
  destruct (trimEnd_head c r Hc) as [r' Hr']. rewrite Hr' at 1.
  cbn [trimStart]. rewrite Hc, <- Hr'. apply trimEnd_idem.
Qed.

(** A string is empty once trimmed exactly when it holds white space
    only. *)
Lemma trim_blank s :
  trim s = "" <-> Forall (fun c => is_space c = true) (chars s).
Proof.
  unfold trim. induction s as [|c s IH]; cbn [trimStart chars].
  - split; [constructor|done].
  - destruct (is_space c) eqn:Hc.
    + rewrite IH. split; [by constructor|by inversion 1].
    + split.
      * intros H. destruct (trimEnd_head c s Hc) as [r' Hr']. congruence.
      * inversion 1; congruence.
Qed.

End Trimming.

(** X22.  The ignore list is the excludes of the configuration, in their
    order, followed by the lines of the ignore file, in their order, each
    stripped of the white space around it, without the lines that are empty
    once stripped, which are the lines of white space only: every such
    pattern is non-empty and has no white space around it.  Without an
    ignore file the list is the excludes of the configuration. *)
Theorem ignore_list_is_trimmed (cfgExclude : option (list string))
    (ignoreFile : option string) :
  exists extraIgnores,
    buildIgnoreList cfgExclude ignoreFile
    = (default [] cfgExclude ++ extraIgnores)%list
    /\ Forall (fun p => p <> "" /\ trim p = p) extraIgnores
    /\ (forall p, p ∈ extraIgnores <->
          p <> ""
          /\ exists content line,
               ignoreFile = Some content
               /\ line ∈ Js.split_lines content /\ trim line = p)
    /\ (ignoreFile = None -> extraIgnores = [])
    /\ (forall content,
          ignoreFile = Some content ->
          extraIgnores
          = map trim
              (filter (fun line => ~ Forall (fun c => is_space c = true)
                                      (chars line))
                 (Js.split_lines content))).
Proof.
  unfold buildIgnoreList. destruct ignoreFile as [content|].
  - exists (filter (fun s => falsy s = false) (map trim (Js.split_lines content))).
    assert (Hmem : forall p,
              p ∈ filter (fun s => falsy s = false)
                    (map trim (Js.split_lines content)) <->
              p <> "" /\ exists line, line ∈ Js.split_lines content /\ trim line = p).
    { intros p. rewrite list_elem_of_filter, list_elem_of_fmap.
      split.
      - intros [Hf (line & -> & Hl)]. split; [by intros Heq; rewrite Heq in Hf|].
        by exists line.
      - intros [Hne (line & Hl & <-)]. split; [|by exists line].
        by destruct (trim line). }
    split; [done|]. split; [|split; [|split; [done|]]].
    + apply Forall_forall. intros p Hp.
      apply Hmem in Hp as [Hne (line & _ & <-)]. split; [done|apply trim_idem].
    + intros p. rewrite Hmem. split.
      * intros [Hne (line & Hl & Ht)]. split; [done|]. by exists content, line.
      * intros [Hne (c & line & [= <-] & Hl & Ht)]. split; [done|]. by exists line.
    + intros c [= <-]. clear Hmem.
      induction (Js.split_lines content) as [|line lines IH]; [done|].
      cbn [map]. rewrite !filter_cons, IH.
      destruct (decide (falsy (trim line) = false)) as [Hf|Hf];
        destruct (decide (~ Forall (fun c => is_space c = true) (chars line)))
          as [Hb|Hb]; try done.
      * exfalso. apply Hb. intros Hall%trim_blank. by rewrite Hall in Hf.
      * exfalso. apply Hf. destruct (trim line) eqn:Ht; [|done].
        by apply trim_blank in Ht.
  - exists []. split; [done|]. split; [constructor|]. split; [|done].
    intros p. split; [intros []%elem_of_nil|].
    intros [_ (c & line & Hc & _)]. discriminate.
Qed.

Lemma ignore_list_is_trimmed_witness :
  buildIgnoreList (Some [ "dist/**" ])
    (Some ("  *.log " ++ crlf ++ nl ++ "tmp/**"))
  = [ "dist/**"; "*.log"; "tmp/**" ]
  /\ exists extraIgnores,
       buildIgnoreList (Some [ "dist/**" ]) None
       = (default [] (Some [ "dist/**" ]) ++ extraIgnores)%list
       /\ extraIgnores = [].
Proof.
  split; [reflexivity|].
  destruct (ignore_list_is_trimmed (Some [ "dist/**" ]) None)
    as (extraIgnores & Heq & _ & _ & Hnone & _).
  exists extraIgnores. split; [exact Heq|exact (Hnone eq_refl)].
Defined.

(** ** The preflight *)

Section Preflight.

Lemma property_name_of_null o :
  property "name" o = inl TypeError <-> o = JNull.
Proof. by destruct o. Qed.

(** Mapping the models to their names throws exactly when one of them is
    [null]; otherwise a required model is among the names exactly when some
    model has it as its [name]. *)
Lemma names_cases ms :
  (names ms = inl TypeError /\ JNull ∈ ms)
  \/ (exists installed,
        names ms = inr installed
        /\ (JNull ∉ ms)
        /\ forall m,
             includes installed m
             = existsb (fun o => match property "name" o with
                                 | inr (Some (JString s)) => String.eqb s m
                                 | _ => false
                                 end) ms).
Proof.
  induction ms as [|o ms IH].
  - right. exists []. split; [done|]. split; [apply not_elem_of_nil|done].
  - cbn [names existsb].
    destruct (property "name" o) as [e|name] eqn:Ho.
    + left. assert (o = JNull) as -> by (by destruct o).
      injection Ho as <-. split; [done|left].
    + assert (Hnot : o <> JNull) by (by intros ->).
      destruct IH as [[-> Hin]|(installed & -> & Hnone & Hinc)].
      * left. split; [done|by right].
      * right. exists (name :: installed). split; [done|].
        split; [by apply not_elem_of_cons|].
        intros m. cbn [includes existsb]. by rewrite <- Hinc.
Qed.

(** [checkOllama] on an answer whose body parses. *)
Lemma checkOllama_cases data requiredModels :
  (~ searchable data /\ checkOllama (Tags data) requiredModels = inl TypeError)
  \/ (searchable data
      /\ checkOllama (Tags data) requiredModels
         = if Js.len (filter (fun m => installed_in data m = false)
                        requiredModels) =? 0
           then inr true
           else inl (MissingModels
                       (missing_message
                          (filter (fun m => installed_in data m = false)
                             requiredModels)))).
Proof.
  unfold checkOllama, searchable, installed_in.
  destruct (property "models" data) as [e|models] eqn:Hp.
  { left. assert (data = JNull) as -> by (by destruct data).
    split; [by intros [H _]|]. by injection Hp as <-. }
  assert (Hnot : data <> JNull) by (by intros ->).
  destruct models as [[| | | |ms|]|];
    try (right; split; [split; [done|by intros ms [=]]|done]).
  destruct (names_cases ms) as [[-> Hin]|(installed & -> & Hnone & Hinc)].
  - left. split; [|done]. intros [_ H]. by apply (H ms).
  - right. split; [split; [done|by intros ms' [= <-]]|].
    rewrite (list_filter_iff (fun m => includes installed m = false)
               (fun m => existsb
                           (fun o => match property "name" o with
                                     | inr (Some (JString s)) => String.eqb s m
                                     | _ => false
                                     end) ms = false) requiredModels); [done|].
    intros m. by rewrite Hinc.
Qed.

Lemma none_missing data requiredModels :
  Js.len (filter (fun m => installed_in data m = false) requiredModels) = 0
  <-> Forall (fun m => installed_in data m = true) requiredModels.
Proof.
  unfold Js.len. split.
  - intros H0. apply Forall_forall. intros m Hm.
    destruct (installed_in data m) eqn:Hi; [done|].
    assert (Hin : m ∈ filter (fun m => installed_in data m = false)
                        requiredModels) by (by apply list_elem_of_filter).
    destruct (filter _ _); [by apply elem_of_nil in Hin|]. cbn in H0. lia.
  - intros Hall. rewrite filter_none; [done|].
    eapply Forall_impl; [exact Hall|]. intros m Hm Hnot. congruence.
Qed.

End Preflight.

(** X23.  The preflight passes exactly when the service answers with a body
    that parses to a value other than [null], no element of whose [models]
    array is [null], and every required model is the [name] of an element of
    that array; it never returns anything but [true].  It reports that the
    service is not running exactly when there is no answer, the answer is
    not [ok] or the body does not parse, and it throws a [TypeError] exactly
    when the body is [null] or a model is.  In every other case the error it
    throws names the required models that are not installed, in the order in
    which they are required. *)
Theorem preflight_passes_when_models_are_installed
    (res : tags_response) (requiredModels : list string) :
  (checkOllama res requiredModels = inr true <->
     exists data,
       res = Tags data
       /\ searchable data
       /\ Forall (fun m => installed_in data m = true) requiredModels)
  /\ (forall b, checkOllama res requiredModels = inr b -> b = true)
  /\ (checkOllama res requiredModels = inl NotRunning <->
      forall data, res <> Tags data)
  /\ (checkOllama res requiredModels = inl TypeError <->
      exists data, res = Tags data /\ ~ searchable data)
  /\ (forall data e,
        res = Tags data -> searchable data ->
        checkOllama res requiredModels = inl e ->
        e = MissingModels
              (missing_message
                 (filter (fun m => installed_in data m = false) requiredModels))
        /\ exists m, m ∈ requiredModels /\ installed_in data m = false).
Proof.
  destruct res as [| | |data].
  1-3: (split; [split; [done|by intros (data & H & _)]|];
        split; [done|]; split; [done|];
        split; [split; [done|by intros (data & H & _)]|done]).
  pose proof (none_missing data requiredModels) as Hnone.
  destruct (checkOllama_cases data requiredModels) as [[Hbad ->]|[Hok ->]].
  { split; [split; [done|by intros (d & [= <-] & Hs & _)]|].
    split; [done|]. split; [split; [done|by intros H; destruct (H data)]|].
    split; [split; [by exists data|done]|].
    by intros d e [= <-] Hs. }
  destruct (Z.eqb_spec (Js.len (filter (fun m => installed_in data m = false)
                                  requiredModels)) 0) as [H0|Hn0].
  - split; [split; [intros _; exists data; by rewrite <- Hnone|done]|].
    split; [by intros b [= <-]|].
    split; [split; [done|by intros H; destruct (H data)]|].
    split; [split; [done|by intros (d & [= <-] & Hbad)]|done].
  - split; [split; [done|intros (d & [= <-] & _ & Hall); by apply Hnone in Hall]|].
    split; [done|].
    split; [split; [done|by intros H; destruct (H data)]|].
    split; [split; [done|by intros (d & [= <-] & Hbad)]|].
    intros d e [= <-] _ [= <-]. split; [done|].
    destruct (filter (fun m => installed_in data m = false) requiredModels)
      as [|m rest] eqn:Hm; [done|].
    assert (Hin : m ∈ filter (fun m => installed_in data m = false)
                        requiredModels) by (rewrite Hm; left).
    apply list_elem_of_filter in Hin as [Hnot Hin]. by exists m.
Qed.

Lemma preflight_passes_when_models_are_installed_witness :
  checkOllama (Tags tags_body) [ "gemma3:latest"; "nomic-embed-text:latest" ]
  = inl (MissingModels
           ("Missing model(s): nomic-embed-text:latest" ++ nl ++ "Run:" ++ nl
            ++ "  ollama pull nomic-embed-text:latest"))
  /\ checkOllama (Tags JNull) [] = inl TypeError
  /\ checkOllama (Tags (JObject [ ("models", JArray [ JNull ]) ])) []
     = inl TypeError
  /\ searchable tags_body
  /\ exists m, m ∈ [ "gemma3:latest"; "nomic-embed-text:latest" ]
               /\ installed_in tags_body m = false.
Proof.
  assert (Hok : searchable tags_body).
  { split; [discriminate|]. intros ms [= <-].
    intros [H|[H|H%elem_of_nil]%elem_of_cons]%elem_of_cons; done. }
  split; [reflexivity|]. split; [reflexivity|]. split; [reflexivity|].
  split; [exact Hok|].
  exact (proj2 (proj2 (proj2 (proj2 (proj2
           (preflight_passes_when_models_are_installed (Tags tags_body)
              [ "gemma3:latest"; "nomic-embed-text:latest" ]))))
           tags_body _ eq_refl Hok eq_refl)).
Defined.

(** ** Reading a block back *)

Lemma readSlice_stops_before_end_witness :
  readFileSync three_line_env "repo/src/a.js" = Some three_lines
  /\ 0 <= 1 <= 2 /\ 2 < Js.len (Js.split_lines three_lines) /\ 2 < 2 ^ 31
  /\ readSlice three_line_env "repo/src/a.js" 1 2 = Some "b".
Proof.
  assert (H1 : 0 <= 1 <= 2) by lia.
  assert (H2 : 2 < Js.len (Js.split_lines three_lines)) by (vm_compute; reflexivity).
  assert (H3 : 2 < 2 ^ 31) by lia.
  split; [reflexivity|]. split; [exact H1|]. split; [exact H2|].
  split; [exact H3|].
  exact (readSlice_stops_before_end three_line_env "repo/src/a.js" three_lines
           1 2 eq_refl H1 H2 H3).
Defined.

(** ** The lines that are chunked *)

(** X24.  When [overlap] is not negative, a line of the text lies in the
    range of some chunk exactly when it fits the budget on its own: a line
    whose length plus one separator exceeds [maxChars] is in no chunk, and
    every other line is in one. *)
Theorem covered_exactly_when_it_fits
    (text : string) (o : options) (i : nat) (l : string) :
  0 <= overlap_of o ->
  Js.split_lines text !! i = Some l ->
  covered (chunkFileContent text o) (Z.of_nat i) <-> fits (maxChars_of o) l.
Proof.
  intros Hovl Hl. split.
  - intros (c & Hc & Hrange).
    pose proof (chunkFileContent_good text o) as Hall.
    rewrite Forall_forall in Hall. destruct (Hall c Hc) as [_ _ Hfit].
    by apply (Hfit i).
  - intros Hfit.
    assert (Hinv : covered_below (Js.split_lines text) (maxChars_of o) 0 []).
    { split; [lia|]. intros j l' _ _ Hj. lia. }
    exact (chunk_loop_covers (Js.split_lines text) (maxChars_of o)
             (overlap_of o) Hovl (S (length (Js.split_lines text))) 0 []
             (chunkFileContent text o) Hinv (chunkFileContent_run text o)
             i l Hl Hfit).
Qed.

Lemma covered_exactly_when_it_fits_witness :
  0 <= overlap_of tight
  /\ Js.split_lines five_lines !! 3%nat = Some "fghijk"
  /\ ~ fits (maxChars_of tight) "fghijk"
  /\ ~ covered (chunkFileContent five_lines tight) 3.
Proof.
  assert (Hovl : 0 <= overlap_of tight) by (vm_compute; discriminate).
  assert (Hl : Js.split_lines five_lines !! 3%nat = Some "fghijk") by reflexivity.
  assert (Hunfit : ~ fits (maxChars_of tight) "fghijk").
  { unfold fits. vm_compute. intros H. by apply H. }
  split; [exact Hovl|]. split; [exact Hl|]. split; [exact Hunfit|].
  intros Hcov. apply Hunfit.
  exact (proj1 (covered_exactly_when_it_fits five_lines tight 3 "fghijk" Hovl Hl)
           Hcov).
Defined.
